(** * CSFGraph: the compressed-storage graph of n2v/csf_graph.py

    A shallow embedding of [CSFGraph] (construction from an edge file, the
    query methods, [__str__] and [print_edge_type_distribution]) together
    with the pieces of the Python and NumPy
    runtime the class relies on: [str.split], [float], ordered dictionaries,
    [collections.defaultdict], [set], [sorted] and the element store of an
    [int32] array.

    Text is modelled as [string] (one [ascii] per character, so the model
    speaks about ASCII text); a Python [float] is an IEEE binary64 value,
    here a [spec_float] with [prec = 53] and [emax = 1024]; Python integers
    are [Z]. *)

From Stdlib Require Import String Ascii.
From Stdlib Require Import ZArith List Bool Lia Permutation Sorted.
From Stdlib Require Import SpecFloat.
From Stdlib Require Import QArith.
From Stdlib Require DecimalString.
Import ListNotations.
Local Open Scope Z_scope.

Set Implicit Arguments.

(** ** Exceptions and results *)

Inductive exn : Type :=
| TypeError (msg : string)
| ValueError (msg : string)
| OverflowError (msg : string)
| IndexError (msg : string).

Inductive result (A : Type) : Type :=
| Ok (a : A)
| Raise (e : exn).
Arguments Ok {A} a.
Arguments Raise {A} e.

Definition is_ok {A} (r : result A) : bool :=
  match r with Ok _ => true | Raise _ => false end.

Definition rbind {A B} (r : result A) (k : A -> result B) : result B :=
  match r with Ok a => k a | Raise e => Raise e end.

Notation "'do' x <- r ; k" := (rbind r (fun x => k))
  (at level 10, x pattern, r at level 100, k at level 200).

(** ** The Python runtime *)

Module Py.

(** *** Strings *)

(** [str.isspace] on ASCII: TAB, LF, VT, FF, CR, the four separators
    FS, GS, RS, US and the blank. *)
Definition isspace (c : ascii) : bool :=
  let n := N_of_ascii c in
  (((9 <=? n) && (n <=? 13)) || ((28 <=? n) && (n <=? 32)))%N.

Definition flush (cur : string) : list string :=
  match cur with EmptyString => [] | _ => [cur] end.

(** [s.split()]: the maximal runs of characters that are not white space. *)
Fixpoint split_from (cur s : string) : list string :=
  match s with
  | EmptyString => flush cur
  | String c rest =>
      if isspace c then flush cur ++ split_from EmptyString rest
      else split_from (cur ++ String c EmptyString)%string rest
  end.

Definition split (s : string) : list string := split_from EmptyString s.

Definition newline : ascii := ascii_of_N 10.

(** [s.rstrip('\n')] *)
Fixpoint rstrip_newline (s : string) : string :=
  match s with
  | EmptyString => EmptyString
  | String c rest =>
      match rstrip_newline rest with
      | EmptyString => if Ascii.eqb c newline then EmptyString
                       else String c EmptyString
      | r => String c r
      end
  end.

(** [s[0]] *)
Definition first_char (s : string) : result string :=
  match s with
  | EmptyString => Raise (IndexError "string index out of range")
  | String c _ => Ok (String c EmptyString)
  end.

(** [a < b] on [str]: lexicographic on code points, a proper prefix first. *)
Definition str_lt (a b : string) : bool := String.ltb a b.

(** *** Floating point: [float(s)] *)

Definition float : Type := spec_float.

Definition prec : Z := 53.
Definition emax : Z := 1024.

Definition digit_of (c : ascii) : option Z :=
  let n := N_of_ascii c in
  if ((48 <=? n) && (n <=? 57))%N then Some (Z.of_N n - 48) else None.

Definition starts_with_digit (s : string) : bool :=
  match s with
  | String c _ => match digit_of c with Some _ => true | None => false end
  | EmptyString => false
  end.

(** The rest of a [digitpart]: digits, each optionally preceded by one
    underscore.  Returns the digits read and the unread suffix. *)
Fixpoint digitpart_tail (s : string) : list Z * string :=
  match s with
  | EmptyString => ([], s)
  | String c rest =>
      match digit_of c with
      | Some d => let (ds, r) := digitpart_tail rest in (d :: ds, r)
      | None =>
          if Ascii.eqb c "_" && starts_with_digit rest
          then digitpart_tail rest
          else ([], s)
      end
  end.

(** [digitpart ::= digit (["_"] digit)*] *)
Definition digitpart (s : string) : option (list Z * string) :=
  if starts_with_digit s then Some (digitpart_tail s) else None.

Definition digits_value (ds : list Z) : Z :=
  fold_left (fun acc d => 10 * acc + d) ds 0.

(** [sign ::= "+" | "-"], optional; [true] is minus. *)
Definition sign (s : string) : bool * string :=
  match s with
  | String c rest =>
      if Ascii.eqb c "-" then (true, rest)
      else if Ascii.eqb c "+" then (false, rest)
      else (false, s)
  | EmptyString => (false, s)
  end.

(** [number ::= [digitpart] "." digitpart | digitpart ["."]]:
    the integer digits, the fraction digits and the unread suffix. *)
Definition number (s : string) : option (list Z * list Z * string) :=
  match digitpart s with
  | Some (ip, r) =>
      match r with
      | String c r2 =>
          if Ascii.eqb c "." then
            match digitpart r2 with
            | Some (fp, r3) => Some (ip, fp, r3)
            | None => Some (ip, [], r2)
            end
          else Some (ip, [], r)
      | EmptyString => Some (ip, [], r)
      end
  | None =>
      match s with
      | String c r2 =>
          if Ascii.eqb c "." then
            match digitpart r2 with
            | Some (fp, r3) => Some ([], fp, r3)
            | None => None
            end
          else None
      | EmptyString => None
      end
  end.

(** [exponent ::= ("e" | "E") [sign] digitpart], optional, up to the end
    of the text. *)
Definition exponent (s : string) : option Z :=
  match s with
  | EmptyString => Some 0
  | String c r1 =>
      if Ascii.eqb c "e" || Ascii.eqb c "E" then
        let (neg, r2) := sign r1 in
        match digitpart r2 with
        | Some (ds, EmptyString) =>
            Some (if neg then - digits_value ds else digits_value ds)
        | _ => None
        end
      else None
  end.

Definition lower (c : ascii) : ascii :=
  let n := N_of_ascii c in
  if ((65 <=? n) && (n <=? 90))%N then ascii_of_N (n + 32) else c.

Fixpoint lowercase (s : string) : string :=
  match s with
  | EmptyString => EmptyString
  | String c r => String (lower c) (lowercase r)
  end.

(** The binary64 value nearest to [(-1)^neg * m * 10^e] (ties to even). *)
Definition float_of_decimal (neg : bool) (m e : Z) : float :=
  match m with
  | Zpos p =>
      if 0 <=? e then binary_round prec emax neg (Z.to_pos (m * 10 ^ e)) 0
      else
        let '(mz, ez, lz) :=
          SFdiv_core_binary prec emax m 0 (10 ^ (- e)) 0 in
        binary_round_aux prec emax neg mz ez lz
  | _ => S754_zero neg
  end.

(** [float(s)] for a text without white space: an optional sign, then
    [inf], [infinity] or [nan] in any case, or a decimal number with an
    optional exponent. *)
Definition float_of_str (s : string) : result float :=
  let (neg, body) := sign s in
  let low := lowercase body in
  if String.eqb low "inf" || String.eqb low "infinity"
  then Ok (S754_infinity neg)
  else if String.eqb low "nan" then Ok S754_nan
  else
    match number body with
    | Some (ip, fp, r) =>
        match exponent r with
        | Some ex =>
            Ok (float_of_decimal neg (digits_value (ip ++ fp))
                  (ex - Z.of_nat (length fp)))
        | None =>
            Raise (ValueError ("could not convert string to float: " ++ s)%string)
        end
    | None => Raise (ValueError ("could not convert string to float: " ++ s)%string)
    end.

(** [int(x)], i.e. [float.__int__]: the integer part, rounding toward
    zero. *)
Definition int_of_float (x : float) : result Z :=
  match x with
  | S754_nan => Raise (ValueError "cannot convert float NaN to integer")
  | S754_infinity _ =>
      Raise (OverflowError "cannot convert float infinity to integer")
  | S754_zero _ => Ok 0
  | S754_finite s m e =>
      let a := if 0 <=? e then Zpos m * 2 ^ e else Zpos m / 2 ^ (- e) in
      Ok (if s then - a else a)
  end.

(** [n == x] for an integer [n] and a float [x]: equal as numbers. *)
Definition int_eq_float (n : Z) (x : float) : bool :=
  match x with
  | S754_zero _ => n =? 0
  | S754_finite s m e =>
      let v := if s then Zneg m else Zpos m in
      if 0 <=? e then n =? v * 2 ^ e else n * 2 ^ (- e) =? v
  | _ => false
  end.

(** ["%d" % n] for an integer [n]: its decimal digits, after a [-] for a
    negative number. *)
Definition format_d (n : Z) : string :=
  DecimalString.NilZero.string_of_int (Z.to_int n).

End Py.

(** *** Containers *)

Module Containers.
Import Py.

Section Sorted.
Variable A : Type.
Variable lt : A -> A -> bool.

(** [sorted(xs)] compares with [<] only and is stable.  [insert x l] puts
    [x] in front of the first element that is not smaller than [x]. *)
Fixpoint insert (x : A) (l : list A) : list A :=
  match l with
  | [] => [x]
  | y :: r => if lt y x then y :: insert x r else x :: l
  end.

Fixpoint sorted (l : list A) : list A :=
  match l with
  | [] => []
  | x :: r => insert x (sorted r)
  end.
End Sorted.

(** A [set], in the order its elements were first added.  Membership is
    decided by [__eq__] ([__hash__] is computed from the same fields that
    [__eq__] compares, so equal elements always meet); adding an element
    equal to a stored one keeps the stored one.  A Python set is iterated
    in an order of its own; the constructor only sorts its sets, and the
    sorted list is the same for every order ([sorted_order_independent]
    below). *)
Definition pyset (A : Type) : Type := list A.

Definition set_add {A} (eq : A -> A -> bool) (x : A) (s : pyset A) : pyset A :=
  if existsb (fun y => eq y x) s then s else s ++ [x].

(** A [dict], in insertion order. *)
Definition dict (K V : Type) : Type := list (K * V).

Section Dict.
Variables K V : Type.
Variable eq : K -> K -> bool.

Fixpoint dict_get (k : K) (d : dict K V) : option V :=
  match d with
  | [] => None
  | (k', v) :: r => if eq k' k then Some v else dict_get k r
  end.

(** [d[k] = v] *)
Fixpoint dict_setitem (k : K) (v : V) (d : dict K V) : dict K V :=
  match d with
  | [] => [(k, v)]
  | (k', v') :: r =>
      if eq k' k then (k', v) :: r else (k', v') :: dict_setitem k v r
  end.

(** [d[k]] on a [defaultdict]: a missing key is first inserted with the
    default value. *)
Definition defaultdict_getitem (dflt : V) (k : K) (d : dict K V)
  : V * dict K V :=
  match dict_get k d with
  | Some v => (v, d)
  | None => (dflt, d ++ [(k, dflt)])
  end.

Definition keys (d : dict K V) : list K := map fst d.
End Dict.

(** [d[k] += 1] on a [defaultdict(int)] *)
Definition defaultdict_incr {K} (eq : K -> K -> bool) (k : K) (d : dict K Z)
  : dict K Z :=
  let (v, d1) := defaultdict_getitem eq 0 k d in
  dict_setitem eq k (v + 1) d1.

(** [range(lo, hi)] *)
Definition range (lo hi : Z) : list Z :=
  map (fun k => lo + Z.of_nat k) (seq 0 (Z.to_nat (hi - lo))).

End Containers.

(** *** NumPy [int32] arrays *)

Module Np.
Import Py.

Definition int32_min : Z := - 2 ^ 31.
Definition int32_max : Z := 2 ^ 31 - 1.
Definition long_min : Z := - 2 ^ 63.
Definition long_max : Z := 2 ^ 63 - 1.

Definition in_int32 (z : Z) : bool := (int32_min <=? z) && (z <=? int32_max).

(** The C conversion of a [long] to [int]: the low 32 bits, two's
    complement. *)
Definition wrap32 (z : Z) : Z := (z + 2 ^ 31) mod 2 ^ 32 - 2 ^ 31.

(** [np.zeros(n, dtype=np.int32)] *)
Definition zeros (n : nat) : list Z := repeat 0 n.

(** The value stored by [a[i] = n] for a Python [int]: it must fit
    ([OverflowError] otherwise; releases of NumPy that wrap instead agree
    with this below [2 ^ 31]). *)
Definition int32_of_int (n : Z) : result Z :=
  if in_int32 n then Ok n
  else Raise (OverflowError "Python integer out of bounds for int32").

(** The value stored by [a[i] = x] for a Python [float]: [int(x)], which
    raises for a NaN and for an infinity, is taken as a C [long] (64 bits,
    as on Linux and macOS) and converted to [int]. *)
Definition int32_of_float (x : float) : result Z :=
  do n <- int_of_float x;
  if (long_min <=? n) && (n <=? long_max) then Ok (wrap32 n)
  else Raise (OverflowError "Python int too large to convert to C long").

Definition index (a : list Z) (i : Z) : result nat :=
  let n := Z.of_nat (length a) in
  let k := if i <? 0 then i + n else i in
  if (0 <=? k) && (k <? n) then Ok (Z.to_nat k)
  else Raise (IndexError "index out of bounds").

(** [a[i]] *)
Definition getitem (a : list Z) (i : Z) : result Z :=
  do k <- index a i; Ok (nth k a 0).

Fixpoint update (k : nat) (v : Z) (a : list Z) : list Z :=
  match a, k with
  | [], _ => []
  | _ :: r, O => v :: r
  | x :: r, S k' => x :: update k' v r
  end.

(** [a[i] = v], [v] already converted *)
Definition setitem (a : list Z) (i : Z) (v : Z) : result (list Z) :=
  do k <- index a i; Ok (update k v a).

End Np.

(** ** Edge records *)

Module Edge.
Import Py Containers.

Record t : Type := mk { nodeA : string; nodeB : string; weight : float }.

Definition join (l : list string) : string :=
  fold_right String.append EmptyString l.

(** The two first characters, sorted. *)
Definition get_edge_type_string (self : t) : result string :=
  do na <- first_char (nodeA self);
  do nb <- first_char (nodeB self);
  Ok (join (sorted str_lt [na; nb])).

(** [__eq__]: the weight is disregarded. *)
Definition __eq__ (self other : t) : bool :=
  String.eqb (nodeA self) (nodeA other)
  && String.eqb (nodeB self) (nodeB other).

Definition __ne__ (self other : t) : bool := negb (__eq__ self other).

(** [__lt__]: on the source, then on the destination. *)
Definition __lt__ (self other : t) : bool :=
  if String.eqb (nodeA self) (nodeA other)
  then str_lt (nodeB self) (nodeB other)
  else str_lt (nodeA self) (nodeA other).

End Edge.

(** ** The graph *)

Import Py Containers.

Record CSFGraph : Type := mkCSFGraph {
  edgetype2count_dictionary : dict string Z;
  nodetype2count_dictionary : dict string Z;
  node_to_index_map : dict string Z;      (* a defaultdict(int) *)
  index_to_node_map : dict Z string;      (* a defaultdict(str) *)
  edge_to : list Z;                       (* int32 array *)
  edge_weight : list Z;                   (* int32 array *)
  offset_to_edge_ : list Z                (* int32 array *)
}.

(** The argument of the constructor: any Python object. *)
Inductive pyobj : Type :=
| PyNone
| PyStr (s : string)
| PyBytes (b : string)
| PyPathLike (p : string)
| PyInt (n : Z).

(** The files that exist, with the lines each one yields when iterated. *)
Definition filesystem : Type := string -> option (list string).

(** *** Construction *)

Definition ingest_state : Type :=
  (pyset string * pyset Edge.t * dict string Z)%type.

(** The body of [for line in f]. *)
Definition read_line (st : ingest_state) (line : string)
  : result ingest_state :=
  let '(nodes, edges, edgetype2count) := st in
  match split (rstrip_newline line) with
  | [nodeA; nodeB; field2] =>
      match float_of_str field2 with
      | Raise _ => Ok st
      | Ok weight =>
          let nodes := set_add String.eqb nodeA nodes in
          let nodes := set_add String.eqb nodeB nodes in
          let edge := Edge.mk nodeA nodeB weight in
          let inverse_edge := Edge.mk nodeB nodeA weight in
          let edges := set_add Edge.__eq__ edge edges in
          let edges := set_add Edge.__eq__ inverse_edge edges in
          do ty <- Edge.get_edge_type_string edge;
          Ok (nodes, edges, defaultdict_incr String.eqb ty edgetype2count)
      end
  | _ => Ok st
  end.

Fixpoint read_lines (f : list string) (st : ingest_state)
  : result ingest_state :=
  match f with
  | [] => Ok st
  | line :: rest => do st' <- read_line st line; read_lines rest st'
  end.

(** [for i in range(len(node_list))]: both index maps. *)
Fixpoint index_nodes (node_list : list string) (i : Z)
    (maps : dict string Z * dict Z string) : dict string Z * dict Z string :=
  match node_list with
  | [] => maps
  | node :: rest =>
      let (n2i, i2n) := maps in
      index_nodes rest (i + 1)
        (dict_setitem String.eqb node i n2i, dict_setitem Z.eqb i node i2n)
  end.

(** First pass: how many edges leave each source. *)
Fixpoint count_edges (edge_list : list Edge.t)
    (st : dict string Z * dict Z Z) : dict string Z * dict Z Z :=
  match edge_list with
  | [] => st
  | edge :: rest =>
      let (n2i, index2edge_count) := st in
      let (source_index, n2i) :=
        defaultdict_getitem String.eqb 0 (Edge.nodeA edge) n2i in
      count_edges rest
        (n2i, defaultdict_incr Z.eqb source_index index2edge_count)
  end.

Record offsets_state : Type := mkOffsets {
  os_nodetype2count : dict string Z;
  os_n2i : dict string Z;
  os_index2edge_count : dict Z Z;
  os_offset_to_edge : list Z;
  os_i : Z;
  os_offset : Z
}.

(** Second pass: the running sum of the counts. *)
Fixpoint set_offsets (node_list : list string) (st : offsets_state)
  : result offsets_state :=
  match node_list with
  | [] => Ok st
  | n :: rest =>
      do nodetype <- first_char n;
      let nt := defaultdict_incr String.eqb nodetype (os_nodetype2count st) in
      let (source_index, n2i) :=
        defaultdict_getitem String.eqb 0 n (os_n2i st) in
      let (n_edges, i2ec) :=
        defaultdict_getitem Z.eqb 0 source_index (os_index2edge_count st) in
      let i := os_i st + 1 in
      let offset := os_offset st + n_edges in
      do v <- Np.int32_of_int offset;
      do offs <- Np.setitem (os_offset_to_edge st) i v;
      set_offsets rest (mkOffsets nt n2i i2ec offs i offset)
  end.

Record fill_state : Type := mkFill {
  fs_n2i : dict string Z;
  fs_edge_to : list Z;
  fs_edge_weight : list Z;
  fs_j : Z
}.

(** Third pass: the destination and the weight of the [j]-th sorted edge
    go to position [j].  (The locals [current_source_index] and [offset]
    of this loop are assigned and never read; they are left out.) *)
Fixpoint fill_edges (edge_list : list Edge.t) (st : fill_state)
  : result fill_state :=
  match edge_list with
  | [] => Ok st
  | edge :: rest =>
      let (source_index, n2i) :=
        defaultdict_getitem String.eqb 0 (Edge.nodeA edge) (fs_n2i st) in
      let (dest_index, n2i) :=
        defaultdict_getitem String.eqb 0 (Edge.nodeB edge) n2i in
      do d <- Np.int32_of_int dest_index;
      do e2 <- Np.setitem (fs_edge_to st) (fs_j st) d;
      do w <- Np.int32_of_float (Edge.weight edge);
      do ew <- Np.setitem (fs_edge_weight st) (fs_j st) w;
      fill_edges rest (mkFill n2i e2 ew (fs_j st + 1))
  end.

(** The constructor once the file is open: [f] is the list of its lines. *)
Definition build (f : list string) : result CSFGraph :=
  do (nodes, edges, edgetype2count) <- read_lines f ([], [], []);
  let node_list := sorted str_lt nodes in
  let edge_list := sorted Edge.__lt__ edges in
  let total_edge_count := length edge_list in
  let total_vertex_count := length node_list in
  let edge_to0 := Np.zeros total_edge_count in
  let edge_weight0 := Np.zeros total_edge_count in
  let offset0 := Np.zeros (total_vertex_count + 1) in
  let (n2i, i2n) := index_nodes node_list 0 ([], []) in
  let (n2i, index2edge_count) := count_edges edge_list (n2i, []) in
  do z <- Np.int32_of_int 0;
  do offset0 <- Np.setitem offset0 0 z;
  do os <- set_offsets node_list
             (mkOffsets [] n2i index2edge_count offset0 0 0);
  do fl <- fill_edges edge_list
             (mkFill (os_n2i os) edge_to0 edge_weight0 0);
  Ok (mkCSFGraph edgetype2count (os_nodetype2count os) (fs_n2i fl) i2n
        (fs_edge_to fl) (fs_edge_weight fl) (os_offset_to_edge os)).

Definition __init__ (fs : filesystem) (filepath : pyobj) : result CSFGraph :=
  match filepath with
  | PyNone => Raise (TypeError "Need to pass path of file with edges")
  | PyStr path =>
      match fs path with
      | None => Raise (TypeError ("Could not find graph file " ++ path)%string)
      | Some f => build f
      end
  | _ => Raise (TypeError "filepath argument must be string")
  end.

(** *** Queries

    A method reads the graph and may write it: a read of either index map
    with a missing key inserts that key.  A method is therefore a function
    from the graph to a result and the graph afterwards. *)

Definition M (A : Type) : Type := CSFGraph -> result A * CSFGraph.

Definition ret {A} (a : A) : M A := fun g => (Ok a, g).
Definition raise {A} (e : exn) : M A := fun g => (Raise e, g).
Definition lift {A} (r : CSFGraph -> result A) : M A := fun g => (r g, g).
Definition bind {A B} (m : M A) (k : A -> M B) : M B :=
  fun g => match m g with
           | (Ok a, g') => k a g'
           | (Raise e, g') => (Raise e, g')
           end.

Notation "x <- m ;; k" := (bind m (fun x => k))
  (at level 61, m at next level, right associativity).

(** [self.node_to_index_map[label]] *)
Definition node_to_index (label : string) : M Z :=
  fun g =>
    let (i, m) := defaultdict_getitem String.eqb 0 label (node_to_index_map g) in
    (Ok i,
     mkCSFGraph (edgetype2count_dictionary g) (nodetype2count_dictionary g)
       m (index_to_node_map g) (edge_to g) (edge_weight g)
       (offset_to_edge_ g)).

(** [self.index_to_node_map[i]] *)
Definition index_to_node (i : Z) : M string :=
  fun g =>
    let (s, m) :=
      defaultdict_getitem Z.eqb EmptyString i (index_to_node_map g) in
    (Ok s,
     mkCSFGraph (edgetype2count_dictionary g) (nodetype2count_dictionary g)
       (node_to_index_map g) m (edge_to g) (edge_weight g)
       (offset_to_edge_ g)).

Definition offset_at (i : Z) : M Z :=
  lift (fun g => Np.getitem (offset_to_edge_ g) i).
Definition edge_to_at (i : Z) : M Z :=
  lift (fun g => Np.getitem (edge_to g) i).
Definition edge_weight_at (i : Z) : M Z :=
  lift (fun g => Np.getitem (edge_weight g) i).

Definition nodes : M (list string) :=
  lift (fun g => Ok (keys (node_to_index_map g))).

Definition nodes_as_integers : M (list Z) :=
  lift (fun g => Ok (keys (index_to_node_map g))).

Definition node_count : M Z :=
  lift (fun g => Ok (Z.of_nat (length (node_to_index_map g)))).

Definition edge_count : M Z :=
  lift (fun g => Ok (Z.of_nat (length (edge_to g)))).

Fixpoint weight_loop (source dest : string) (dest_idx : Z) (r : list Z)
  : M Z :=
  match r with
  | [] =>
      raise (TypeError ("Could not identify edge between " ++ source
                          ++ " and " ++ dest)%string)
  | i :: rest =>
      t <- edge_to_at i ;;
      if dest_idx =? t then edge_weight_at i
      else weight_loop source dest dest_idx rest
  end.

Definition weight (source dest : string) : M Z :=
  source_idx <- node_to_index source ;;
  dest_idx <- node_to_index dest ;;
  lo <- offset_at source_idx ;;
  hi <- offset_at (source_idx + 1) ;;
  weight_loop source dest dest_idx (range lo hi).

Fixpoint neighbors_loop (r : list Z) (nbrs : list string) : M (list string) :=
  match r with
  | [] => ret nbrs
  | i :: rest =>
      t <- edge_to_at i ;;
      nbr <- index_to_node t ;;
      neighbors_loop rest (nbrs ++ [nbr])
  end.

Definition neighbors (source : string) : M (list string) :=
  source_idx <- node_to_index source ;;
  lo <- offset_at source_idx ;;
  hi <- offset_at (source_idx + 1) ;;
  neighbors_loop (range lo hi) [].

Fixpoint has_edge_loop (dest_idx : Z) (r : list Z) : M bool :=
  match r with
  | [] => ret false
  | i :: rest =>
      nbr_idx <- edge_to_at i ;;
      if nbr_idx =? dest_idx then ret true
      else has_edge_loop dest_idx rest
  end.

Definition has_edge (src dest : string) : M bool :=
  source_idx <- node_to_index src ;;
  dest_idx <- node_to_index dest ;;
  lo <- offset_at source_idx ;;
  hi <- offset_at (source_idx + 1) ;;
  has_edge_loop dest_idx (range lo hi).

Definition same_nodetype (n1 n2 : string) : M bool :=
  lift (fun _ =>
    do c1 <- first_char n1;
    do c2 <- first_char n2;
    Ok (String.eqb c1 c2)).

Fixpoint edges_inner (src : string) (r : list Z)
    (edge_list : list (string * string)) : M (list (string * string)) :=
  match r with
  | [] => ret edge_list
  | j :: rest =>
      nbr_idx <- edge_to_at j ;;
      nbr <- index_to_node nbr_idx ;;
      edges_inner src rest (edge_list ++ [(src, nbr)])
  end.

Fixpoint edges_outer (r : list Z) (edge_list : list (string * string))
  : M (list (string * string)) :=
  match r with
  | [] => ret edge_list
  | source_idx :: rest =>
      src <- index_to_node source_idx ;;
      lo <- offset_at source_idx ;;
      hi <- offset_at (source_idx + 1) ;;
      edge_list <- edges_inner src (range lo hi) edge_list ;;
      edges_outer rest edge_list
  end.

Definition edges : M (list (string * string)) :=
  n <- lift (fun g => Ok (Z.of_nat (length (offset_to_edge_ g)))) ;;
  edges_outer (range 0 (n - 1)) [].

Definition get_node_to_index_map : M (dict string Z) :=
  lift (fun g => Ok (node_to_index_map g)).

Definition get_index_to_node_map : M (dict Z string) :=
  lift (fun g => Ok (index_to_node_map g)).

(** [__str__] *)
Definition __str__ : M string :=
  n <- node_count ;;
  m <- edge_count ;;
  ret ("CSFGraph(nodes: " ++ format_d n ++ "; edges: " ++ format_d m
       ++ ")")%string.

(** ["node type %s - count: %d" % (n, count)] and
    ["%s - count: %d" % (category, count)] *)
Definition node_type_line (item : string * Z) : string :=
  let (n, count) := item in
  ("node type " ++ n ++ " - count: " ++ format_d count)%string.

Definition edge_type_line (item : string * Z) : string :=
  let (category, count) := item in
  (category ++ " - count: " ++ format_d count)%string.

(** [print_edge_type_distribution]: the result is the list of the lines
    it prints, in the order in which they are printed. *)
Definition print_edge_type_distribution : M (list string) :=
  out <- lift (fun g => Ok (map node_type_line (nodetype2count_dictionary g))) ;;
  n <- lift (fun g => Ok (Z.of_nat (length (edgetype2count_dictionary g)))) ;;
  if n <? 2
  then m <- edge_count ;;
       ret (out ++ [("edge count: " ++ format_d m)%string])
  else lines <- lift (fun g =>
                        Ok (map edge_type_line (edgetype2count_dictionary g))) ;;
       ret (out ++ lines).

(** ** Auxiliary notions used in the statements *)

(** Strictly increasing for [lt]. *)
Definition increasing {A} (lt : A -> A -> bool) (l : list A) : Prop :=
  StronglySorted (fun x y => lt x y = true) l.

(** Any two elements at different positions are comparable for [lt]. *)
Definition distinct {A} (lt : A -> A -> bool) (l : list A) : Prop :=
  ForallOrdPairs (fun x y => lt x y = true \/ lt y x = true) l.

(** No two elements at different positions are equal for [eq]. *)
Definition unique {A} (eq : A -> A -> bool) (l : list A) : Prop :=
  ForallOrdPairs (fun x y => eq x y = false) l.

(** [for x in xs: s.add(x)] *)
Definition add_all {A} (eq : A -> A -> bool) (xs : list A) (s : pyset A)
  : pyset A :=
  fold_left (fun s x => set_add eq x s) xs s.

(** The value read from a [defaultdict(int)]. *)
Definition lookup0 {K} (eq : K -> K -> bool) (k : K) (d : dict K Z) : Z :=
  match dict_get eq k d with Some v => v | None => 0 end.

(** *** What a file contributes *)

Definition triple : Type := (string * string * float)%type.

(** A line is well formed when it has exactly three fields and the third
    one is accepted by [float]. *)
Definition parse_line (line : string) : option triple :=
  match split (rstrip_newline line) with
  | [a; b; c] =>
      match float_of_str c with
      | Ok w => Some (a, b, w)
      | Raise _ => None
      end
  | _ => None
  end.

Definition well_formed (line : string) : bool :=
  match parse_line line with Some _ => true | None => false end.

(** The triples of the well-formed lines, in file order. *)
Definition accepted (f : list string) : list triple :=
  flat_map (fun line =>
              match parse_line line with Some t => [t] | None => [] end) f.

Definition endpoints (acc : list triple) : list string :=
  flat_map (fun t : triple => let '(a, b, _) := t in [a; b]) acc.

Definition records (acc : list triple) : list Edge.t :=
  flat_map (fun t : triple =>
              let '(a, b, w) := t in [Edge.mk a b w; Edge.mk b a w]) acc.

Definition node_set (f : list string) : pyset string :=
  add_all String.eqb (endpoints (accepted f)) [].

Definition edge_set (f : list string) : pyset Edge.t :=
  add_all Edge.__eq__ (records (accepted f)) [].

Definition node_list (f : list string) : list string :=
  sorted str_lt (node_set f).

Definition edge_list (f : list string) : list Edge.t :=
  sorted Edge.__lt__ (edge_set f).

(** *** The layout computed by the constructor *)

(** [node_to_index_map] and [index_to_node_map] for the sorted labels [nl]. *)
Definition index_map (nl : list string) : dict string Z :=
  combine nl (range 0 (Z.of_nat (length nl))).

Definition reverse_map (nl : list string) : dict Z string :=
  combine (range 0 (Z.of_nat (length nl))) nl.

(** The index read for a label (0 for a label that is not a key). *)
Definition idx (nl : list string) (a : string) : Z :=
  lookup0 String.eqb a (index_map nl).

(** How many of the edges [el] leave a node of index below [k], or of
    index [k]. *)
Definition below (nl : list string) (el : list Edge.t) (k : Z) : Z :=
  Z.of_nat (length (filter (fun e => idx nl (Edge.nodeA e) <? k) el)).

Definition degree (nl : list string) (el : list Edge.t) (k : Z) : Z :=
  Z.of_nat (length (filter (fun e => idx nl (Edge.nodeA e) =? k) el)).

Definition offsets (nl : list string) (el : list Edge.t) : list Z :=
  map (below nl el) (range 0 (Z.of_nat (length nl) + 1)).

(** The integer kept for the weight of a record, when the store accepts
    it. *)
Definition storable (e : Edge.t) : bool :=
  is_ok (Np.int32_of_float (Edge.weight e)).

Definition stored_weight (e : Edge.t) : Z :=
  match Np.int32_of_float (Edge.weight e) with Ok w => w | Raise _ => 0 end.

(** The graph laid out for the file [f]. *)
Definition layout (f : list string) (g : CSFGraph) : Prop :=
  node_to_index_map g = index_map (node_list f)
  /\ index_to_node_map g = reverse_map (node_list f)
  /\ edge_to g
     = map (fun e => idx (node_list f) (Edge.nodeB e)) (edge_list f)
  /\ edge_weight g = map stored_weight (edge_list f)
  /\ offset_to_edge_ g = offsets (node_list f) (edge_list f).

(** Sorted on [key], possibly with repetitions. *)
Definition nondecreasing {A} (key : A -> Z) (l : list A) : Prop :=
  StronglySorted (fun x y => key x <= key y) l.

(** *** What the queries find *)

Definition same_key (a b : string) (e : Edge.t) : bool :=
  String.eqb (Edge.nodeA e) a && String.eqb (Edge.nodeB e) b.

(** The record kept for the directed pair [(a, b)]. *)
Definition stored_record (f : list string) (a b : string) : option Edge.t :=
  find (same_key a b) (edge_list f).

(** The first accepted line that joins [a] and [b], in either direction. *)
Definition joins (a b : string) (t : triple) : bool :=
  let '(x, y, _) := t in
  (String.eqb x a && String.eqb y b) || (String.eqb y a && String.eqb x b).

Definition first_line (acc : list triple) (a b : string) : option triple :=
  find (joins a b) acc.

Definition triple_weight (t : triple) : float := snd t.

(** The directed pair of a record. *)
Definition pair_of (e : Edge.t) : string * string :=
  (Edge.nodeA e, Edge.nodeB e).

(** The adjacency block of the node of index [s]: the entries of [edge_to]
    from [offset_to_edge_[s]] up to [offset_to_edge_[s + 1]]. *)
Definition adjacency_block (g : CSFGraph) (s : Z) : list Z :=
  let lo := nth (Z.to_nat s) (offset_to_edge_ g) 0 in
  let hi := nth (Z.to_nat (s + 1)) (offset_to_edge_ g) 0 in
  firstn (Z.to_nat (hi - lo)) (skipn (Z.to_nat lo) (edge_to g)).

(** *** Undirected pairs *)

Definition pair_eq_dec (x y : string * string) : {x = y} + {x <> y}.
Proof. decide equality; apply string_dec. Defined.

(** An unordered pair is written with its smaller label first. *)
Definition normal_pair (t : triple) : string * string :=
  let '(a, b, _) := t in if str_lt b a then (b, a) else (a, b).

(** The distinct unordered pairs of the accepted lines. *)
Definition unordered_pairs (acc : list triple) : list (string * string) :=
  nodup pair_eq_dec (map normal_pair acc).

Definition is_loop (p : string * string) : bool := String.eqb (fst p) (snd p).

(** The directed pairs an unordered pair stands for. *)
Definition directions (p : string * string) : list (string * string) :=
  if is_loop p then [p] else [p; (snd p, fst p)].

(** *** Statements about a file, as the specification has them *)

(** "For the accepted line [(a, b, w)], [has_edge] holds in both directions
    and [weight] returns [w] in both directions." *)
Definition weight_is_parsed (f : list string) (a b : string) (w : float)
  : Prop :=
  forall g, build f = Ok g ->
    fst (has_edge a b g) = Ok true
    /\ fst (has_edge b a g) = Ok true
    /\ (exists v, fst (weight a b g) = Ok v /\ int_eq_float v w = true)
    /\ (exists v, fst (weight b a g) = Ok v /\ int_eq_float v w = true).

(** "[edge_count()] is twice the number of distinct unordered pairs." *)
Definition edge_count_is_twice (f : list string) : Prop :=
  forall g, build f = Ok g ->
    fst (edge_count g)
    = Ok (2 * Z.of_nat (length (unordered_pairs (accepted f)))).

(** *** Example files *)

Definition file_fraction_then_five : list string :=
  ["a b 1.5"%string; "a b 5.0"%string].

Definition file_one_edge : list string := ["a b 1"%string].

Definition file_self_loop : list string := ["a a 1.0"%string].

Definition file_nan : list string := ["a b nan"%string].

Definition file_scenario : list string :=
  ["g1 p1 1.0"%string; "g1 g2 2.0"%string; "g2 p1 bad"%string;
   "onlytwo fields"%string].

Definition disk_nan : filesystem :=
  fun path => if String.eqb path "graph.txt" then Some file_nan else None.

Definition disk_scenario : filesystem :=
  fun path => if String.eqb path "graph.txt" then Some file_scenario else None.

(** *** Further notions *)

(** Some accepted line of the file joins [a] and [b], in either
    direction. *)
Definition joined (f : list string) (a b : string) : bool :=
  existsb (joins a b) (accepted f).

(** The labels a graph knows: the keys of [node_to_index_map]. *)
Definition known (g : CSFGraph) (a : string) : Prop :=
  In a (keys (node_to_index_map g)).

(** The order of [edges()]: on the source, then on the destination. *)
Definition pair_lt (p q : string * string) : bool :=
  if String.eqb (fst p) (fst q) then str_lt (snd p) (snd q)
  else str_lt (fst p) (fst q).

(** *** Sequences of calls *)

(** A call of a query method. *)
Inductive query : Type :=
| QNodes
| QNodesAsIntegers
| QNodeCount
| QEdgeCount
| QWeight (source dest : string)
| QNeighbors (source : string)
| QHasEdge (src dest : string)
| QSameNodetype (n1 n2 : string)
| QEdges
| QGetNodeToIndexMap
| QGetIndexToNodeMap.

(** The labels a call looks up in [node_to_index_map]. *)
Definition looked_up (q : query) : list string :=
  match q with
  | QWeight a b => [a; b]
  | QHasEdge a b => [a; b]
  | QNeighbors a => [a]
  | _ => []
  end.

(** The graph after a call, whether it returned or raised. *)
Definition after (q : query) (g : CSFGraph) : CSFGraph :=
  match q with
  | QNodes => snd (nodes g)
  | QNodesAsIntegers => snd (nodes_as_integers g)
  | QNodeCount => snd (node_count g)
  | QEdgeCount => snd (edge_count g)
  | QWeight a b => snd (weight a b g)
  | QNeighbors a => snd (neighbors a g)
  | QHasEdge a b => snd (has_edge a b g)
  | QSameNodetype a b => snd (same_nodetype a b g)
  | QEdges => snd (edges g)
  | QGetNodeToIndexMap => snd (get_node_to_index_map g)
  | QGetIndexToNodeMap => snd (get_index_to_node_map g)
  end.

Definition after_all (qs : list query) (g : CSFGraph) : CSFGraph :=
  fold_left (fun g q => after q g) qs g.

(** *** Labels that are not in the graph *)

(** The graph once [label] has been inserted in [node_to_index_map] with
    the default index 0. *)
Definition add_label (label : string) (g : CSFGraph) : CSFGraph :=
  mkCSFGraph (edgetype2count_dictionary g) (nodetype2count_dictionary g)
    (node_to_index_map g ++ [(label, 0)]) (index_to_node_map g)
    (edge_to g) (edge_weight g) (offset_to_edge_ g).

(** What [has_edge], [weight] and [neighbors] do once the indices of their
    arguments have been read. *)
Definition has_edge_from (source_idx dest_idx : Z) : M bool :=
  lo <- offset_at source_idx ;;
  hi <- offset_at (source_idx + 1) ;;
  has_edge_loop dest_idx (range lo hi).

Definition weight_from (source dest : string) (source_idx dest_idx : Z)
  : M Z :=
  lo <- offset_at source_idx ;;
  hi <- offset_at (source_idx + 1) ;;
  weight_loop source dest dest_idx (range lo hi).

Definition neighbors_from (source_idx : Z) : M (list string) :=
  lo <- offset_at source_idx ;;
  hi <- offset_at (source_idx + 1) ;;
  neighbors_loop (range lo hi) [].

(** A computation that neither reads nor writes [node_to_index_map]. *)
Definition ignores_labels {A} (m : M A) : Prop :=
  forall z g, m (add_label z g) = (fst (m g), add_label z (snd (m g))).

(** The graph of a file without accepted lines. *)
Definition empty_graph : CSFGraph := mkCSFGraph [] [] [] [] [] [] [0].

Definition file_of_malformed_lines : list string :=
  ["onlytwo fields"%string; ""%string; "a b c d"%string; "a b x1"%string].

(** The exceptions a store in an [int32] array raises. *)
Definition store_error (e : exn) : Prop :=
  (exists m, e = ValueError m) \/ (exists m, e = OverflowError m).

Definition file_late_nan : list string :=
  ["a b 1"%string; "b a nan"%string].

(** *** Types of nodes and of edges *)

(** The type of a node: its first character. *)
Definition node_type (n : string) : string :=
  match first_char n with Ok c => c | Raise _ => EmptyString end.

(** The type string of the edge of an accepted line. *)
Definition edge_type_of (t : triple) : string :=
  let '(a, b, w) := t in
  match Edge.get_edge_type_string (Edge.mk a b w) with
  | Ok ty => ty
  | Raise _ => EmptyString
  end.

Definition file_repeated_pair : list string :=
  ["g1 p1 1"%string; "p1 g1 2"%string; "g1 g2 3"%string].

(** The pairs of [file_repeated_pair] in another order, in the other
    direction and with other weights. *)
Definition file_reordered : list string :=
  ["g2 g1 7"%string; "p1 g1 1"%string].

(** *** The two dictionaries of types *)

(** [for k in ks: d[k] += 1] *)
Definition count_all (ks : list string) (d : dict string Z) : dict string Z :=
  fold_left (fun d k => defaultdict_incr String.eqb k d) ks d.

(** The types of the nodes and of the accepted lines, each once, in the
    order in which they first occur in the sorted list of nodes and in
    the file. *)
Definition node_types (f : list string) : list string :=
  add_all String.eqb (map node_type (node_list f)) [].

Definition edge_types (f : list string) : list string :=
  add_all String.eqb (map edge_type_of (accepted f)) [].

Definition nodes_of_type (f : list string) (c : string) : Z :=
  Z.of_nat (length (filter (fun n => String.eqb (node_type n) c)
                      (node_list f))).

Definition lines_of_type (f : list string) (ty : string) : Z :=
  Z.of_nat (length (filter (fun t => String.eqb (edge_type_of t) ty)
                      (accepted f))).

Definition total (d : dict string Z) : Z := fold_right Z.add 0 (map snd d).

(** Nowhere decreasing for [lt]. *)
Definition ascending {A} (lt : A -> A -> bool) (l : list A) : Prop :=
  StronglySorted (fun x y => lt y x = false) l.

(** The lines [print_edge_type_distribution] is to print for a file. *)
Definition distribution_lines (f : list string) : list string :=
  map (fun c => node_type_line (c, nodes_of_type f c)) (node_types f)
  ++ (if Z.of_nat (length (edge_types f)) <? 2
      then [("edge count: "
             ++ format_d (Z.of_nat (length (edge_set f))))%string]
      else map (fun ty => edge_type_line (ty, lines_of_type f ty))
             (edge_types f)).

Definition file_one_type : list string :=
  ["g1 g2 1"%string; "g2 g3 1"%string].

(** *** The number a float stands for *)

(** The rational number a finite float stands for: [m * 2 ^ e], negated
    when the sign bit is set. *)
Definition float_value (x : float) : option Q :=
  match x with
  | S754_zero _ => Some (inject_Z 0)
  | S754_finite s m e =>
      let z := if s then Zneg m else Zpos m in
      Some (if 0 <=? e then inject_Z (z * 2 ^ e)
            else Qmake z (2 ^ Z.to_pos (- e)))
  | _ => None
  end.

(** [n] is [q] truncated to an integer: the integer next to [q] on the
    side of zero. *)
Definition truncated (q : Q) (n : Z) : Prop :=
  ((0 <= q)%Q -> (inject_Z n <= q)%Q /\ (q < inject_Z (n + 1))%Q)
  /\ ((q <= 0)%Q -> (inject_Z (n - 1) < q)%Q /\ (q <= inject_Z n)%Q).

(** "For a stored edge whose line carried the weight [w],
    [weight(source, dest)] is [w] truncated to an integer." *)
Definition weight_is_truncated (f : list string) (e : Edge.t) : Prop :=
  In e (edge_list f) ->
  forall g, build f = Ok g ->
    exists q v,
      float_value (Edge.weight e) = Some q
      /\ fst (weight (Edge.nodeA e) (Edge.nodeB e) g) = Ok v
      /\ truncated q v.

Definition file_three_billion : list string := ["a b 3e9"%string].

Definition file_fractions : list string :=
  ["a b 2.75"%string; "c d -2.75"%string].

(** * Properties *)

Unset Implicit Arguments.

(** ** Results *)

Lemma rbind_ok {A B} (r : result A) (k : A -> result B) b :
  rbind r k = Ok b -> exists a, r = Ok a /\ k a = Ok b.
Proof. destruct r as [a|e]; simpl; intros H; [eauto | discriminate]. Qed.

(** ** The order on labels *)

Lemma ascii_compare_refl c : Ascii.compare c c = Eq.
Proof. apply N.compare_refl. Qed.

Lemma string_compare_refl s : String.compare s s = Eq.
Proof.
  induction s as [|c s IH]; simpl; [reflexivity|].
  now rewrite ascii_compare_refl.
Qed.

Lemma string_compare_lt_trans a : forall b c,
  String.compare a b = Lt -> String.compare b c = Lt -> String.compare a c = Lt.
Proof.
  induction a as [|x a IH]; intros [|y b] [|z c]; simpl; try discriminate; auto.
  unfold Ascii.compare.
  destruct (N.compare_spec (N_of_ascii x) (N_of_ascii y)) as [Hxy|Hxy|Hxy];
    try discriminate;
  destruct (N.compare_spec (N_of_ascii y) (N_of_ascii z)) as [Hyz|Hyz|Hyz];
    try discriminate; intros H1 H2.
  - rewrite Hxy, Hyz, N.compare_refl. eauto.
  - rewrite Hxy. now apply N.compare_lt_iff in Hyz as ->.
  - rewrite <- Hyz. now apply N.compare_lt_iff in Hxy as ->.
  - assert (Hxz : (N_of_ascii x < N_of_ascii z)%N) by lia.
    now apply N.compare_lt_iff in Hxz as ->.
Qed.

Lemma str_lt_irrefl a : str_lt a a = false.
Proof. unfold str_lt, String.ltb. now rewrite string_compare_refl. Qed.

Lemma str_lt_trans a b c :
  str_lt a b = true -> str_lt b c = true -> str_lt a c = true.
Proof.
  unfold str_lt, String.ltb.
  destruct (String.compare a b) eqn:Hab; try discriminate.
  destruct (String.compare b c) eqn:Hbc; try discriminate.
  now rewrite (string_compare_lt_trans _ _ _ Hab Hbc).
Qed.

Lemma str_lt_connex a b : str_lt a b = false -> str_lt b a = false -> a = b.
Proof.
  unfold str_lt, String.ltb. rewrite (String.compare_antisym a b).
  destruct (String.compare b a) eqn:Hba; simpl; try discriminate.
  intros _ _. symmetry. now apply String.compare_eq_iff.
Qed.

Lemma str_lt_asym a b : str_lt a b = true -> str_lt b a = false.
Proof.
  intros H. destruct (str_lt b a) eqn:Hba; [|reflexivity].
  pose proof (str_lt_trans _ _ _ H Hba) as Haa.
  now rewrite str_lt_irrefl in Haa.
Qed.

(** ** [sorted] *)

Section SortedFacts.
Variable A : Type.
Variable lt : A -> A -> bool.

Lemma insert_perm x l : Permutation (insert lt x l) (x :: l).
Proof.
  induction l as [|y r IH]; simpl; [reflexivity|].
  destruct (lt y x); [|reflexivity].
  rewrite IH. apply perm_swap.
Qed.

Lemma sorted_perm l : Permutation (sorted lt l) l.
Proof.
  induction l as [|x r IH]; simpl; [reflexivity|].
  rewrite insert_perm. now constructor.
Qed.

Lemma sorted_In x l : In x (sorted lt l) <-> In x l.
Proof.
  split; apply Permutation_in; [|symmetry]; apply sorted_perm.
Qed.

Lemma sorted_length l : length (sorted lt l) = length l.
Proof. apply Permutation_length, sorted_perm. Qed.

(** A strict total order on the elements that occur. *)
Hypothesis lt_irrefl : forall x, lt x x = false.
Hypothesis lt_trans :
  forall x y z, lt x y = true -> lt y z = true -> lt x z = true.

Lemma insert_increasing x l :
  increasing lt l ->
  Forall (fun y => lt x y = true \/ lt y x = true) l ->
  increasing lt (insert lt x l).
Proof.
  induction 1 as [|y r Hr IH Hy]; intros Hx; simpl.
  - repeat constructor.
  - inversion Hx as [|? ? Hxy Hxr]; subst.
    destruct (lt y x) eqn:Hyx.
    + constructor; [now apply IH|].
      eapply Permutation_Forall; [symmetry; apply insert_perm|].
      now constructor.
    + destruct Hxy as [Hxy|Hxy]; [|congruence].
      constructor; [now constructor|].
      constructor; [assumption|].
      eapply Forall_impl; [|exact Hy]. intros z Hz. eauto.
Qed.

Lemma sorted_increasing l : distinct lt l -> increasing lt (sorted lt l).
Proof.
  induction 1 as [|x r Hx Hr IH]; simpl; [constructor|].
  apply insert_increasing; [assumption|].
  eapply Permutation_Forall; [symmetry; apply sorted_perm|assumption].
Qed.

Lemma increasing_head_min x l y :
  increasing lt (x :: l) -> In y (x :: l) -> lt y x = false.
Proof.
  intros H [->|Hy]; [apply lt_irrefl|].
  inversion H as [|? ? _ Hall]; subst.
  rewrite Forall_forall in Hall. specialize (Hall _ Hy).
  destruct (lt y x) eqn:Hyx; [|reflexivity].
  pose proof (lt_trans _ _ _ Hall Hyx) as Hxx.
  now rewrite lt_irrefl in Hxx.
Qed.

(** An increasing list is determined by its elements: the result of
    [sorted] does not depend on the order in which a set is iterated. *)
Lemma increasing_unique l1 : forall l2,
  increasing lt l1 -> increasing lt l2 ->
  (forall x, In x l1 <-> In x l2) -> l1 = l2.
Proof.
  induction l1 as [|x r1 IH]; intros [|y r2] H1 H2 Hin.
  - reflexivity.
  - destruct (proj2 (Hin y)). now left.
  - destruct (proj1 (Hin x)). now left.
  - assert (Hxy : x = y).
    { pose proof (increasing_head_min _ _ _ H2 (proj1 (Hin x) (or_introl eq_refl)))
        as Ha.
      pose proof (increasing_head_min _ _ _ H1 (proj2 (Hin y) (or_introl eq_refl)))
        as Hb.
      destruct (proj1 (Hin x) (or_introl eq_refl)) as [Heq|Hxr2];
        [now symmetry|].
      inversion H2 as [|? ? _ Hall]; subst.
      rewrite Forall_forall in Hall. specialize (Hall _ Hxr2). congruence. }
    subst y. f_equal.
    inversion H1 as [|? ? H1r H1x]; subst.
    inversion H2 as [|? ? H2r H2x]; subst.
    apply IH; try assumption.
    rewrite Forall_forall in H1x, H2x.
    intros z; split; intros Hz.
    + destruct (proj1 (Hin z) (or_intror Hz)) as [->|]; [|assumption].
      specialize (H1x _ Hz). now rewrite lt_irrefl in H1x.
    + destruct (proj2 (Hin z) (or_intror Hz)) as [->|]; [|assumption].
      specialize (H2x _ Hz). now rewrite lt_irrefl in H2x.
Qed.

Lemma distinct_perm l l' : Permutation l l' -> distinct lt l -> distinct lt l'.
Proof.
  induction 1 as [|x l l' Hp IH|x y l|l l' l'' Hp1 IH1 Hp2 IH2]; intros Hd.
  - constructor.
  - inversion Hd as [|? ? Hx Hl]; subst. constructor; [|now apply IH].
    eapply Permutation_Forall; [exact Hp|exact Hx].
  - inversion Hd as [|? ? Hy Hd']; subst.
    inversion Hd' as [|? ? Hx Hl]; subst.
    inversion Hy as [|? ? Hyx Hyl]; subst.
    constructor; [constructor; [tauto|assumption]|].
    constructor; assumption.
  - auto.
Qed.

Theorem sorted_order_independent l l' :
  distinct lt l -> Permutation l l' -> sorted lt l = sorted lt l'.
Proof.
  intros Hd Hp. apply increasing_unique.
  - now apply sorted_increasing.
  - apply sorted_increasing. eapply distinct_perm; eassumption.
  - intros x. rewrite !sorted_In. split; apply Permutation_in;
      [assumption|now symmetry].
Qed.
End SortedFacts.

(** ** Sets *)

Lemma ForallOrdPairs_snoc {A} (R : A -> A -> Prop) l x :
  ForallOrdPairs R l -> Forall (fun y => R y x) l ->
  ForallOrdPairs R (l ++ [x]).
Proof.
  induction 1 as [|y r Hy Hr IH]; intros Hx; simpl.
  - repeat constructor.
  - inversion Hx; subst. constructor; [|auto].
    apply Forall_app; split; [assumption|]. now repeat constructor.
Qed.

Lemma find_app {A} (p : A -> bool) l1 l2 :
  find p (l1 ++ l2)
  = match find p l1 with Some x => Some x | None => find p l2 end.
Proof.
  induction l1 as [|x r IH]; simpl; [reflexivity|]. now destruct (p x).
Qed.

Lemma find_ext {A} (p q : A -> bool) l :
  (forall x, p x = q x) -> find p l = find q l.
Proof.
  intros H. induction l as [|x r IH]; simpl; [reflexivity|].
  now rewrite H, IH.
Qed.

Section SetFacts.
Variable A : Type.
Variable eq : A -> A -> bool.

Lemma set_add_incl x s y : In y s -> In y (set_add eq x s).
Proof.
  unfold set_add. destruct (existsb _ s); [auto|].
  intros H. apply in_or_app. now left.
Qed.

Lemma set_add_inv x s y : In y (set_add eq x s) -> In y s \/ y = x.
Proof.
  unfold set_add. destruct (existsb _ s); [auto|].
  intros H. apply in_app_or in H as [H|[H|[]]]; auto.
Qed.

Lemma set_add_has x s : exists y, In y (set_add eq x s) /\ (eq y x = true \/ y = x).
Proof.
  unfold set_add. destruct (existsb _ s) eqn:E.
  - apply existsb_exists in E as (y & Hy & Hyx). eauto.
  - exists x. split; [|now right]. apply in_or_app. right. now left.
Qed.

Lemma set_add_unique x s : unique eq s -> unique eq (set_add eq x s).
Proof.
  unfold set_add. destruct (existsb _ s) eqn:E; [auto|].
  intros H. apply ForallOrdPairs_snoc; [assumption|].
  apply Forall_forall. intros y Hy.
  destruct (eq y x) eqn:Hyx; [|reflexivity].
  assert (existsb (fun y => eq y x) s = true); [|congruence].
  apply existsb_exists. eauto.
Qed.

Lemma add_all_incl xs : forall s y, In y s -> In y (add_all eq xs s).
Proof.
  induction xs as [|x xs IH]; intros s y Hy; simpl; [assumption|].
  apply IH. now apply set_add_incl.
Qed.

Lemma add_all_inv xs : forall s y,
  In y (add_all eq xs s) -> In y s \/ In y xs.
Proof.
  induction xs as [|x xs IH]; intros s y Hy; simpl in *; [auto|].
  apply IH in Hy as [Hy|Hy]; [|auto].
  apply set_add_inv in Hy as [Hy| ->]; auto.
Qed.

Lemma add_all_unique xs : forall s,
  unique eq s -> unique eq (add_all eq xs s).
Proof.
  induction xs as [|x xs IH]; intros s Hs; simpl; [assumption|].
  apply IH. now apply set_add_unique.
Qed.

Lemma add_all_app xs ys s :
  add_all eq (xs ++ ys) s = add_all eq ys (add_all eq xs s).
Proof. unfold add_all. apply fold_left_app. Qed.

(** [eq] is an equivalence. *)
Hypothesis eq_refl : forall x, eq x x = true.
Hypothesis eq_sym : forall x y, eq x y = eq y x.
Hypothesis eq_trans :
  forall x y z, eq x y = true -> eq y z = true -> eq x z = true.

(** The element of the set that is equal to [x] is the first one that
    was added. *)
Lemma set_add_find x s z :
  find (fun y => eq y z) (set_add eq x s) = find (fun y => eq y z) (s ++ [x]).
Proof.
  unfold set_add. destruct (existsb _ s) eqn:E; [|reflexivity].
  apply existsb_exists in E as (y & Hy & Hyx).
  rewrite find_app.
  destruct (find (fun y => eq y z) s) eqn:F; [reflexivity|].
  simpl. destruct (eq x z) eqn:Hxz; [|reflexivity].
  pose proof (find_none _ _ F _ Hy) as Hyz. simpl in Hyz.
  rewrite (eq_trans _ _ _ Hyx Hxz) in Hyz. discriminate.
Qed.

Lemma find_app_congr (p : A -> bool) l1 l2 l :
  find p l1 = find p l2 -> find p (l1 ++ l) = find p (l2 ++ l).
Proof. intros H. rewrite !find_app. now rewrite H. Qed.

Lemma add_all_find xs : forall s z,
  find (fun y => eq y z) (add_all eq xs s)
  = find (fun y => eq y z) (s ++ xs).
Proof.
  induction xs as [|x xs IH]; intros s z; simpl.
  - now rewrite app_nil_r.
  - rewrite IH.
    change (x :: xs) with ([x] ++ xs). rewrite app_assoc.
    apply find_app_congr, set_add_find.
Qed.

Lemma unique_find s x :
  unique eq s -> In x s -> find (fun y => eq y x) s = Some x.
Proof.
  induction 1 as [|y r Hy Hr IH]; intros Hx; [destruct Hx|].
  simpl. destruct Hx as [->|Hx].
  - now rewrite eq_refl.
  - rewrite Forall_forall in Hy. rewrite (Hy _ Hx). auto.
Qed.

Lemma add_all_first xs x :
  In x (add_all eq xs []) -> find (fun y => eq y x) xs = Some x.
Proof.
  intros Hx. pose proof (add_all_find xs [] x) as H. simpl in H.
  rewrite <- H.
  apply unique_find; [|assumption].
  apply add_all_unique. constructor.
Qed.

Lemma add_all_has xs : forall s x,
  In x xs -> exists y, In y (add_all eq xs s) /\ eq y x = true.
Proof.
  induction xs as [|x0 xs IH]; intros s x Hx; [destruct Hx|].
  simpl. destruct Hx as [->|Hx]; [|now apply IH].
  destruct (set_add_has x s) as (y & Hy & Hyx).
  exists y. split; [now apply add_all_incl|].
  destruct Hyx as [Hyx|Hyx]; [assumption|]. subst y. apply eq_refl.
Qed.
End SetFacts.

Lemma unique_string_NoDup l : unique String.eqb l <-> NoDup l.
Proof.
  split.
  - induction 1 as [|x r Hx Hr IH]; constructor; [|assumption].
    intros Hin. rewrite Forall_forall in Hx. specialize (Hx _ Hin).
    now rewrite String.eqb_refl in Hx.
  - induction 1 as [|x r Hx Hr IH]; constructor; [|assumption].
    apply Forall_forall. intros y Hy. apply String.eqb_neq. congruence.
Qed.

(** ** Dictionaries *)

Section DictFacts.
Variables K V : Type.
Variable eq : K -> K -> bool.
Hypothesis eq_spec : forall x y, eq x y = true <-> x = y.

Lemma eq_same x : eq x x = true.
Proof. now apply eq_spec. Qed.

Lemma dict_get_In k (d : dict K V) v :
  dict_get eq k d = Some v -> In (k, v) d.
Proof.
  induction d as [|[k' v'] r IH]; simpl; [discriminate|].
  destruct (eq k' k) eqn:E.
  - apply eq_spec in E as ->. intros [= ->]. now left.
  - auto.
Qed.

Lemma dict_get_None k (d : dict K V) :
  dict_get eq k d = None <-> ~ In k (keys d).
Proof.
  induction d as [|[k' v'] r IH]; simpl; [tauto|].
  destruct (eq k' k) eqn:E.
  - apply eq_spec in E. split; [discriminate|]. intros H; destruct H; auto.
  - rewrite IH. split; [|tauto]. intros H [H1|H1]; [|auto].
    apply eq_spec in H1. congruence.
Qed.

Lemma dict_get_app k (d1 d2 : dict K V) :
  dict_get eq k (d1 ++ d2)
  = match dict_get eq k d1 with
    | Some v => Some v
    | None => dict_get eq k d2
    end.
Proof.
  induction d1 as [|[k' v'] r IH]; simpl; [reflexivity|].
  now destruct (eq k' k).
Qed.

Lemma dict_setitem_absent k v (d : dict K V) :
  dict_get eq k d = None -> dict_setitem eq k v d = d ++ [(k, v)].
Proof.
  induction d as [|[k' v'] r IH]; simpl; [reflexivity|].
  destruct (eq k' k); [discriminate|]. intros H. now rewrite IH.
Qed.

Lemma dict_get_setitem k v (d : dict K V) k' :
  dict_get eq k' (dict_setitem eq k v d)
  = if eq k k' then Some v else dict_get eq k' d.
Proof.
  induction d as [|[k0 v0] r IH]; simpl.
  - reflexivity.
  - destruct (eq k0 k) eqn:E0; simpl.
    + apply eq_spec in E0 as ->. now destruct (eq k k').
    + rewrite IH. destruct (eq k0 k') eqn:E1; [|reflexivity].
      apply eq_spec in E1. subst k0.
      destruct (eq k k') eqn:E2; [|reflexivity].
      apply eq_spec in E2. subst k'. rewrite eq_same in E0. discriminate.
Qed.

Lemma defaultdict_getitem_present dflt k (d : dict K V) v :
  dict_get eq k d = Some v -> defaultdict_getitem eq dflt k d = (v, d).
Proof. unfold defaultdict_getitem. now intros ->. Qed.

Lemma defaultdict_getitem_absent dflt k (d : dict K V) :
  dict_get eq k d = None ->
  defaultdict_getitem eq dflt k d = (dflt, d ++ [(k, dflt)]).
Proof. unfold defaultdict_getitem. now intros ->. Qed.
End DictFacts.

Lemma string_eqb_spec x y : String.eqb x y = true <-> x = y.
Proof. apply String.eqb_eq. Qed.

Lemma Z_eqb_spec x y : Z.eqb x y = true <-> x = y.
Proof. apply Z.eqb_eq. Qed.

Section CounterFacts.
Variable K : Type.
Variable eq : K -> K -> bool.
Hypothesis eq_spec : forall x y, eq x y = true <-> x = y.

Lemma lookup0_getitem k (d : dict K Z) :
  fst (defaultdict_getitem eq 0 k d) = lookup0 eq k d.
Proof.
  unfold defaultdict_getitem, lookup0. now destruct (dict_get eq k d).
Qed.

Lemma lookup0_after_getitem k (d : dict K Z) k' :
  lookup0 eq k' (snd (defaultdict_getitem eq 0 k d)) = lookup0 eq k' d.
Proof.
  unfold defaultdict_getitem, lookup0.
  destruct (dict_get eq k d) eqn:E; simpl; [reflexivity|].
  rewrite dict_get_app. destruct (dict_get eq k' d) eqn:E'; [reflexivity|].
  simpl. now destruct (eq k k').
Qed.

Lemma lookup0_incr k (d : dict K Z) k' :
  lookup0 eq k' (defaultdict_incr eq k d)
  = lookup0 eq k' d + (if eq k k' then 1 else 0).
Proof.
  unfold defaultdict_incr.
  pose proof (lookup0_getitem k d) as H1.
  pose proof (lookup0_after_getitem k d k') as H2.
  destruct (defaultdict_getitem eq 0 k d) as [v d1]. simpl in *.
  unfold lookup0 at 1. rewrite (dict_get_setitem _ _ eq eq_spec).
  destruct (eq k k') eqn:E.
  - apply eq_spec in E as <-. lia.
  - fold (lookup0 eq k' d1). lia.
Qed.
End CounterFacts.

(** ** Edge records: equality and order *)

Lemma edge_eq_iff x y :
  Edge.__eq__ x y = true
  <-> Edge.nodeA x = Edge.nodeA y /\ Edge.nodeB x = Edge.nodeB y.
Proof.
  unfold Edge.__eq__. rewrite andb_true_iff, !String.eqb_eq. tauto.
Qed.

Lemma edge_eq_refl x : Edge.__eq__ x x = true.
Proof. now apply edge_eq_iff. Qed.

Lemma edge_eq_sym x y : Edge.__eq__ x y = Edge.__eq__ y x.
Proof.
  unfold Edge.__eq__.
  now rewrite (String.eqb_sym (Edge.nodeA x)), (String.eqb_sym (Edge.nodeB x)).
Qed.

Lemma edge_eq_trans x y z :
  Edge.__eq__ x y = true -> Edge.__eq__ y z = true -> Edge.__eq__ x z = true.
Proof. rewrite !edge_eq_iff. intuition congruence. Qed.

Lemma edge_lt_irrefl x : Edge.__lt__ x x = false.
Proof.
  unfold Edge.__lt__. rewrite String.eqb_refl. apply str_lt_irrefl.
Qed.

Lemma edge_lt_trans x y z :
  Edge.__lt__ x y = true -> Edge.__lt__ y z = true -> Edge.__lt__ x z = true.
Proof.
  destruct x as [xa xb xw], y as [ya yb yw], z as [za zb zw].
  unfold Edge.__lt__; simpl.
  destruct (String.eqb_spec xa ya) as [Exy|Exy];
  destruct (String.eqb_spec ya za) as [Eyz|Eyz];
  destruct (String.eqb_spec xa za) as [Exz|Exz];
    intros H1 H2; subst; try congruence;
    try (eapply str_lt_trans; eassumption).
  rewrite (str_lt_asym _ _ H1) in H2. discriminate.
Qed.

Lemma edge_lt_connex x y :
  Edge.__eq__ x y = false ->
  Edge.__lt__ x y = true \/ Edge.__lt__ y x = true.
Proof.
  unfold Edge.__eq__, Edge.__lt__.
  rewrite (String.eqb_sym (Edge.nodeA y)).
  destruct (String.eqb_spec (Edge.nodeA x) (Edge.nodeA y)) as [EA|EA]; simpl.
  - intros HB. apply String.eqb_neq in HB.
    destruct (str_lt (Edge.nodeB x) (Edge.nodeB y)) eqn:H1; [now left|].
    destruct (str_lt (Edge.nodeB y) (Edge.nodeB x)) eqn:H2; [now right|].
    destruct HB. now apply str_lt_connex.
  - intros _.
    destruct (str_lt (Edge.nodeA x) (Edge.nodeA y)) eqn:H1; [now left|].
    destruct (str_lt (Edge.nodeA y) (Edge.nodeA x)) eqn:H2; [now right|].
    destruct EA. now apply str_lt_connex.
Qed.

Lemma unique_distinct_edges l : unique Edge.__eq__ l -> distinct Edge.__lt__ l.
Proof.
  induction 1 as [|x r Hx Hr IH]; constructor; [|assumption].
  eapply Forall_impl; [|exact Hx]. intros y. apply edge_lt_connex.
Qed.

Lemma unique_distinct_strings l : NoDup l -> distinct str_lt l.
Proof.
  induction 1 as [|x r Hx Hr IH]; constructor; [|assumption].
  apply Forall_forall. intros y Hy.
  destruct (str_lt x y) eqn:H1; [now left|].
  destruct (str_lt y x) eqn:H2; [now right|].
  destruct Hx. now rewrite (str_lt_connex _ _ H1 H2).
Qed.

(** ** Reading the file *)

Lemma flush_nonempty cur : Forall (fun x => x <> EmptyString) (flush cur).
Proof. destruct cur; simpl; repeat constructor. discriminate. Qed.

Lemma split_from_nonempty s : forall cur,
  Forall (fun x => x <> EmptyString) (split_from cur s).
Proof.
  induction s as [|c s IH]; intros cur; simpl.
  - apply flush_nonempty.
  - destruct (isspace c); [|apply IH].
    apply Forall_app. split; [apply flush_nonempty|apply IH].
Qed.

Lemma split_nonempty s : Forall (fun x => x <> EmptyString) (split s).
Proof. apply split_from_nonempty. Qed.

Lemma parse_line_fields line a b w :
  parse_line line = Some (a, b, w) ->
  exists c, split (rstrip_newline line) = [a; b; c] /\ float_of_str c = Ok w.
Proof.
  unfold parse_line.
  destruct (split (rstrip_newline line)) as [|a' [|b' [|c' [|? ?]]]];
    try discriminate.
  destruct (float_of_str c') eqn:E; [|discriminate].
  intros [= -> -> ->]. eauto.
Qed.

Lemma parse_line_nonempty line a b w :
  parse_line line = Some (a, b, w) -> a <> EmptyString /\ b <> EmptyString.
Proof.
  intros H. apply parse_line_fields in H as (c & Hs & _).
  pose proof (split_nonempty (rstrip_newline line)) as Hne.
  rewrite Hs in Hne. inversion Hne as [|? ? Ha Hr]; subst.
  inversion Hr; subst. auto.
Qed.

Lemma first_char_ok s : s <> EmptyString -> exists c, first_char s = Ok c.
Proof. destruct s; [congruence|]. simpl. eauto. Qed.

Lemma get_edge_type_string_ok a b w :
  a <> EmptyString -> b <> EmptyString ->
  exists ty, Edge.get_edge_type_string (Edge.mk a b w) = Ok ty.
Proof.
  intros Ha Hb. unfold Edge.get_edge_type_string. simpl.
  destruct (first_char_ok a Ha) as (ca & ->).
  destruct (first_char_ok b Hb) as (cb & ->). simpl. eauto.
Qed.

Lemma accepted_cons line f :
  accepted (line :: f)
  = match parse_line line with Some t => [t] | None => [] end ++ accepted f.
Proof. reflexivity. Qed.

Lemma read_line_spec nodes edges et line :
  exists et',
    read_line (nodes, edges, et) line
    = Ok (add_all String.eqb (endpoints (accepted [line])) nodes,
          add_all Edge.__eq__ (records (accepted [line])) edges, et').
Proof.
  unfold read_line. rewrite accepted_cons. simpl accepted. rewrite app_nil_r.
  destruct (parse_line line) as [[[a b] w]|] eqn:P.
  - destruct (parse_line_nonempty _ _ _ _ P) as [Ha Hb].
    apply parse_line_fields in P as (c & -> & ->).
    destruct (get_edge_type_string_ok a b w Ha Hb) as (ty & ->).
    simpl. eauto.
  - unfold parse_line in P.
    destruct (split (rstrip_newline line)) as [|a' [|b' [|c' [|? ?]]]];
      simpl; eauto.
    destruct (float_of_str c'); [discriminate|simpl; eauto].
Qed.

Lemma endpoints_app l1 l2 : endpoints (l1 ++ l2) = endpoints l1 ++ endpoints l2.
Proof. apply flat_map_app. Qed.

Lemma records_app l1 l2 : records (l1 ++ l2) = records l1 ++ records l2.
Proof. apply flat_map_app. Qed.

Lemma read_lines_spec f : forall nodes edges et,
  exists et',
    read_lines f (nodes, edges, et)
    = Ok (add_all String.eqb (endpoints (accepted f)) nodes,
          add_all Edge.__eq__ (records (accepted f)) edges, et').
Proof.
  induction f as [|line f IH]; intros nodes edges et; cbn [read_lines].
  - simpl. eauto.
  - destruct (read_line_spec nodes edges et line) as (et1 & ->). cbn [rbind].
    destruct (IH (add_all String.eqb (endpoints (accepted [line])) nodes)
                 (add_all Edge.__eq__ (records (accepted [line])) edges) et1)
      as (et2 & ->).
    exists et2. f_equal.
    change (line :: f) with ([line] ++ f).
    unfold accepted at 5 6. rewrite flat_map_app. fold (accepted [line]).
    fold (accepted f).
    now rewrite endpoints_app, records_app, !add_all_app.
Qed.

(** ** Ranges *)

Lemma range_nil lo hi : hi <= lo -> range lo hi = [].
Proof.
  intros H. unfold range. replace (Z.to_nat (hi - lo)) with O by lia.
  reflexivity.
Qed.

Lemma range_cons lo hi : lo < hi -> range lo hi = lo :: range (lo + 1) hi.
Proof.
  intros H. unfold range.
  replace (Z.to_nat (hi - lo)) with (S (Z.to_nat (hi - (lo + 1)))) by lia.
  simpl. f_equal; [lia|].
  rewrite <- seq_shift, map_map. apply map_ext. intros k. lia.
Qed.

Lemma range_length lo hi : length (range lo hi) = Z.to_nat (hi - lo).
Proof. unfold range. now rewrite length_map, length_seq. Qed.

Lemma range_In lo hi x : In x (range lo hi) <-> lo <= x < hi.
Proof.
  unfold range. rewrite in_map_iff. split.
  - intros (k & <- & Hk). apply in_seq in Hk. lia.
  - intros H. exists (Z.to_nat (x - lo)). split; [lia|].
    apply in_seq. lia.
Qed.

Lemma range_snoc lo hi : lo <= hi -> range lo (hi + 1) = range lo hi ++ [hi].
Proof.
  intros H. unfold range.
  replace (Z.to_nat (hi + 1 - lo)) with (Z.to_nat (hi - lo) + 1)%nat by lia.
  rewrite seq_app, map_app. simpl. do 2 f_equal. lia.
Qed.

(** ** The index maps *)

Lemma keys_app {K V} (d1 d2 : dict K V) : keys (d1 ++ d2) = keys d1 ++ keys d2.
Proof. apply map_app. Qed.

Lemma index_nodes_spec nl : forall i n2i i2n,
  NoDup nl ->
  (forall a, In a nl -> ~ In a (keys n2i)) ->
  (forall j, In j (keys i2n) -> j < i) ->
  index_nodes nl i (n2i, i2n)
  = (n2i ++ combine nl (range i (i + Z.of_nat (length nl))),
     i2n ++ combine (range i (i + Z.of_nat (length nl))) nl).
Proof.
  induction nl as [|a r IH]; intros i n2i i2n Hnd Hn Hi.
  - simpl length. rewrite range_nil by lia. simpl. now rewrite !app_nil_r.
  - cbn [index_nodes]. inversion Hnd as [|? ? Ha Hr]; subst.
    rewrite (dict_setitem_absent _ _ String.eqb); cycle 1.
    { apply (dict_get_None _ _ String.eqb string_eqb_spec).
      apply Hn. now left. }
    rewrite (dict_setitem_absent _ _ Z.eqb); cycle 1.
    { apply (dict_get_None _ _ Z.eqb Z_eqb_spec).
      intros H. apply Hi in H. lia. }
    rewrite IH; try assumption.
    + rewrite (range_cons i) by (simpl length; lia).
      replace (i + 1 + Z.of_nat (length r)) with (i + Z.of_nat (length (a :: r)))
        by (simpl length; lia).
      simpl combine. now rewrite <- !app_assoc.
    + intros x Hx. rewrite keys_app. simpl. intros H.
      apply in_app_or in H as [H|[H|[]]].
      * apply (Hn x); [now right|assumption].
      * congruence.
    + intros j. rewrite keys_app. simpl. intros H.
      apply in_app_or in H as [H|[H|[]]]; [apply Hi in H|]; lia.
Qed.

Lemma index_nodes_maps nl :
  NoDup nl -> index_nodes nl 0 ([], []) = (index_map nl, reverse_map nl).
Proof.
  intros H. rewrite index_nodes_spec; [reflexivity|assumption|..].
  - intros a _ [].
  - intros j [].
Qed.

(** The position of a label in [nl], counted from [i]. *)
Lemma dict_get_combine_cons a r i hi x :
  i < hi ->
  dict_get String.eqb x (combine (a :: r) (range i hi))
  = if String.eqb a x then Some i
    else dict_get String.eqb x (combine r (range (i + 1) hi)).
Proof. intros H. now rewrite range_cons by assumption. Qed.

Lemma dict_get_index nl : forall i k a,
  NoDup nl -> nth_error nl k = Some a ->
  dict_get String.eqb a (combine nl (range i (i + Z.of_nat (length nl))))
  = Some (i + Z.of_nat k).
Proof.
  induction nl as [|x r IH]; intros i k a Hnd Hk.
  - destruct k; discriminate.
  - inversion Hnd as [|? ? Hx Hr]; subst.
    rewrite dict_get_combine_cons by (simpl length; lia).
    destruct k as [|k]; simpl in Hk.
    + injection Hk as ->. rewrite String.eqb_refl. f_equal. lia.
    + destruct (String.eqb_spec x a) as [->|Hxa].
      * destruct Hx. eapply nth_error_In; eassumption.
      * replace (i + Z.of_nat (length (x :: r)))
          with (i + 1 + Z.of_nat (length r)) by (simpl length; lia).
        rewrite (IH (i + 1) k a Hr Hk). f_equal. lia.
Qed.

Lemma index_map_nth nl k a :
  NoDup nl -> nth_error nl k = Some a ->
  dict_get String.eqb a (index_map nl) = Some (Z.of_nat k).
Proof.
  intros Hnd Hk. pose proof (dict_get_index nl 0 k a Hnd Hk) as H.
  rewrite !Z.add_0_l in H. exact H.
Qed.

Lemma idx_nth nl k a :
  NoDup nl -> nth_error nl k = Some a -> idx nl a = Z.of_nat k.
Proof.
  intros Hnd Hk. unfold idx, lookup0.
  now rewrite (index_map_nth nl k a Hnd Hk).
Qed.

Lemma index_map_get nl a :
  NoDup nl -> In a nl ->
  dict_get String.eqb a (index_map nl) = Some (idx nl a).
Proof.
  intros Hnd Ha. apply In_nth_error in Ha as (k & Hk).
  rewrite (idx_nth nl k a Hnd Hk). now apply index_map_nth.
Qed.

Lemma idx_bounds nl a :
  NoDup nl -> In a nl -> 0 <= idx nl a < Z.of_nat (length nl).
Proof.
  intros Hnd Ha. apply In_nth_error in Ha as (k & Hk).
  rewrite (idx_nth nl k a Hnd Hk).
  assert (k < length nl)%nat by (apply nth_error_Some; congruence). lia.
Qed.

Lemma idx_nonneg nl a : 0 <= idx nl a.
Proof.
  unfold idx, lookup0.
  destruct (dict_get String.eqb a (index_map nl)) as [v|] eqn:E; [|lia].
  apply (dict_get_In _ _ String.eqb string_eqb_spec) in E.
  apply in_combine_r in E. apply range_In in E. lia.
Qed.

Lemma nth_idx nl a :
  NoDup nl -> In a nl -> nth_error nl (Z.to_nat (idx nl a)) = Some a.
Proof.
  intros Hnd Ha. apply In_nth_error in Ha as (k & Hk).
  rewrite (idx_nth nl k a Hnd Hk). now rewrite Nat2Z.id.
Qed.

Lemma idx_inj nl a b :
  NoDup nl -> In a nl -> In b nl -> idx nl a = idx nl b -> a = b.
Proof.
  intros Hnd Ha Hb E.
  pose proof (nth_idx nl a Hnd Ha) as H1.
  pose proof (nth_idx nl b Hnd Hb) as H2.
  rewrite E in H1. congruence.
Qed.

Lemma increasing_NoDup l : increasing str_lt l -> NoDup l.
Proof.
  induction 1 as [|x r Hr IH Hx]; constructor; [|assumption].
  intros Hin. rewrite Forall_forall in Hx. specialize (Hx _ Hin).
  now rewrite str_lt_irrefl in Hx.
Qed.

Lemma increasing_nth l : forall i j a b,
  increasing str_lt l -> nth_error l i = Some a -> nth_error l j = Some b ->
  (i < j)%nat -> str_lt a b = true.
Proof.
  induction l as [|x r IH]; intros i j a b Hs Hi Hj Hij.
  - destruct i; discriminate.
  - inversion Hs as [|? ? Hr Hx]; subst.
    destruct j as [|j]; [lia|]. simpl in Hj.
    destruct i as [|i]; simpl in Hi.
    + injection Hi as ->. rewrite Forall_forall in Hx. apply Hx.
      eapply nth_error_In; eassumption.
    + apply (IH i j); auto. lia.
Qed.

(** Larger labels have larger indices. *)
Lemma idx_mono nl a b :
  increasing str_lt nl -> In a nl -> In b nl ->
  (str_lt a b = true <-> idx nl a < idx nl b).
Proof.
  intros Hs Ha Hb. pose proof (increasing_NoDup nl Hs) as Hnd.
  pose proof (nth_idx nl a Hnd Ha) as H1.
  pose proof (nth_idx nl b Hnd Hb) as H2.
  pose proof (idx_nonneg nl a) as Hna. pose proof (idx_nonneg nl b) as Hnb.
  split; intros H.
  - destruct (Z_lt_ge_dec (idx nl a) (idx nl b)) as [|Hge]; [assumption|].
    destruct (Z.eq_dec (idx nl a) (idx nl b)) as [E|E].
    + rewrite (idx_inj nl a b Hnd Ha Hb E) in H.
      now rewrite str_lt_irrefl in H.
    + assert (Hlt : (Z.to_nat (idx nl b) < Z.to_nat (idx nl a))%nat) by lia.
      pose proof (increasing_nth nl _ _ _ _ Hs H2 H1 Hlt) as Hba.
      rewrite (str_lt_asym _ _ Hba) in H. discriminate.
  - apply (increasing_nth nl _ _ _ _ Hs H1 H2). lia.
Qed.

Lemma reverse_map_get (nl : list string) : forall i j,
  i <= j < i + Z.of_nat (length nl) ->
  dict_get Z.eqb j (combine (range i (i + Z.of_nat (length nl))) nl)
  = nth_error nl (Z.to_nat (j - i)).
Proof.
  induction nl as [|x r IH]; intros i j Hj.
  - simpl in Hj. lia.
  - assert (Hlen : i + Z.of_nat (length (x :: r))
                   = i + 1 + Z.of_nat (length r)) by (simpl length; lia).
    rewrite Hlen in *. rewrite range_cons by lia. cbn [combine dict_get].
    destruct (Z.eqb_spec i j) as [->|Hij].
    + now replace (Z.to_nat (j - j)) with O by lia.
    + rewrite IH by lia.
      replace (Z.to_nat (j - i)) with (S (Z.to_nat (j - (i + 1)))) by lia.
      reflexivity.
Qed.

Lemma reverse_map_idx nl a :
  NoDup nl -> In a nl ->
  dict_get Z.eqb (idx nl a) (reverse_map nl) = Some a.
Proof.
  intros Hnd Ha. pose proof (idx_bounds nl a Hnd Ha) as Hb.
  pose proof (reverse_map_get nl 0 (idx nl a)) as H.
  rewrite !Z.add_0_l, Z.sub_0_r in H. unfold reverse_map.
  rewrite H by lia. now apply nth_idx.
Qed.

(** ** The sorted lists of a file *)

Lemma accepted_In f t :
  In t (accepted f) <-> exists line, In line f /\ parse_line line = Some t.
Proof.
  unfold accepted. rewrite in_flat_map. split.
  - intros (line & Hl & Ht). exists line. split; [assumption|].
    destruct (parse_line line); [|destruct Ht].
    destruct Ht as [->|[]]. reflexivity.
  - intros (line & Hl & Hp). exists line. split; [assumption|].
    rewrite Hp. now left.
Qed.

Lemma endpoints_In acc x :
  In x (endpoints acc)
  <-> exists a b w, In (a, b, w) acc /\ (x = a \/ x = b).
Proof.
  unfold endpoints. rewrite in_flat_map. split.
  - intros ([[a b] w] & Ht & Hx). exists a, b, w. split; [assumption|].
    destruct Hx as [<-|[<-|[]]]; auto.
  - intros (a & b & w & Ht & Hx). exists (a, b, w). split; [assumption|].
    simpl. destruct Hx as [->| ->]; auto.
Qed.

Lemma records_In acc e :
  In e (records acc)
  <-> exists a b w, In (a, b, w) acc
                    /\ (e = Edge.mk a b w \/ e = Edge.mk b a w).
Proof.
  unfold records. rewrite in_flat_map. split.
  - intros ([[a b] w] & Ht & Hx). exists a, b, w. split; [assumption|].
    destruct Hx as [<-|[<-|[]]]; auto.
  - intros (a & b & w & Ht & Hx). exists (a, b, w). split; [assumption|].
    simpl. destruct Hx as [->| ->]; auto.
Qed.

Lemma node_set_NoDup f : NoDup (node_set f).
Proof.
  apply unique_string_NoDup. unfold node_set. apply add_all_unique.
  constructor.
Qed.

Lemma node_set_In f x : In x (node_set f) <-> In x (endpoints (accepted f)).
Proof.
  unfold node_set. split.
  - intros H. apply add_all_inv in H as [[]|H]. assumption.
  - intros H. destruct (add_all_has _ String.eqb String.eqb_refl _ [] _ H)
      as (y & Hy & Hyx).
    apply String.eqb_eq in Hyx. now subst.
Qed.

Lemma node_list_In f x : In x (node_list f) <-> In x (endpoints (accepted f)).
Proof. unfold node_list. now rewrite sorted_In, node_set_In. Qed.

Lemma node_list_increasing f : increasing str_lt (node_list f).
Proof.
  apply sorted_increasing; [exact str_lt_trans|].
  apply unique_distinct_strings, node_set_NoDup.
Qed.

Lemma node_list_NoDup f : NoDup (node_list f).
Proof. apply increasing_NoDup, node_list_increasing. Qed.

Lemma node_list_nonempty f x : In x (node_list f) -> x <> EmptyString.
Proof.
  rewrite node_list_In, endpoints_In. intros (a & b & w & Ht & Hx).
  apply accepted_In in Ht as (line & _ & Hp).
  apply parse_line_nonempty in Hp. destruct Hx; subst; tauto.
Qed.

Lemma edge_set_unique f : unique Edge.__eq__ (edge_set f).
Proof. unfold edge_set. apply add_all_unique. constructor. Qed.

Lemma edge_list_In f e : In e (edge_list f) <-> In e (edge_set f).
Proof. apply sorted_In. Qed.

Lemma edge_list_records f e :
  In e (edge_list f) -> In e (records (accepted f)).
Proof.
  rewrite edge_list_In. intros H. apply add_all_inv in H as [[]|H].
  assumption.
Qed.

Lemma edge_list_increasing f : increasing Edge.__lt__ (edge_list f).
Proof.
  apply sorted_increasing; [exact edge_lt_trans|].
  apply unique_distinct_edges, edge_set_unique.
Qed.

Lemma edge_list_nodes f e :
  In e (edge_list f) ->
  In (Edge.nodeA e) (node_list f) /\ In (Edge.nodeB e) (node_list f).
Proof.
  intros H. apply edge_list_records, records_In in H
    as (a & b & w & Ht & He).
  rewrite !node_list_In, !endpoints_In.
  destruct He as [-> | ->]; simpl; split; exists a, b, w; auto.
Qed.

(** ** Arrays *)

Lemma update_app l1 : forall v x l2,
  Np.update (length l1) v (l1 ++ x :: l2) = l1 ++ v :: l2.
Proof.
  induction l1 as [|y r IH]; intros v x l2; simpl; [reflexivity|].
  now rewrite IH.
Qed.

Lemma setitem_next l1 x l2 i v :
  i = Z.of_nat (length l1) ->
  Np.setitem (l1 ++ x :: l2) i v = Ok (l1 ++ v :: l2).
Proof.
  intros ->. unfold Np.setitem, Np.index.
  rewrite length_app. simpl length.
  destruct (Z.ltb_spec (Z.of_nat (length l1)) 0) as [H|H]; [lia|].
  destruct (Z.leb_spec 0 (Z.of_nat (length l1))) as [H1|H1]; [|lia].
  destruct (Z.ltb_spec (Z.of_nat (length l1))
              (Z.of_nat (length l1 + S (length l2)))) as [H2|H2]; [|lia].
  simpl. now rewrite Nat2Z.id, update_app.
Qed.

Lemma getitem_nth a i :
  0 <= i < Z.of_nat (length a) ->
  Np.getitem a i = Ok (nth (Z.to_nat i) a 0).
Proof.
  intros H. unfold Np.getitem, Np.index.
  destruct (Z.ltb_spec i 0) as [H0|H0]; [lia|].
  destruct (Z.leb_spec 0 i) as [H1|H1]; [|lia].
  destruct (Z.ltb_spec i (Z.of_nat (length a))) as [H2|H2]; [|lia].
  reflexivity.
Qed.

Lemma int32_of_int_ok n :
  Np.in_int32 n = true -> Np.int32_of_int n = Ok n.
Proof. unfold Np.int32_of_int. now intros ->. Qed.

Lemma int32_of_int_inv n v : Np.int32_of_int n = Ok v -> v = n.
Proof.
  unfold Np.int32_of_int. destruct (Np.in_int32 n); [|discriminate].
  now intros [= <-].
Qed.

Lemma int32_of_int_cases n :
  (Np.in_int32 n = true /\ Np.int32_of_int n = Ok n)
  \/ (Np.in_int32 n = false
      /\ exists m, Np.int32_of_int n = Raise (OverflowError m)).
Proof.
  unfold Np.int32_of_int. destruct (Np.in_int32 n); [left|right]; eauto.
Qed.

Lemma in_int32_iff n :
  Np.in_int32 n = true <-> Np.int32_min <= n <= Np.int32_max.
Proof. unfold Np.in_int32. rewrite andb_true_iff, !Z.leb_le. tauto. Qed.

(** ** First pass *)

Lemma count_edges_spec el : forall n2i cnt,
  Forall (fun e => dict_get String.eqb (Edge.nodeA e) n2i <> None) el ->
  exists cnt',
    count_edges el (n2i, cnt) = (n2i, cnt')
    /\ forall k,
         lookup0 Z.eqb k cnt'
         = lookup0 Z.eqb k cnt
           + Z.of_nat (length (filter
               (fun e => lookup0 String.eqb (Edge.nodeA e) n2i =? k) el)).
Proof.
  induction el as [|e r IH]; intros n2i cnt Hall.
  - exists cnt. split; [reflexivity|]. intros k. simpl. lia.
  - inversion Hall as [|? ? He Hr]; subst. cbn [count_edges].
    destruct (dict_get String.eqb (Edge.nodeA e) n2i) as [v|] eqn:E;
      [|congruence].
    rewrite (defaultdict_getitem_present _ _ _ _ _ _ _ E).
    destruct (IH n2i (defaultdict_incr Z.eqb v cnt) Hr) as (cnt' & -> & Hc).
    exists cnt'. split; [reflexivity|]. intros k. rewrite Hc.
    rewrite (lookup0_incr _ Z.eqb Z_eqb_spec).
    assert (Hl : lookup0 String.eqb (Edge.nodeA e) n2i = v)
      by (unfold lookup0; now rewrite E).
    cbn [filter]. rewrite Hl.
    destruct (v =? k); simpl length; lia.
Qed.

(** ** Second pass *)

Lemma below_step nl el k : below nl el (k + 1) = below nl el k + degree nl el k.
Proof.
  unfold below, degree. induction el as [|e r IH]; simpl; [reflexivity|].
  destruct (Z.ltb_spec (idx nl (Edge.nodeA e)) (k + 1));
  destruct (Z.ltb_spec (idx nl (Edge.nodeA e)) k);
  destruct (Z.eqb_spec (idx nl (Edge.nodeA e)) k); simpl length; lia.
Qed.

Lemma below_mono nl el j k : j <= k -> below nl el j <= below nl el k.
Proof.
  intros H. unfold below. induction el as [|e r IH]; simpl; [lia|].
  destruct (Z.ltb_spec (idx nl (Edge.nodeA e)) j);
  destruct (Z.ltb_spec (idx nl (Edge.nodeA e)) k); simpl length; lia.
Qed.

Lemma below_0 nl el : below nl el 0 = 0.
Proof.
  unfold below. induction el as [|e r IH]; simpl; [reflexivity|].
  pose proof (idx_nonneg nl (Edge.nodeA e)).
  destruct (Z.ltb_spec (idx nl (Edge.nodeA e)) 0); [lia|assumption].
Qed.

Lemma below_le_length nl el k : 0 <= below nl el k <= Z.of_nat (length el).
Proof. unfold below. pose proof (filter_length_le
    (fun e => idx nl (Edge.nodeA e) <? k) el). lia.
Qed.

Lemma set_offsets_spec nl el : forall rest done st,
  nl = done ++ rest ->
  NoDup nl ->
  Forall (fun x => x <> EmptyString) nl ->
  os_n2i st = index_map nl ->
  (forall k, lookup0 Z.eqb k (os_index2edge_count st) = degree nl el k) ->
  os_offset_to_edge st
  = map (below nl el) (range 0 (Z.of_nat (length done) + 1))
    ++ Np.zeros (length rest) ->
  os_i st = Z.of_nat (length done) ->
  os_offset st = below nl el (Z.of_nat (length done)) ->
  match set_offsets rest st with
  | Ok st' =>
      os_n2i st' = index_map nl /\ os_offset_to_edge st' = offsets nl el
  | Raise e =>
      (exists m, e = OverflowError m)
      /\ Np.int32_max < below nl el (Z.of_nat (length nl))
  end.
Proof.
  induction rest as [|n rest IH]; intros done st Hnl Hnd Hne Hn2i Hcnt Hoff Hi Ho.
  - simpl. split; [assumption|]. rewrite Hoff. simpl. rewrite app_nil_r in *.
    subst nl. reflexivity.
  - cbn [set_offsets].
    assert (Hin : In n nl) by (subst nl; apply in_or_app; right; now left).
    assert (Hk : nth_error nl (length done) = Some n).
    { subst nl. rewrite nth_error_app2 by lia. now rewrite Nat.sub_diag. }
    rewrite Forall_forall in Hne.
    destruct (first_char_ok n (Hne _ Hin)) as (c & ->). cbn [rbind].
    rewrite Hn2i.
    rewrite (defaultdict_getitem_present _ _ _ _ _ _ _
               (index_map_nth nl _ n Hnd Hk)).
    pose proof (lookup0_getitem _ Z.eqb (Z.of_nat (length done))
                  (os_index2edge_count st)) as Hv.
    pose proof (lookup0_after_getitem _ Z.eqb (Z.of_nat (length done))
                  (os_index2edge_count st)) as Hc'.
    destruct (defaultdict_getitem Z.eqb 0 (Z.of_nat (length done))
                (os_index2edge_count st)) as [n_edges i2ec].
    simpl in Hv, Hc'. rewrite Hcnt in Hv. subst n_edges.
    rewrite Ho, Hi, <- below_step.
    set (k1 := Z.of_nat (length done) + 1).
    assert (Hk1 : k1 = Z.of_nat (length (done ++ [n])))
      by (rewrite length_app; simpl length; unfold k1; lia).
    assert (Hle : k1 <= Z.of_nat (length nl)).
    { subst nl. rewrite length_app. simpl length. unfold k1. lia. }
    destruct (int32_of_int_cases (below nl el k1)) as [[Hr ->]|[Hr (e & ->)]];
      cbn [rbind].
    + rewrite Hoff. cbn [Np.zeros repeat length].
      rewrite setitem_next; cycle 1.
      { rewrite length_map, range_length. unfold k1. lia. }
      cbn [rbind].
      apply (IH (done ++ [n])).
      * subst nl. now rewrite <- app_assoc.
      * assumption.
      * now apply Forall_forall.
      * reflexivity.
      * cbn [os_index2edge_count]. intros k. now rewrite Hc'.
      * cbn [os_offset_to_edge]. rewrite <- Hk1.
        rewrite (range_snoc 0 k1) by (unfold k1; lia).
        rewrite map_app. simpl map. rewrite <- app_assoc. reflexivity.
      * cbn [os_i]. now rewrite <- Hk1.
      * cbn [os_offset]. now rewrite <- Hk1.
    + split; [eauto|].
      pose proof (below_mono nl el k1 _ Hle).
      pose proof (below_le_length nl el k1).
      assert (~ (Np.int32_min <= below nl el k1 <= Np.int32_max)).
      { rewrite <- in_int32_iff. congruence. }
      unfold Np.int32_min in *. lia.
Qed.

(** ** Third pass *)

Lemma int32_of_float_error x e :
  Np.int32_of_float x = Raise e -> store_error e.
Proof.
  unfold Np.int32_of_float, store_error.
  destruct (int_of_float x) as [n|e0] eqn:E; simpl.
  - destruct ((Np.long_min <=? n) && (n <=? Np.long_max)); [discriminate|].
    intros [= <-]. eauto.
  - intros [= <-]. destruct x; simpl in E; try discriminate;
      injection E as <-; eauto.
Qed.

Lemma fill_edges_spec nl : forall rest done st,
  NoDup nl ->
  Forall (fun e => In (Edge.nodeA e) nl /\ In (Edge.nodeB e) nl) rest ->
  fs_n2i st = index_map nl ->
  fs_edge_to st
  = map (fun e => idx nl (Edge.nodeB e)) done ++ Np.zeros (length rest) ->
  fs_edge_weight st = map stored_weight done ++ Np.zeros (length rest) ->
  fs_j st = Z.of_nat (length done) ->
  match fill_edges rest st with
  | Ok st' =>
      fs_n2i st' = index_map nl
      /\ fs_edge_to st'
         = map (fun e => idx nl (Edge.nodeB e)) (done ++ rest)
      /\ fs_edge_weight st' = map stored_weight (done ++ rest)
      /\ Forall (fun e => storable e = true) rest
  | Raise x =>
      store_error x
      /\ ~ (Forall (fun e => storable e = true) rest
            /\ Z.of_nat (length nl) <= Np.int32_max + 1)
  end.
Proof.
  induction rest as [|e rest IH]; intros done st Hnd Hin Hn2i Hto Hw Hj.
  - simpl in *. rewrite !app_nil_r in *. auto.
  - cbn [fill_edges]. inversion Hin as [|? ? [HA HB] Hrest]; subst.
    rewrite Hn2i.
    rewrite (defaultdict_getitem_present _ _ _ _ _ _ _
               (index_map_get nl _ Hnd HA)).
    rewrite (defaultdict_getitem_present _ _ _ _ _ _ _
               (index_map_get nl _ Hnd HB)).
    pose proof (idx_bounds nl _ Hnd HB) as Hb.
    destruct (int32_of_int_cases (idx nl (Edge.nodeB e)))
      as [[Hr ->]|[Hr (x & ->)]]; cbn [rbind].
    + rewrite Hto, Hw, Hj. cbn [Np.zeros repeat length].
      rewrite setitem_next by now rewrite length_map. cbn [rbind].
      destruct (Np.int32_of_float (Edge.weight e)) as [w|x] eqn:Ew;
        cbn [rbind].
      * rewrite setitem_next by now rewrite length_map. cbn [rbind].
        assert (Hsw : stored_weight e = w) by (unfold stored_weight; now rewrite Ew).
        assert (Hst : storable e = true) by (unfold storable; now rewrite Ew).
        specialize (IH (done ++ [e])
          (mkFill (index_map nl)
             (map (fun e => idx nl (Edge.nodeB e)) done
                ++ idx nl (Edge.nodeB e) :: repeat 0 (length rest))
             (map stored_weight done ++ w :: repeat 0 (length rest))
             (Z.of_nat (length done) + 1)) Hnd Hrest eq_refl).
        cbn [fs_edge_to fs_edge_weight fs_j] in IH.
        rewrite !map_app, <- !app_assoc, length_app in IH. simpl in IH.
        rewrite Hsw in IH.
        specialize (IH eq_refl eq_refl ltac:(lia)).
        destruct (fill_edges rest _) as [st'|x].
        -- destruct IH as (H1 & H2 & H3 & H4).
           rewrite !map_app. simpl. rewrite Hsw. auto.
        -- destruct IH as [Hkind IH]. split; [exact Hkind|].
           intros [Hs Hlen]. apply IH. inversion Hs; subst. auto.
      * split; [exact (int32_of_float_error _ _ Ew)|].
        intros [Hs _]. inversion Hs as [|? ? He _]; subst.
        unfold storable in He. rewrite Ew in He. discriminate.
    + split; [right; eauto|]. intros [_ Hlen].
      assert (~ (Np.int32_min <= idx nl (Edge.nodeB e) <= Np.int32_max)).
      { rewrite <- in_int32_iff. congruence. }
      unfold Np.int32_min in *. lia.
Qed.

(** ** The constructor *)

Lemma idx_lookup nl a : lookup0 String.eqb a (index_map nl) = idx nl a.
Proof. reflexivity. Qed.

Lemma below_all nl el :
  NoDup nl -> Forall (fun e => In (Edge.nodeA e) nl) el ->
  below nl el (Z.of_nat (length nl)) = Z.of_nat (length el).
Proof.
  intros Hnd Hall. unfold below. f_equal. f_equal.
  induction Hall as [|e r He Hr IH]; simpl; [reflexivity|].
  pose proof (idx_bounds nl _ Hnd He).
  destruct (Z.ltb_spec (idx nl (Edge.nodeA e)) (Z.of_nat (length nl))); [|lia].
  now rewrite IH.
Qed.

Theorem build_spec f :
  match build f with
  | Ok g => layout f g /\ Forall (fun e => storable e = true) (edge_list f)
  | Raise x =>
      store_error x
      /\ ~ (Forall (fun e => storable e = true) (edge_list f)
            /\ Z.of_nat (length (edge_list f)) <= Np.int32_max
            /\ Z.of_nat (length (node_list f)) <= Np.int32_max + 1)
  end.
Proof.
  unfold build.
  destruct (read_lines_spec f [] [] []) as (et & E).
  match goal with
  | |- context [read_lines f ?s] =>
      replace (read_lines f s) with (Ok (node_set f, edge_set f, et))
        by (symmetry; exact E)
  end.
  cbn [rbind].
  change (sorted str_lt (node_set f)) with (node_list f).
  change (sorted Edge.__lt__ (edge_set f)) with (edge_list f).
  pose proof (node_list_NoDup f) as Hnd.
  assert (Hnodes : Forall (fun e => In (Edge.nodeA e) (node_list f)
                                    /\ In (Edge.nodeB e) (node_list f))
                     (edge_list f))
    by (apply Forall_forall; intros e; apply edge_list_nodes).
  assert (HnodesA : Forall (fun e => In (Edge.nodeA e) (node_list f))
                      (edge_list f))
    by (eapply Forall_impl; [|exact Hnodes]; intros e [H _]; exact H).
  rewrite (index_nodes_maps _ Hnd).
  destruct (count_edges_spec (edge_list f) (index_map (node_list f)) [])
    as (cnt & Ecnt & Hcnt).
  { eapply Forall_impl; [|exact HnodesA]. intros e He.
    rewrite (index_map_get _ _ Hnd He). discriminate. }
  match goal with
  | |- context [count_edges ?a ?b] =>
      replace (count_edges a b) with (index_map (node_list f), cnt)
        by (symmetry; exact Ecnt)
  end.
  change (Np.int32_of_int 0) with (@Ok Z 0). cbn [rbind].
  replace (length (node_list f) + 1)%nat with (S (length (node_list f)))
    by lia.
  cbn [Np.zeros repeat].
  change (Np.setitem (0 :: repeat 0 (length (node_list f))) 0 0)
    with (Ok (0 :: repeat 0 (length (node_list f)))).
  cbn [rbind].
  assert (Hinit : 0 :: repeat 0 (length (node_list f))
                  = map (below (node_list f) (edge_list f))
                      (range 0 (Z.of_nat 0 + 1))
                    ++ Np.zeros (length (node_list f))).
  { change (range 0 (Z.of_nat 0 + 1)) with [0]. simpl. now rewrite below_0. }
  match goal with
  | |- context [set_offsets (node_list f) ?st] =>
      pose proof (set_offsets_spec (node_list f) (edge_list f) (node_list f)
                    [] st eq_refl Hnd) as Hoff;
      cbn [os_n2i os_index2edge_count os_offset_to_edge os_i os_offset length]
        in Hoff;
      destruct (set_offsets (node_list f) st) as [os|x]
  end; cbn [rbind].
  - specialize (Hoff ltac:(apply Forall_forall; intros x;
                           apply node_list_nonempty) eq_refl).
    specialize (Hoff ltac:(intros k; rewrite Hcnt; reflexivity) Hinit
                     eq_refl (eq_sym (below_0 _ _))).
    destruct Hoff as [Hn2i Hoffs].
    match goal with
    | |- context [fill_edges (edge_list f) ?st] =>
        pose proof (fill_edges_spec (node_list f) (edge_list f) [] st
                      Hnd Hnodes Hn2i eq_refl eq_refl eq_refl) as Hfill;
        destruct (fill_edges (edge_list f) st) as [fl|x]
    end; cbn [rbind].
    + destruct Hfill as (H1 & H2 & H3 & H4). simpl in H2, H3.
      unfold layout. simpl. repeat split; assumption.
    + destruct Hfill as [Hkind Hfill]. split; [exact Hkind|].
      intros (Hs & _ & Hlen). apply Hfill. auto.
  - specialize (Hoff ltac:(apply Forall_forall; intros y;
                           apply node_list_nonempty) eq_refl).
    specialize (Hoff ltac:(intros k; rewrite Hcnt; reflexivity) Hinit
                     eq_refl (eq_sym (below_0 _ _))).
    destruct Hoff as [Hkind Hoff]. split; [right; exact Hkind|].
    intros (_ & Hlen & _). rewrite (below_all _ _ Hnd HnodesA) in Hoff. lia.
Qed.

Corollary build_layout f g : build f = Ok g -> layout f g.
Proof. intros H. pose proof (build_spec f) as S. rewrite H in S. tauto. Qed.

Corollary build_storable f g :
  build f = Ok g -> Forall (fun e => storable e = true) (edge_list f).
Proof. intros H. pose proof (build_spec f) as S. rewrite H in S. tauto. Qed.

(** ** Adjacency blocks *)

Section Blocks.
Variable A : Type.
Variable key : A -> Z.

Lemma filter_none (p : A -> bool) l :
  Forall (fun x => p x = false) l -> filter p l = [].
Proof.
  induction 1 as [|x r Hx Hr IH]; simpl; [reflexivity|]. now rewrite Hx.
Qed.

Lemma filter_all (p : A -> bool) l :
  Forall (fun x => p x = true) l -> filter p l = l.
Proof.
  induction 1 as [|x r Hx Hr IH]; simpl; [reflexivity|].
  rewrite Hx. now f_equal.
Qed.

(** A list sorted on [key] is the block below [k], then the block of [k],
    then the block above [k]. *)
Lemma blocks_split k l :
  nondecreasing key l ->
  l = filter (fun x => key x <? k) l
      ++ filter (fun x => key x =? k) l
      ++ filter (fun x => k <? key x) l.
Proof.
  induction 1 as [|x r Hr IH Hx]; [reflexivity|].
  cbn [filter].
  destruct (Z.ltb_spec (key x) k) as [H1|H1];
  destruct (Z.eqb_spec (key x) k) as [H2|H2];
  destruct (Z.ltb_spec k (key x)) as [H3|H3]; try lia.
  - simpl. f_equal. exact IH.
  - rewrite (filter_none (fun y => key y <? k) r).
    + simpl. f_equal. rewrite IH at 1.
      rewrite (filter_none (fun y => key y <? k) r); [reflexivity|].
      eapply Forall_impl; [|exact Hx]. intros y Hy. simpl in Hy.
      apply Z.ltb_ge. lia.
    + eapply Forall_impl; [|exact Hx]. intros y Hy. simpl in Hy.
      apply Z.ltb_ge. lia.
  - rewrite (filter_none (fun y => key y <? k) r),
      (filter_none (fun y => key y =? k) r),
      (filter_all (fun y => k <? key y) r); [reflexivity|..];
      (eapply Forall_impl; [|exact Hx]); intros y Hy; simpl in Hy.
    + apply Z.ltb_lt. lia.
    + apply Z.eqb_neq. lia.
    + apply Z.ltb_ge. lia.
Qed.
End Blocks.

Lemma edge_lt_source nl x y :
  increasing str_lt nl ->
  In (Edge.nodeA x) nl -> In (Edge.nodeA y) nl ->
  Edge.__lt__ x y = true ->
  idx nl (Edge.nodeA x) <= idx nl (Edge.nodeA y).
Proof.
  intros Hs Hx Hy. unfold Edge.__lt__.
  destruct (String.eqb_spec (Edge.nodeA x) (Edge.nodeA y)) as [->|Hne].
  - lia.
  - intros H. apply (idx_mono nl _ _ Hs Hx Hy) in H. lia.
Qed.

Lemma edge_list_by_source f :
  nondecreasing (fun e => idx (node_list f) (Edge.nodeA e)) (edge_list f).
Proof.
  pose proof (edge_list_increasing f) as Hs.
  assert (Hin : Forall (fun e => In (Edge.nodeA e) (node_list f)) (edge_list f))
    by (apply Forall_forall; intros e He; now apply edge_list_nodes).
  unfold nondecreasing, increasing in *.
  induction Hs as [|x r Hr IH Hx]; constructor.
  - apply IH. now inversion Hin.
  - inversion Hin as [|? ? HxA Hrest]; subst.
    rewrite Forall_forall in *. intros y Hy.
    apply edge_lt_source; auto. apply node_list_increasing.
Qed.

(** ** Reading the arrays *)

Lemma nth_middle_app (pre : list Z) x post d :
  nth (length pre) (pre ++ x :: post) d = x.
Proof. induction pre; simpl; auto. Qed.

Lemma getitem_middle pre x post :
  Np.getitem (pre ++ x :: post) (Z.of_nat (length pre)) = Ok x.
Proof.
  rewrite getitem_nth.
  - now rewrite Nat2Z.id, nth_middle_app.
  - rewrite length_app. simpl length. lia.
Qed.

Lemma nth_map_range (f : Z -> Z) lo hi k d :
  lo <= k < hi -> nth (Z.to_nat (k - lo)) (map f (range lo hi)) d = f k.
Proof.
  intros H. unfold range. rewrite map_map.
  rewrite (nth_indep _ d (f (lo + Z.of_nat 0)));
    [|rewrite length_map, length_seq; lia].
  rewrite (map_nth (fun i => f (lo + Z.of_nat i))).
  rewrite seq_nth by lia. f_equal. lia.
Qed.

Lemma offsets_get nl el k :
  0 <= k <= Z.of_nat (length nl) ->
  Np.getitem (offsets nl el) k = Ok (below nl el k).
Proof.
  intros H. rewrite getitem_nth.
  - f_equal. unfold offsets.
    pose proof (nth_map_range (below nl el) 0 (Z.of_nat (length nl) + 1) k 0)
      as E.
    rewrite Z.sub_0_r in E. apply E. lia.
  - unfold offsets. rewrite length_map, range_length. lia.
Qed.

(** ** The loops of the queries *)

Lemma has_edge_loop_block d seg : forall pre post g,
  edge_to g = pre ++ seg ++ post ->
  has_edge_loop d
    (range (Z.of_nat (length pre)) (Z.of_nat (length pre + length seg))) g
  = (Ok (existsb (fun t => t =? d) seg), g).
Proof.
  induction seg as [|x seg IH]; intros pre post g Hg.
  - rewrite range_nil by (simpl; lia). reflexivity.
  - rewrite range_cons by (simpl length; lia). cbn [has_edge_loop].
    unfold bind, edge_to_at, lift. rewrite Hg. simpl app.
    rewrite getitem_middle. cbn [existsb].
    destruct (x =? d); [reflexivity|]. simpl orb.
    specialize (IH (pre ++ [x]) post g).
    rewrite length_app in IH. simpl length in IH.
    simpl length.
    replace (Z.of_nat (length pre) + 1) with (Z.of_nat (length pre + 1)) by lia.
    replace (length pre + S (length seg))%nat
      with (length pre + 1 + length seg)%nat by lia.
    apply IH. rewrite Hg, <- app_assoc. reflexivity.
Qed.

Lemma weight_loop_block source dest d (dst sw : Edge.t -> Z) blk :
  forall pre post pre' post' g,
  edge_to g = pre ++ map dst blk ++ post ->
  edge_weight g = pre' ++ map sw blk ++ post' ->
  length pre = length pre' ->
  weight_loop source dest d
    (range (Z.of_nat (length pre)) (Z.of_nat (length pre + length blk))) g
  = (match find (fun e => d =? dst e) blk with
     | Some e => Ok (sw e)
     | None =>
         Raise (TypeError ("Could not identify edge between " ++ source
                             ++ " and " ++ dest)%string)
     end, g).
Proof.
  induction blk as [|x blk IH]; intros pre post pre' post' g Hto Hw Hlen.
  - rewrite range_nil by (simpl; lia). reflexivity.
  - rewrite range_cons by (simpl length; lia). cbn [weight_loop].
    unfold bind, edge_to_at, edge_weight_at, lift. rewrite Hto. simpl app.
    simpl map. rewrite getitem_middle. cbn [find].
    destruct (d =? dst x).
    + rewrite Hw, Hlen. simpl. now rewrite getitem_middle.
    + specialize (IH (pre ++ [dst x]) post (pre' ++ [sw x]) post' g).
      rewrite length_app in IH. simpl length in IH.
      simpl length.
      replace (Z.of_nat (length pre) + 1) with (Z.of_nat (length pre + 1))
        by lia.
      replace (length pre + S (length blk))%nat
        with (length pre + 1 + length blk)%nat by lia.
      apply IH.
      * rewrite Hto, <- app_assoc. reflexivity.
      * rewrite Hw, <- app_assoc. reflexivity.
      * rewrite !length_app. simpl. lia.
Qed.

Lemma index_to_node_present i s g :
  dict_get Z.eqb i (index_to_node_map g) = Some s ->
  index_to_node i g = (Ok s, g).
Proof.
  intros H. unfold index_to_node.
  rewrite (defaultdict_getitem_present _ _ _ _ _ _ _ H). now destruct g.
Qed.

Lemma node_to_index_present a i g :
  dict_get String.eqb a (node_to_index_map g) = Some i ->
  node_to_index a g = (Ok i, g).
Proof.
  intros H. unfold node_to_index.
  rewrite (defaultdict_getitem_present _ _ _ _ _ _ _ H). now destruct g.
Qed.

Lemma neighbors_loop_block (dst : Edge.t -> Z) (lbl : Edge.t -> string) blk :
  forall pre post nbrs g,
  edge_to g = pre ++ map dst blk ++ post ->
  Forall (fun e => dict_get Z.eqb (dst e) (index_to_node_map g)
                   = Some (lbl e)) blk ->
  neighbors_loop
    (range (Z.of_nat (length pre)) (Z.of_nat (length pre + length blk)))
    nbrs g
  = (Ok (nbrs ++ map lbl blk), g).
Proof.
  induction blk as [|x blk IH]; intros pre post nbrs g Hto Hall.
  - rewrite range_nil by (simpl; lia). simpl. now rewrite app_nil_r.
  - rewrite range_cons by (simpl length; lia). cbn [neighbors_loop].
    inversion Hall as [|? ? Hx Hrest]; subst.
    unfold bind at 1. unfold edge_to_at, lift. rewrite Hto. simpl app.
    simpl map. rewrite getitem_middle.
    unfold bind at 1. rewrite (index_to_node_present _ _ _ Hx).
    specialize (IH (pre ++ [dst x]) post (nbrs ++ [lbl x]) g).
    rewrite length_app in IH. simpl length in IH.
    simpl length.
    replace (Z.of_nat (length pre) + 1) with (Z.of_nat (length pre + 1))
      by lia.
    replace (length pre + S (length blk))%nat
      with (length pre + 1 + length blk)%nat by lia.
    rewrite IH; [|rewrite Hto, <- app_assoc; reflexivity|assumption].
    now rewrite <- app_assoc.
Qed.

(** ** The record kept for a pair of labels *)

Lemma increasing_unique_edges l :
  increasing Edge.__lt__ l -> unique Edge.__eq__ l.
Proof.
  induction 1 as [|x r Hr IH Hx]; constructor; [|assumption].
  eapply Forall_impl; [|exact Hx]. intros y Hy. simpl in Hy.
  destruct (Edge.__eq__ x y) eqn:E; [|reflexivity].
  apply edge_eq_iff in E as [EA EB]. unfold Edge.__lt__ in Hy.
  rewrite EA, String.eqb_refl, EB, str_lt_irrefl in Hy. discriminate.
Qed.

Lemma same_key_eq a b w e :
  same_key a b e = Edge.__eq__ e (Edge.mk a b w).
Proof. reflexivity. Qed.

Lemma same_key_iff a b e :
  same_key a b e = true <-> Edge.nodeA e = a /\ Edge.nodeB e = b.
Proof. unfold same_key. rewrite andb_true_iff, !String.eqb_eq. tauto. Qed.

Lemma find_unique_key l a b e :
  unique Edge.__eq__ l -> In e l -> same_key a b e = true ->
  find (same_key a b) l = Some e.
Proof.
  intros Hu Hin Hk.
  rewrite <- (unique_find _ Edge.__eq__ edge_eq_refl l e Hu Hin).
  apply find_ext. intros y.
  apply same_key_iff in Hk as [<- <-]. reflexivity.
Qed.

Lemma find_same_key_none l a b :
  find (same_key a b) l = None <->
  forall e, In e l -> same_key a b e = false.
Proof.
  split.
  - intros H e He. exact (find_none _ _ H e He).
  - intros H. destruct (find (same_key a b) l) as [e|] eqn:F; [|reflexivity].
    apply find_some in F as [He Hk]. rewrite (H e He) in Hk. discriminate.
Qed.

Lemma records_first acc a b :
  find (same_key a b) (records acc)
  = option_map (fun t => Edge.mk a b (triple_weight t)) (first_line acc a b).
Proof.
  unfold first_line. induction acc as [|[[x y] w] acc IH]; [reflexivity|].
  cbn [records flat_map app find joins]. fold (records acc).
  unfold same_key at 1 2. cbn [Edge.nodeA Edge.nodeB triple_weight snd].
  destruct (String.eqb x a) eqn:E1, (String.eqb y b) eqn:E2,
           (String.eqb y a) eqn:E3, (String.eqb x b) eqn:E4;
    cbn [andb orb option_map]; try exact IH;
    repeat match goal with
           | H : String.eqb _ _ = true |- _ => apply String.eqb_eq in H
           end; subst; reflexivity.
Qed.

(** The record kept for [(a, b)] carries the weight of the first accepted
    line that joins [a] and [b]. *)
Theorem stored_record_first f a b :
  stored_record f a b
  = option_map (fun t => Edge.mk a b (triple_weight t))
      (first_line (accepted f) a b).
Proof.
  rewrite <- records_first. unfold stored_record.
  pose proof (add_all_find _ Edge.__eq__ edge_eq_trans (records (accepted f))
                [] (Edge.mk a b (S754_zero false))) as Hset.
  cbn [app] in Hset. fold (edge_set f) in Hset.
  change (fun y : Edge.t => Edge.__eq__ y (Edge.mk a b (S754_zero false)))
    with (same_key a b) in Hset.
  rewrite <- Hset.
  destruct (find (same_key a b) (edge_set f)) as [e|] eqn:F.
  - apply find_some in F as [He Hk].
    apply find_unique_key; [|now apply edge_list_In|assumption].
    apply increasing_unique_edges, edge_list_increasing.
  - apply find_same_key_none. intros e He. apply edge_list_In in He.
    exact (find_none _ _ F e He).
Qed.

(** ** The queries on a freshly built graph *)

Section Queries.
Variable f : list string.
Variable g : CSFGraph.
Hypothesis Hg : layout f g.

Let nl := node_list f.
Let el := edge_list f.
Let src := fun e : Edge.t => idx nl (Edge.nodeA e).
Let dst := fun e : Edge.t => idx nl (Edge.nodeB e).

Lemma block_decomposition k :
  exists A B C,
    el = A ++ B ++ C
    /\ B = filter (fun e => src e =? k) el
    /\ Z.of_nat (length A) = below nl el k
    /\ Z.of_nat (length A + length B) = below nl el (k + 1).
Proof.
  exists (filter (fun e => src e <? k) el),
         (filter (fun e => src e =? k) el),
         (filter (fun e => k <? src e) el).
  split; [|split; [reflexivity|split]].
  - apply blocks_split. apply edge_list_by_source.
  - reflexivity.
  - rewrite below_step. unfold below, degree, src. rewrite Nat2Z.inj_add. reflexivity.
Qed.

Lemma node_to_index_known a :
  In a nl -> node_to_index a g = (Ok (idx nl a), g).
Proof.
  intros Ha. apply node_to_index_present.
  destruct Hg as (-> & _). apply index_map_get; [|assumption].
  apply node_list_NoDup.
Qed.

Lemma offset_at_known k :
  0 <= k <= Z.of_nat (length nl) ->
  offset_at k g = (Ok (below nl el k), g).
Proof.
  intros Hk. unfold offset_at, lift.
  destruct Hg as (_ & _ & _ & _ & ->). now rewrite offsets_get.
Qed.

Lemma same_key_indices a b e :
  In a nl -> In b nl -> In e el ->
  (src e =? idx nl a) && (dst e =? idx nl b) = same_key a b e.
Proof.
  intros Ha Hb He. destruct (edge_list_nodes f e He) as [HA HB].
  pose proof (node_list_NoDup f) as Hnd. unfold same_key, src, dst.
  destruct (String.eqb_spec (Edge.nodeA e) a) as [->|HnA].
  - rewrite Z.eqb_refl. simpl.
    destruct (String.eqb_spec (Edge.nodeB e) b) as [->|HnB].
    + apply Z.eqb_refl.
    + apply Z.eqb_neq. intros E. apply HnB.
      now apply (idx_inj nl _ _ Hnd HB Hb).
  - rewrite andb_false_iff. left. apply Z.eqb_neq. intros E. apply HnA.
    now apply (idx_inj nl _ _ Hnd HA Ha).
Qed.

Lemma find_in_block a b :
  In a nl -> In b nl ->
  find (fun e => idx nl b =? dst e)
    (filter (fun e => src e =? idx nl a) el)
  = find (same_key a b) el.
Proof.
  intros Ha Hb.
  assert (Hall : forall e, In e el -> In e el) by auto.
  revert Hall. generalize el at 1 3 4. intros l.
  induction l as [|e r IH]; intros Hall; [reflexivity|].
  cbn [filter find].
  rewrite <- (same_key_indices a b e Ha Hb (Hall e (or_introl eq_refl))).
  rewrite (Z.eqb_sym (dst e)).
  destruct (src e =? idx nl a); cbn [find andb].
  - destruct (idx nl b =? dst e); [reflexivity|].
    apply IH. intros x Hx. apply Hall. now right.
  - apply IH. intros x Hx. apply Hall. now right.
Qed.

(** [has_edge] and [weight] for two labels of the graph: the record
    kept for the pair decides, and the graph is left as it was. *)
Theorem weight_known a b :
  In a nl -> In b nl ->
  weight a b g
  = (match stored_record f a b with
     | Some e => Ok (stored_weight e)
     | None =>
         Raise (TypeError ("Could not identify edge between " ++ a
                             ++ " and " ++ b)%string)
     end, g).
Proof.
  intros Ha Hb. pose proof (node_list_NoDup f) as Hnd.
  pose proof (idx_bounds nl a Hnd Ha) as Hia.
  unfold weight. unfold bind at 1. rewrite (node_to_index_known a Ha).
  unfold bind at 1. rewrite (node_to_index_known b Hb).
  unfold bind at 1. rewrite offset_at_known by lia.
  unfold bind at 1. rewrite offset_at_known by lia.
  destruct (block_decomposition (idx nl a)) as (A & B & C & Hel & HB & HlA & HlB).
  rewrite <- HlA, <- HlB.
  destruct Hg as (_ & _ & Hto & Hw & _). fold nl el in Hto, Hw.
  rewrite Hel, !map_app in Hto, Hw.
  rewrite <- (length_map dst A).
  rewrite (weight_loop_block a b (idx nl b) dst stored_weight B
             (map dst A) (map dst C) (map stored_weight A)
             (map stored_weight C) g Hto Hw)
    by now rewrite !length_map.
  rewrite HB, (find_in_block a b Ha Hb). reflexivity.
Qed.

Theorem has_edge_known a b :
  In a nl -> In b nl ->
  has_edge a b g
  = (Ok (match stored_record f a b with Some _ => true | None => false end),
     g).
Proof.
  intros Ha Hb. pose proof (node_list_NoDup f) as Hnd.
  pose proof (idx_bounds nl a Hnd Ha) as Hia.
  unfold has_edge. unfold bind at 1. rewrite (node_to_index_known a Ha).
  unfold bind at 1. rewrite (node_to_index_known b Hb).
  unfold bind at 1. rewrite offset_at_known by lia.
  unfold bind at 1. rewrite offset_at_known by lia.
  destruct (block_decomposition (idx nl a)) as (A & B & C & Hel & HB & HlA & HlB).
  rewrite <- HlA, <- HlB.
  destruct Hg as (_ & _ & Hto & _). fold nl el in Hto.
  rewrite Hel, !map_app in Hto.
  rewrite <- (length_map dst A), <- (length_map dst B).
  rewrite (has_edge_loop_block (idx nl b) (map dst B) (map dst A)
             (map dst C) g Hto).
  f_equal. f_equal. unfold stored_record. fold el.
  rewrite <- (find_in_block a b Ha Hb), <- HB.
  clear. induction B as [|e r IH]; [reflexivity|].
  cbn [map existsb find]. rewrite (Z.eqb_sym (dst e)).
  now destruct (idx nl b =? dst e).
Qed.

(** [neighbors] for a label of the graph: the destinations of the
    records that leave it, in sorted order. *)
Theorem neighbors_known a :
  In a nl ->
  neighbors a g
  = (Ok (map Edge.nodeB
           (filter (fun e => String.eqb (Edge.nodeA e) a) el)), g).
Proof.
  intros Ha. pose proof (node_list_NoDup f) as Hnd.
  pose proof (idx_bounds nl a Hnd Ha) as Hia.
  unfold neighbors. unfold bind at 1. rewrite (node_to_index_known a Ha).
  unfold bind at 1. rewrite offset_at_known by lia.
  unfold bind at 1. rewrite offset_at_known by lia.
  destruct (block_decomposition (idx nl a)) as (A & B & C & Hel & HB & HlA & HlB).
  rewrite <- HlA, <- HlB.
  destruct Hg as (_ & Hi2n & Hto & _). fold nl el in Hto, Hi2n.
  assert (HinB : forall e, In e B -> In e el).
  { intros e He. rewrite HB in He. now apply filter_In in He. }
  rewrite Hel, !map_app in Hto.
  rewrite <- (length_map dst A).
  rewrite (neighbors_loop_block dst Edge.nodeB B (map dst A) (map dst C)
             [] g Hto).
  - simpl. f_equal. f_equal. f_equal. rewrite HB.
    apply filter_ext_in. intros e He.
    destruct (edge_list_nodes f e He) as [HA _]. unfold src.
    destruct (String.eqb_spec (Edge.nodeA e) a) as [->|Hne].
    + apply Z.eqb_refl.
    + apply Z.eqb_neq. intros E. apply Hne.
      now apply (idx_inj nl _ _ Hnd HA Ha).
  - apply Forall_forall. intros e He. rewrite Hi2n.
    apply reverse_map_idx; [assumption|].
    now apply (edge_list_nodes f e (HinB e He)).
Qed.
End Queries.

(** ** [edges] on a freshly built graph *)

Lemma edges_inner_block (dst : Edge.t -> Z) (lbl : Edge.t -> string) src blk :
  forall pre post acc g,
  edge_to g = pre ++ map dst blk ++ post ->
  Forall (fun e => dict_get Z.eqb (dst e) (index_to_node_map g)
                   = Some (lbl e)) blk ->
  edges_inner src
    (range (Z.of_nat (length pre)) (Z.of_nat (length pre + length blk)))
    acc g
  = (Ok (acc ++ map (fun e => (src, lbl e)) blk), g).
Proof.
  induction blk as [|x blk IH]; intros pre post acc g Hto Hall.
  - rewrite range_nil by (simpl; lia). simpl. now rewrite app_nil_r.
  - rewrite range_cons by (simpl length; lia). cbn [edges_inner].
    inversion Hall as [|? ? Hx Hrest]; subst.
    unfold bind at 1. unfold edge_to_at, lift. rewrite Hto. simpl app.
    simpl map. rewrite getitem_middle.
    unfold bind at 1. rewrite (index_to_node_present _ _ _ Hx).
    specialize (IH (pre ++ [dst x]) post (acc ++ [(src, lbl x)]) g).
    rewrite length_app in IH. simpl length in IH.
    simpl length.
    replace (Z.of_nat (length pre) + 1) with (Z.of_nat (length pre + 1))
      by lia.
    replace (length pre + S (length blk))%nat
      with (length pre + 1 + length blk)%nat by lia.
    rewrite IH; [|rewrite Hto, <- app_assoc; reflexivity|assumption].
    now rewrite <- app_assoc.
Qed.

Section Blocks2.
Variable A : Type.
Variable key : A -> Z.

Lemma below_next k l :
  nondecreasing key l ->
  filter (fun x => key x <? k + 1) l
  = filter (fun x => key x <? k) l ++ filter (fun x => key x =? k) l.
Proof.
  induction 1 as [|x r Hr IH Hx]; [reflexivity|].
  cbn [filter].
  destruct (Z.ltb_spec (key x) (k + 1)) as [H1|H1];
  destruct (Z.ltb_spec (key x) k) as [H2|H2];
  destruct (Z.eqb_spec (key x) k) as [H3|H3]; try lia.
  - simpl. now rewrite IH.
  - rewrite IH. rewrite (filter_none _ (fun y => key y <? k) r).
    + reflexivity.
    + eapply Forall_impl; [|exact Hx]. intros y Hy. simpl in Hy.
      apply Z.ltb_ge. lia.
  - exact IH.
Qed.
End Blocks2.

Section Edges.
Variable f : list string.
Variable g : CSFGraph.
Hypothesis Hg : layout f g.

Let nl := node_list f.
Let el := edge_list f.
Let src := fun e : Edge.t => idx nl (Edge.nodeA e).
Let dst := fun e : Edge.t => idx nl (Edge.nodeB e).

Lemma prefix_next k :
  filter (fun e => src e <? k + 1) el
  = filter (fun e => src e <? k) el ++ filter (fun e => src e =? k) el.
Proof.
  apply below_next. apply edge_list_by_source.
Qed.

Lemma index_to_node_known k a :
  nth_error nl k = Some a ->
  index_to_node (Z.of_nat k) g = (Ok a, g).
Proof.
  intros Hk. apply index_to_node_present.
  destruct Hg as (_ & -> & _). fold nl.
  pose proof (node_list_NoDup f) as Hnd. fold nl in Hnd.
  rewrite <- (idx_nth nl k a Hnd Hk).
  apply reverse_map_idx; [assumption|].
  eapply nth_error_In; eassumption.
Qed.

Lemma edges_outer_from m : forall k,
  (k + m = length nl)%nat ->
  edges_outer (range (Z.of_nat k) (Z.of_nat (length nl)))
    (map pair_of (filter (fun e => src e <? Z.of_nat k) el)) g
  = (Ok (map pair_of (filter (fun e => src e <? Z.of_nat (length nl)) el)),
     g).
Proof.
  pose proof (node_list_NoDup f) as Hnd. fold nl in Hnd.
  induction m as [|m IH]; intros k Hk.
  - rewrite range_nil by lia. simpl.
    replace k with (length nl) by lia. reflexivity.
  - rewrite range_cons by lia. cbn [edges_outer].
    destruct (nth_error nl k) as [a|] eqn:Ha;
      [|apply nth_error_None in Ha; lia].
    unfold bind at 1. rewrite (index_to_node_known k a Ha).
    unfold bind at 1. rewrite (offset_at_known f g Hg) by (fold nl; lia).
    unfold bind at 1. rewrite (offset_at_known f g Hg) by (fold nl; lia).
    destruct (block_decomposition f (Z.of_nat k))
      as (A0 & B & C & Hel & HB & HlA & HlB).
    fold nl el in Hel, HB, HlA, HlB |- *. fold src in HB.
    rewrite <- HlA, <- HlB.
    assert (HinB : forall e, In e B -> In e el /\ src e = Z.of_nat k).
    { intros e He. rewrite HB in He. apply filter_In in He as [H1 H2].
      split; [assumption|]. now apply Z.eqb_eq. }
    destruct Hg as (_ & Hi2n & Hto & _). fold nl el in Hto, Hi2n.
    rewrite Hel, !map_app in Hto. fold dst in Hto.
    rewrite <- (length_map dst A0).
    unfold bind at 1.
    rewrite (edges_inner_block dst Edge.nodeB a B (map dst A0) (map dst C)
               _ g Hto).
    + replace (map (fun e => (a, Edge.nodeB e)) B) with (map pair_of B).
      * rewrite <- map_app, HB, <- prefix_next.
        replace (Z.of_nat k + 1) with (Z.of_nat (S k)) by lia.
        apply IH. lia.
      * apply map_ext_in. intros e He. destruct (HinB e He) as [Hin Hs].
        unfold pair_of. f_equal.
        destruct (edge_list_nodes f e Hin) as [HA _]. fold nl in HA.
        pose proof (nth_idx nl _ Hnd HA) as Hn. fold (src e) in Hn.
        rewrite Hs, Nat2Z.id in Hn. congruence.
    + apply Forall_forall. intros e He. rewrite Hi2n.
      apply reverse_map_idx; [assumption|].
      now apply (edge_list_nodes f e (proj1 (HinB e He))).
Qed.

(** [edges] lists the directed pair of every record kept, in sorted
    order, and leaves the graph as it was. *)
Theorem edges_known : edges g = (Ok (map pair_of el), g).
Proof.
  pose proof (node_list_NoDup f) as Hnd. fold nl in Hnd.
  unfold edges. unfold bind at 1. unfold lift.
  destruct Hg as (_ & _ & _ & _ & Hoff). rewrite Hoff. unfold offsets.
  rewrite length_map, range_length. fold nl.
  replace (Z.of_nat (Z.to_nat (Z.of_nat (length nl) + 1 - 0)) - 1)
    with (Z.of_nat (length nl)) by lia.
  pose proof (edges_outer_from (length nl) 0%nat eq_refl) as H.
  change (Z.of_nat 0) with 0 in H.
  rewrite (filter_none _ (fun e => src e <? 0)) in H.
  - simpl map in H. rewrite H. f_equal. f_equal. f_equal.
    apply filter_all. apply Forall_forall. intros e He.
    destruct (edge_list_nodes f e He) as [HA _]. fold nl in HA.
    pose proof (idx_bounds nl _ Hnd HA). apply Z.ltb_lt. unfold src. lia.
  - apply Forall_forall. intros e _. apply Z.ltb_ge. apply idx_nonneg.
Qed.
End Edges.

(** ** Counting the directed entries *)

Lemma NoDup_flat_map {A B} (h : A -> list B) l :
  NoDup l ->
  (forall x, In x l -> NoDup (h x)) ->
  (forall x y z, In x l -> In y l -> In z (h x) -> In z (h y) -> x = y) ->
  NoDup (flat_map h l).
Proof.
  induction 1 as [|x r Hx Hr IH]; intros Hh Hd; simpl; [constructor|].
  apply NoDup_app.
  - apply Hh. now left.
  - apply IH.
    + intros y Hy. apply Hh. now right.
    + intros y y' z Hy Hy'. apply Hd; now right.
  - intros z Hz Hz'. apply in_flat_map in Hz' as (y & Hy & Hzy).
    assert (x = y) by (apply (Hd x y z); auto; [now left|now right]).
    subst y. contradiction.
Qed.

Lemma unique_pairs_NoDup l :
  unique Edge.__eq__ l -> NoDup (map pair_of l).
Proof.
  induction 1 as [|x r Hx Hr IH]; simpl; constructor; [|assumption].
  intros Hin. apply in_map_iff in Hin as (y & Hy & Hyr).
  rewrite Forall_forall in Hx. specialize (Hx y Hyr).
  assert (Edge.__eq__ x y = true); [|congruence].
  apply edge_eq_iff. unfold pair_of in Hy. now injection Hy as -> ->.
Qed.

Lemma edge_set_pairs f p :
  In p (map pair_of (edge_set f))
  <-> exists a b w, In (a, b, w) (accepted f) /\ (p = (a, b) \/ p = (b, a)).
Proof.
  rewrite in_map_iff. split.
  - intros (e & <- & He). unfold edge_set in He.
    apply add_all_inv in He as [[]|He].
    apply records_In in He as (a & b & w & Ht & [-> | ->]);
      exists a, b, w; auto.
  - intros (a & b & w & Ht & Hp).
    assert (Hr : In (Edge.mk (fst p) (snd p) w) (records (accepted f))).
    { apply records_In. exists a, b, w. split; [assumption|].
      destruct Hp as [-> | ->]; auto. }
    destruct (add_all_has _ Edge.__eq__ edge_eq_refl _ [] _ Hr)
      as (y & Hy & Hyx).
    exists y. split; [|exact Hy].
    apply edge_eq_iff in Hyx as [HA HB]. simpl in HA, HB.
    unfold pair_of. rewrite HA, HB. now destruct p.
Qed.

Lemma directions_normal a b w p :
  In p (directions (normal_pair (a, b, w))) <-> p = (a, b) \/ p = (b, a).
Proof.
  unfold normal_pair, directions, is_loop.
  destruct (str_lt b a) eqn:Hba; cbn [fst snd].
  - destruct (String.eqb_spec b a) as [->|Hne].
    + now rewrite str_lt_irrefl in Hba.
    + simpl. intuition congruence.
  - destruct (String.eqb_spec a b) as [->|Hne]; simpl; intuition congruence.
Qed.

Lemma unordered_pairs_In acc u :
  In u (unordered_pairs acc) <-> exists t, In t acc /\ u = normal_pair t.
Proof.
  unfold unordered_pairs. rewrite nodup_In, in_map_iff.
  split; intros (t & H1 & H2); exists t; auto.
Qed.

Lemma normal_pair_canonical t :
  str_lt (snd (normal_pair t)) (fst (normal_pair t)) = false.
Proof.
  destruct t as [[a b] w]. unfold normal_pair.
  destruct (str_lt b a) eqn:Hba; cbn [fst snd]; [|assumption].
  now apply str_lt_asym.
Qed.

Lemma directions_NoDup p : NoDup (directions p).
Proof.
  unfold directions, is_loop.
  destruct (String.eqb_spec (fst p) (snd p)) as [E|E].
  - repeat constructor. intros [].
  - repeat constructor; [|intros []].
    intros [H|[]]. destruct p as [a b]. simpl in *. congruence.
Qed.

Lemma directions_In p z :
  In z (directions p) -> z = p \/ z = (snd p, fst p).
Proof.
  unfold directions. destruct (is_loop p); simpl; intuition.
Qed.

Lemma directions_disjoint u u' z :
  str_lt (snd u) (fst u) = false -> str_lt (snd u') (fst u') = false ->
  In z (directions u) -> In z (directions u') -> u = u'.
Proof.
  intros Hu Hu' Hz Hz'.
  apply directions_In in Hz. apply directions_In in Hz'.
  destruct u as [a b], u' as [a' b']. cbn [fst snd] in *.
  destruct Hz as [-> | ->], Hz' as [Hz'|Hz']; injection Hz' as E1 E2; subst.
  - reflexivity.
  - f_equal; now apply str_lt_connex.
  - f_equal; now apply str_lt_connex.
  - reflexivity.
Qed.

Lemma directions_length l :
  Z.of_nat (length (flat_map directions l))
  = 2 * Z.of_nat (length (filter (fun p => negb (is_loop p)) l))
    + Z.of_nat (length (filter is_loop l)).
Proof.
  induction l as [|p r IH]; [reflexivity|].
  cbn [flat_map filter]. rewrite length_app. unfold directions at 1.
  destruct (is_loop p); cbn [negb length]; lia.
Qed.

(** Every unordered pair of two different labels is kept in both
    directions, and a self-loop once. *)
Theorem edge_set_count f :
  Z.of_nat (length (edge_set f))
  = 2 * Z.of_nat (length (filter (fun p => negb (is_loop p))
                            (unordered_pairs (accepted f))))
    + Z.of_nat (length (filter is_loop (unordered_pairs (accepted f)))).
Proof.
  rewrite <- directions_length.
  rewrite <- (length_map pair_of (edge_set f)). f_equal.
  apply Permutation_length, NoDup_Permutation.
  - apply unique_pairs_NoDup, edge_set_unique.
  - apply NoDup_flat_map.
    + apply NoDup_nodup.
    + intros x _. apply directions_NoDup.
    + intros x y z Hx Hy. apply unordered_pairs_In in Hx as (t & _ & ->).
      apply unordered_pairs_In in Hy as (t' & _ & ->).
      apply directions_disjoint; apply normal_pair_canonical.
  - intros p. rewrite edge_set_pairs, in_flat_map. split.
    + intros (a & b & w & Ht & Hp).
      exists (normal_pair (a, b, w)). split.
      * apply unordered_pairs_In. eauto.
      * now apply directions_normal.
    + intros (u & Hu & Hp). apply unordered_pairs_In in Hu as ([[a b] w] & Ht & ->).
      exists a, b, w. split; [assumption|]. now apply directions_normal in Hp.
Qed.

Lemma edge_count_layout f g :
  layout f g ->
  edge_count g = (Ok (Z.of_nat (length (edge_set f))), g).
Proof.
  intros (_ & _ & Hto & _). unfold edge_count, lift. rewrite Hto.
  rewrite length_map. unfold edge_list. now rewrite sorted_length.
Qed.

Lemma node_count_layout f g :
  layout f g ->
  node_count g = (Ok (Z.of_nat (length (node_list f))), g).
Proof.
  intros (Hn & _). unfold node_count, lift. rewrite Hn. unfold index_map.
  rewrite length_combine, range_length. do 3 f_equal. lia.
Qed.

(** ** Adjacency blocks of a freshly built graph *)

Lemma skipn_length_app {A} (l1 l2 : list A) : skipn (length l1) (l1 ++ l2) = l2.
Proof. induction l1; simpl; auto. Qed.

Lemma firstn_length_app {A} (l1 l2 : list A) :
  firstn (length l1) (l1 ++ l2) = l1.
Proof. induction l1; simpl; [now destruct l2|now f_equal]. Qed.

Lemma Zlt_sorted_NoDup l : StronglySorted Z.lt l -> NoDup l.
Proof.
  induction 1 as [|x r Hr IH Hx]; constructor; [|assumption].
  intros Hin. rewrite Forall_forall in Hx. specialize (Hx x Hin). lia.
Qed.

Lemma offsets_nth nl el k :
  0 <= k <= Z.of_nat (length nl) ->
  nth (Z.to_nat k) (offsets nl el) 0 = below nl el k.
Proof.
  intros H. unfold offsets.
  pose proof (nth_map_range (below nl el) 0 (Z.of_nat (length nl) + 1) k 0)
    as E.
  rewrite Z.sub_0_r in E. apply E. lia.
Qed.

Section BlockFacts.
Variable f : list string.

Let nl := node_list f.
Let el := edge_list f.
Let src := fun e : Edge.t => idx nl (Edge.nodeA e).
Let dst := fun e : Edge.t => idx nl (Edge.nodeB e).

Lemma filter_source_label a :
  In a nl ->
  filter (fun e => src e =? idx nl a) el
  = filter (fun e => String.eqb (Edge.nodeA e) a) el.
Proof.
  intros Ha. pose proof (node_list_NoDup f) as Hnd.
  apply filter_ext_in. intros e He.
  destruct (edge_list_nodes f e He) as [HA _]. unfold src.
  destruct (String.eqb_spec (Edge.nodeA e) a) as [->|Hne].
  - apply Z.eqb_refl.
  - apply Z.eqb_neq. intros E. apply Hne.
    now apply (idx_inj nl _ _ Hnd HA Ha).
Qed.

Lemma block_destinations_sorted s : forall l,
  increasing Edge.__lt__ l ->
  (forall e, In e l -> In e el) ->
  StronglySorted Z.lt (map dst (filter (fun e => src e =? s) l)).
Proof.
  pose proof (node_list_NoDup f) as Hnd.
  pose proof (node_list_increasing f) as Hinc.
  induction 1 as [|x r Hr IH Hx]; intros Hin; [constructor|].
  cbn [filter].
  assert (Hrin : forall e, In e r -> In e el)
    by (intros e He; apply Hin; now right).
  destruct (Z.eqb_spec (src x) s) as [Hs|Hs]; [|now apply IH].
  cbn [map]. constructor; [now apply IH|].
  apply Forall_forall. intros d Hd.
  apply in_map_iff in Hd as (y & <- & Hy).
  apply filter_In in Hy as [Hy Hsy]. apply Z.eqb_eq in Hsy.
  rewrite Forall_forall in Hx. specialize (Hx y Hy).
  destruct (edge_list_nodes f x (Hin x (or_introl eq_refl))) as [HxA HxB].
  destruct (edge_list_nodes f y (Hrin y Hy)) as [HyA HyB].
  assert (EA : Edge.nodeA x = Edge.nodeA y).
  { apply (idx_inj nl _ _ Hnd HxA HyA). unfold src in *. congruence. }
  unfold Edge.__lt__ in Hx. rewrite EA, String.eqb_refl in Hx.
  now apply (idx_mono nl _ _ Hinc HxB HyB).
Qed.

Variable g : CSFGraph.
Hypothesis Hg : layout f g.

Lemma adjacency_block_known s :
  0 <= s < Z.of_nat (length nl) ->
  adjacency_block g s = map dst (filter (fun e => src e =? s) el).
Proof.
  intros Hs. unfold adjacency_block.
  destruct (block_decomposition f s) as (A & B & C & Hel & HB & HlA & HlB).
  fold nl el in Hel, HB, HlA, HlB. fold src in HB.
  destruct Hg as (_ & _ & Hto & _ & Hoff). fold nl el in Hto, Hoff.
  rewrite Hoff, !offsets_nth by lia.
  rewrite <- HlA, <- HlB, Hto.
  replace (filter (fun e => src e =? s) el) with B by exact HB.
  rewrite Hel. rewrite !map_app. fold dst.
  replace (Z.to_nat (Z.of_nat (length A))) with (length (map dst A))
    by (rewrite length_map; lia).
  rewrite skipn_length_app.
  replace (Z.to_nat (Z.of_nat (length A + length B) - Z.of_nat (length A)))
    with (length (map dst B)) by (rewrite length_map; lia).
  apply firstn_length_app.
Qed.

Lemma stored_record_In a b e :
  stored_record f a b = Some e ->
  In e el /\ Edge.nodeA e = a /\ Edge.nodeB e = b.
Proof.
  intros H. apply find_some in H as [He Hk].
  apply same_key_iff in Hk. tauto.
Qed.
End BlockFacts.

(** ** The first line of a pair *)

Lemma joins_sym a b t : joins a b t = joins b a t.
Proof.
  destruct t as [[x y] w]. unfold joins.
  now destruct (String.eqb x a), (String.eqb y b), (String.eqb y a),
               (String.eqb x b).
Qed.

Lemma first_line_sym acc a b : first_line acc a b = first_line acc b a.
Proof. apply find_ext. intros t. apply joins_sym. Qed.

Lemma joins_self a b w : joins a b (a, b, w) = true.
Proof. unfold joins. now rewrite !String.eqb_refl. Qed.

Lemma first_line_exists acc a b w :
  In (a, b, w) acc -> exists t, first_line acc a b = Some t.
Proof.
  intros H. unfold first_line.
  destruct (find (joins a b) acc) as [t|] eqn:F; [eauto|].
  pose proof (find_none _ _ F _ H) as Hn. now rewrite joins_self in Hn.
Qed.

Lemma accepted_nodes f a b w :
  In (a, b, w) (accepted f) -> In a (node_list f) /\ In b (node_list f).
Proof.
  intros H. rewrite !node_list_In, !endpoints_In.
  split; exists a, b, w; auto.
Qed.

Lemma stored_weight_ok e :
  storable e = true -> Np.int32_of_float (Edge.weight e) = Ok (stored_weight e).
Proof.
  unfold storable, stored_weight.
  now destruct (Np.int32_of_float (Edge.weight e)).
Qed.

(** ** When the constructor succeeds *)

Lemma set_add_length {A} (eq : A -> A -> bool) x s :
  (length (set_add eq x s) <= S (length s))%nat.
Proof.
  unfold set_add. destruct (existsb _ s); [lia|].
  rewrite length_app. simpl. lia.
Qed.

Lemma add_all_length {A} (eq : A -> A -> bool) xs : forall s,
  (length (add_all eq xs s) <= length s + length xs)%nat.
Proof.
  induction xs as [|x xs IH]; intros s; simpl; [lia|].
  pose proof (IH (set_add eq x s)). pose proof (set_add_length eq x s). lia.
Qed.

Lemma endpoints_length acc : length (endpoints acc) = (2 * length acc)%nat.
Proof.
  induction acc as [|[[a b] w] r IH]; simpl; [reflexivity|]. rewrite IH. lia.
Qed.

Lemma records_length acc : length (records acc) = (2 * length acc)%nat.
Proof.
  induction acc as [|[[a b] w] r IH]; simpl; [reflexivity|]. rewrite IH. lia.
Qed.

(** The constructor returns a graph when every weight kept can be stored
    and the counts fit the arrays. *)
Theorem build_succeeds f :
  Forall (fun e => storable e = true) (edge_list f) ->
  2 * Z.of_nat (length (accepted f)) <= Np.int32_max ->
  exists g, build f = Ok g /\ layout f g.
Proof.
  intros Hst Hlen. pose proof (build_spec f) as S.
  destruct (build f) as [g|x]; [exists g; tauto|].
  destruct S as [_ S]. destruct S. split; [assumption|].
  unfold edge_list, node_list. rewrite !sorted_length.
  pose proof (add_all_length String.eqb (endpoints (accepted f)) []) as H1.
  pose proof (add_all_length Edge.__eq__ (records (accepted f)) []) as H2.
  rewrite endpoints_length in H1. rewrite records_length in H2.
  unfold node_set, edge_set. simpl in H1, H2. lia.
Qed.

(** * The specification, claim by claim *)

Local Open Scope string_scope.

(** ** C1: symmetry and weights *)

(** C1, as stated, fails.  In the file "a b 1.5", "a b 5.0" both lines are
    accepted, and for neither of them does [weight] return the parsed
    weight: it returns 1 for both, the integer part of the first weight. *)
Lemma C1_weight_is_not_parsed :
  exists w1 w5,
    accepted file_fraction_then_five = [("a", "b", w1); ("a", "b", w5)]
    /\ ~ weight_is_parsed file_fraction_then_five "a" "b" w1
    /\ ~ weight_is_parsed file_fraction_then_five "a" "b" w5.
Proof.
  eexists. eexists. split; [vm_compute; reflexivity|].
  unfold weight_is_parsed.
  destruct (build file_fraction_then_five) as [g|x] eqn:E;
    [|vm_compute in E; discriminate].
  vm_compute in E. injection E as <-.
  split; intros H; specialize (H _ eq_refl);
    destruct H as (_ & _ & (v & Hv & Hq) & _);
    vm_compute in Hv; injection Hv as <-; vm_compute in Hq; discriminate.
Qed.

(** C1, amended: for every accepted line [(a, b, w)] of a file from which
    a graph is built, [has_edge(a, b)] and [has_edge(b, a)] return true,
    and [weight(a, b)] and [weight(b, a)] return the same integer: the
    weight of the first accepted line that joins [a] and [b], as stored in
    the [int32] array (its integer part, on 32 bits).  The queries leave
    the graph unchanged. *)
Theorem C1_symmetry f g a b w :
  build f = Ok g ->
  In (a, b, w) (accepted f) ->
  exists t v,
    first_line (accepted f) a b = Some t
    /\ Np.int32_of_float (triple_weight t) = Ok v
    /\ has_edge a b g = (Ok true, g)
    /\ has_edge b a g = (Ok true, g)
    /\ weight a b g = (Ok v, g)
    /\ weight b a g = (Ok v, g).
Proof.
  intros Hb Hin.
  pose proof (build_layout f g Hb) as Hg.
  pose proof (build_storable f g Hb) as Hst. rewrite Forall_forall in Hst.
  destruct (accepted_nodes f a b w Hin) as [Ha Hbn].
  destruct (first_line_exists _ a b w Hin) as (t & Ht).
  assert (Hab : stored_record f a b = Some (Edge.mk a b (triple_weight t)))
    by (rewrite stored_record_first, Ht; reflexivity).
  assert (Hba : stored_record f b a = Some (Edge.mk b a (triple_weight t)))
    by (rewrite stored_record_first, <- first_line_sym, Ht; reflexivity).
  pose proof (proj1 (stored_record_In f a b _ Hab)) as Hin1.
  pose proof (proj1 (stored_record_In f b a _ Hba)) as Hin2.
  pose proof (stored_weight_ok _ (Hst _ Hin1)) as Hw1.
  pose proof (stored_weight_ok _ (Hst _ Hin2)) as Hw2.
  cbn [Edge.weight] in Hw1, Hw2.
  exists t, (stored_weight (Edge.mk a b (triple_weight t))).
  split; [assumption|]. split; [assumption|].
  rewrite (has_edge_known f g Hg a b Ha Hbn), Hab.
  rewrite (has_edge_known f g Hg b a Hbn Ha), Hba.
  rewrite (weight_known f g Hg a b Ha Hbn), Hab.
  rewrite (weight_known f g Hg b a Hbn Ha), Hba.
  repeat split.
Qed.

Lemma C1_symmetry_witness :
  exists g w5,
    build file_fraction_then_five = Ok g
    /\ In ("a", "b", w5) (accepted file_fraction_then_five)
    /\ exists t v,
         first_line (accepted file_fraction_then_five) "a" "b" = Some t
         /\ Np.int32_of_float (triple_weight t) = Ok v
         /\ has_edge "a" "b" g = (Ok true, g)
         /\ has_edge "b" "a" g = (Ok true, g)
         /\ weight "a" "b" g = (Ok v, g)
         /\ weight "b" "a" g = (Ok v, g).
Proof.
  eexists. eexists.
  assert (Hb : build file_fraction_then_five = Ok _)
    by (vm_compute; reflexivity).
  assert (Hin : In ("a", "b", _) (accepted file_fraction_then_five))
    by (vm_compute; right; left; reflexivity).
  split; [exact Hb|]. split; [exact Hin|].
  exact (C1_symmetry _ _ _ _ _ Hb Hin).
Defined.

(** ** C2: queries are read-only *)

(** C2 fails on the code: [has_edge] with a label that is not in the
    graph inserts that label in [node_to_index_map], and [node_count()]
    goes from 2 to 3. *)
Theorem C2_has_edge_inserts_label :
  exists g g',
    build file_one_edge = Ok g
    /\ has_edge "z" "a" g = (Ok false, g')
    /\ node_to_index_map g = [("a", 0); ("b", 1)]
    /\ node_to_index_map g' = [("a", 0); ("b", 1); ("z", 0)]
    /\ node_count g = (Ok 2, g)
    /\ node_count g' = (Ok 3, g').
Proof.
  eexists. eexists. split; [vm_compute; reflexivity|].
  split; [vm_compute; reflexivity|]. repeat split.
Qed.

(** ** C3: [weight] of a missing edge *)

(** C3 fails on the code: in the graph of the file "a b 1" no edge from
    "z" to "b" is stored, and [weight("z", "b")] returns 1, the weight of
    the edge from "a" to "b". *)
Theorem C3_weight_of_unknown_label :
  exists g,
    build file_one_edge = Ok g
    /\ edges g = (Ok [("a", "b"); ("b", "a")], g)
    /\ stored_record file_one_edge "z" "b" = None
    /\ fst (weight "z" "b" g) = Ok 1.
Proof.
  eexists. split; [vm_compute; reflexivity|]. repeat split.
Qed.

(** ** C4: the number of directed entries *)

(** C4, as stated, fails: the file "a a 1.0" has one unordered pair and
    [edge_count()] is 1, not 2. *)
Lemma C4_self_loop_counted_once : ~ edge_count_is_twice file_self_loop.
Proof.
  unfold edge_count_is_twice. intros H.
  destruct (build file_self_loop) as [g|x] eqn:E;
    [|vm_compute in E; discriminate].
  specialize (H g eq_refl). vm_compute in E. injection E as <-.
  vm_compute in H. discriminate.
Qed.

(** C4, amended: [edge_count()] is twice the number of distinct unordered
    pairs of two different labels among the accepted lines, plus the
    number of distinct self-loops: a pair of different labels gives two
    directed entries, a self-loop one. *)
Theorem C4_edge_count f g :
  build f = Ok g ->
  edge_count g
  = (Ok (2 * Z.of_nat (length (filter (fun p => negb (is_loop p))
                                 (unordered_pairs (accepted f))))
         + Z.of_nat (length (filter is_loop (unordered_pairs (accepted f))))),
     g).
Proof.
  intros Hb. rewrite (edge_count_layout f g (build_layout f g Hb)).
  now rewrite edge_set_count.
Qed.

Lemma C4_edge_count_witness :
  exists g,
    build file_scenario = Ok g
    /\ edge_count g
       = (Ok (2 * Z.of_nat (length (filter (fun p => negb (is_loop p))
                                (unordered_pairs (accepted file_scenario))))
              + Z.of_nat (length (filter is_loop
                                (unordered_pairs (accepted file_scenario))))),
          g).
Proof.
  eexists.
  assert (Hb : build file_scenario = Ok _) by (vm_compute; reflexivity).
  split; [exact Hb|]. exact (C4_edge_count _ _ Hb).
Defined.

(** ** C5: the offset array *)

(** C5: in a freshly built graph with [n] nodes the offset array has
    [n + 1] entries, starts at 0 and never decreases; for every node index
    [i] the difference of two consecutive offsets is the number of
    neighbours [neighbors] returns for the label of index [i], and a node
    that no stored record leaves has an empty block. *)
Theorem C5_offsets f g :
  build f = Ok g ->
  exists n,
    node_count g = (Ok n, g)
    /\ Z.of_nat (length (offset_to_edge_ g)) = n + 1
    /\ Np.getitem (offset_to_edge_ g) 0 = Ok 0
    /\ (forall i j, 0 <= i -> i <= j -> j <= n ->
          exists x y,
            Np.getitem (offset_to_edge_ g) i = Ok x
            /\ Np.getitem (offset_to_edge_ g) j = Ok y
            /\ x <= y)
    /\ (forall i, 0 <= i < n ->
          exists label nbrs x y,
            dict_get Z.eqb i (index_to_node_map g) = Some label
            /\ neighbors label g = (Ok nbrs, g)
            /\ Np.getitem (offset_to_edge_ g) i = Ok x
            /\ Np.getitem (offset_to_edge_ g) (i + 1) = Ok y
            /\ y - x = Z.of_nat (length nbrs)
            /\ ((forall e, In e (edge_list f) -> Edge.nodeA e <> label) ->
                x = y)).
Proof.
  intros Hb. pose proof (build_layout f g Hb) as Hg.
  pose proof (node_list_NoDup f) as Hnd.
  exists (Z.of_nat (length (node_list f))).
  destruct Hg as (Hn2i & Hi2n & Hto & Hw & Hoff).
  assert (Hg : layout f g) by (repeat split; assumption).
  split; [now apply node_count_layout|].
  rewrite Hoff.
  split; [unfold offsets; rewrite length_map, range_length; lia|].
  split; [rewrite offsets_get by lia; now rewrite below_0|].
  split.
  - intros i j Hi Hij Hj.
    exists (below (node_list f) (edge_list f) i),
           (below (node_list f) (edge_list f) j).
    rewrite !offsets_get by lia. repeat split. now apply below_mono.
  - intros i Hi.
    destruct (nth_error (node_list f) (Z.to_nat i)) as [a|] eqn:Ha;
      [|apply nth_error_None in Ha; lia].
    assert (Hin : In a (node_list f)) by (eapply nth_error_In; eassumption).
    assert (Hidx : idx (node_list f) a = i)
      by (rewrite (idx_nth _ _ _ Hnd Ha); lia).
    exists a,
      (map Edge.nodeB
         (filter (fun e => String.eqb (Edge.nodeA e) a) (edge_list f))),
      (below (node_list f) (edge_list f) i),
      (below (node_list f) (edge_list f) (i + 1)).
    split; [rewrite Hi2n, <- Hidx; now apply reverse_map_idx|].
    split; [now apply neighbors_known|].
    rewrite !offsets_get by lia. repeat split.
    + rewrite below_step, length_map, <- filter_source_label by assumption.
      rewrite Hidx. unfold degree. lia.
    + intros Hnone. rewrite below_step. unfold degree.
      rewrite filter_none; [simpl; lia|].
      apply Forall_forall. intros e He. apply Z.eqb_neq. intros E.
      apply (Hnone e He).
      apply (idx_inj (node_list f) _ _ Hnd); [|assumption|congruence].
      now apply edge_list_nodes.
Qed.

Lemma C5_offsets_witness :
  exists g,
    build file_scenario = Ok g
    /\ exists n,
         node_count g = (Ok n, g)
         /\ Z.of_nat (length (offset_to_edge_ g)) = n + 1
         /\ Np.getitem (offset_to_edge_ g) 0 = Ok 0
         /\ (forall i j, 0 <= i -> i <= j -> j <= n ->
               exists x y,
                 Np.getitem (offset_to_edge_ g) i = Ok x
                 /\ Np.getitem (offset_to_edge_ g) j = Ok y
                 /\ x <= y)
         /\ (forall i, 0 <= i < n ->
               exists label nbrs x y,
                 dict_get Z.eqb i (index_to_node_map g) = Some label
                 /\ neighbors label g = (Ok nbrs, g)
                 /\ Np.getitem (offset_to_edge_ g) i = Ok x
                 /\ Np.getitem (offset_to_edge_ g) (i + 1) = Ok y
                 /\ y - x = Z.of_nat (length nbrs)
                 /\ ((forall e, In e (edge_list file_scenario) ->
                        Edge.nodeA e <> label) -> x = y)).
Proof.
  eexists.
  assert (Hb : build file_scenario = Ok _) by (vm_compute; reflexivity).
  split; [exact Hb|]. exact (C5_offsets _ _ Hb).
Defined.

(** ** C6: malformed lines *)

(** C6 fails on the code: the line "a b nan" has three fields and a
    weight that [float] accepts, and the constructor raises when the
    weight is stored in the [int32] array. *)
Theorem C6_nan_weight_aborts :
  well_formed "a b nan" = true
  /\ accepted file_nan = [("a", "b", S754_nan)]
  /\ build file_nan
     = Raise (ValueError "cannot convert float NaN to integer").
Proof. repeat split. Qed.

(** ** C7: the same pair on two lines *)





(** ** C8: the argument of the constructor *)

(** The three guards of the constructor: [None], a value that is not a
    [str], a path that does not exist. *)
Lemma init_argument_errors fs x :
  (x = PyNone \/ (forall p, x <> PyStr p)
   \/ exists p, x = PyStr p /\ fs p = None) ->
  exists msg, __init__ fs x = Raise (TypeError msg).
Proof.
  intros [->|[H|(p & -> & Hp)]].
  - simpl. eauto.
  - destruct x; simpl; eauto. destruct (H s). reflexivity.
  - simpl. rewrite Hp. eauto.
Qed.

(** For a file that exists the constructor returns a graph when every
    weight kept can be stored and the counts fit the arrays. *)
Lemma init_succeeds fs p f :
  fs p = Some f ->
  Forall (fun e => storable e = true) (edge_list f) ->
  2 * Z.of_nat (length (accepted f)) <= Np.int32_max ->
  exists g, __init__ fs (PyStr p) = Ok g /\ layout f g.
Proof. intros Hp Hs Hl. simpl. rewrite Hp. now apply build_succeeds. Qed.

(** C8 fails on the code: "graph.txt" exists and holds the line
    "a b nan"; the argument is a [str]; the constructor raises all the
    same, with a [ValueError] from the store of the weight. *)
Theorem C8_existing_file_raises :
  disk_nan "graph.txt" = Some file_nan
  /\ __init__ disk_nan (PyStr "graph.txt")
     = Raise (ValueError "cannot convert float NaN to integer").
Proof. split; reflexivity. Qed.

(** ** C9: no destination twice in a block *)

(** C9: in a freshly built graph, the adjacency block of a node index [s]
    holds every destination index [d] at most once. *)
Theorem C9_no_duplicate_destination f g s d :
  build f = Ok g ->
  0 <= s < Z.of_nat (length (node_to_index_map g)) ->
  (count_occ Z.eq_dec (adjacency_block g s) d <= 1)%nat.
Proof.
  intros Hb Hs. pose proof (build_layout f g Hb) as Hg.
  assert (Hn : length (node_to_index_map g) = length (node_list f)).
  { destruct Hg as (-> & _). unfold index_map.
    rewrite length_combine, range_length. lia. }
  rewrite Hn in Hs.
  rewrite (adjacency_block_known f g Hg s Hs).
  apply NoDup_count_occ, Zlt_sorted_NoDup.
  apply block_destinations_sorted; [apply edge_list_increasing|auto].
Qed.

Lemma C9_no_duplicate_destination_witness :
  exists g,
    build file_scenario = Ok g
    /\ 0 <= 0 < Z.of_nat (length (node_to_index_map g))
    /\ (count_occ Z.eq_dec (adjacency_block g 0) 1%Z <= 1)%nat.
Proof.
  eexists.
  assert (Hb : build file_scenario = Ok _) by (vm_compute; reflexivity).
  split; [exact Hb|].
  assert (Hs : 0 <= 0 < Z.of_nat 3) by lia.
  split; [exact Hs|].
  exact (C9_no_duplicate_destination _ _ 0 1 Hb Hs).
Defined.

(** ** C10: weights are stored as 32-bit integers *)

Lemma wrap32_small n : Np.in_int32 n = true -> Np.wrap32 n = n.
Proof.
  intros H. apply in_int32_iff in H.
  unfold Np.wrap32, Np.int32_min, Np.int32_max in *.
  rewrite Z.mod_small by lia. lia.
Qed.

Lemma int32_of_float_inv x v :
  Np.int32_of_float x = Ok v ->
  exists n, int_of_float x = Ok n /\ v = Np.wrap32 n.
Proof.
  unfold Np.int32_of_float. destruct (int_of_float x) as [n|e]; simpl;
    [|discriminate].
  destruct ((Np.long_min <=? n)%Z && (n <=? Np.long_max)%Z); [|discriminate].
  intros [= <-]. eauto.
Qed.

Lemma Ok_inj {A} (a b : A) : Ok a = Ok b -> a = b.
Proof. congruence. Qed.

(** [int(x)] is the value of [x] truncated to an integer. *)
Lemma int_of_float_truncated x n :
  int_of_float x = Ok n ->
  exists q, float_value x = Some q /\ truncated q n.
Proof.
  destruct x as [s|s| |s m e]; unfold int_of_float, float_value;
    try discriminate.
  - intros H. apply Ok_inj in H. subst n. eexists. split; [reflexivity|].
    unfold truncated, Qle, Qlt. cbn [Qnum Qden inject_Z]. lia.
  - intros H. cbv zeta in H |- *. apply Ok_inj in H. subst n.
    eexists. split; [reflexivity|].
    unfold truncated, Qle, Qlt.
    destruct (0 <=? e)%Z eqn:He; cbn [Qnum Qden inject_Z].
    + assert (0 < 2 ^ e)%Z by (apply Z.pow_pos_nonneg; lia).
      destruct s; [change (Z.neg m) with (- Z.pos m)%Z|]; nia.
    + apply Z.leb_gt in He.
      rewrite Pos2Z.inj_pow, Z2Pos.id by lia.
      assert (Hd : (0 < 2 ^ (- e))%Z) by (apply Z.pow_pos_nonneg; lia).
      pose proof (Z.div_mod (Z.pos m) (2 ^ (- e)) ltac:(lia)) as D.
      pose proof (Z.mod_pos_bound (Z.pos m) (2 ^ (- e)) Hd) as B.
      set (d := (2 ^ (- e))%Z) in *. set (a := (Z.pos m / d)%Z) in *.
      destruct s; [change (Z.neg m) with (- Z.pos m)%Z|]; nia.
Qed.

(** A number has one truncation. *)
Lemma truncated_unique q n n' : truncated q n -> truncated q n' -> n = n'.
Proof.
  unfold truncated, Qle, Qlt. cbn [Qnum Qden inject_Z].
  destruct q as [a b]. cbn [Qnum Qden]. intros H1 H2.
  assert (Hb : (0 < Z.pos b)%Z) by lia.
  destruct (Z.le_ge_cases 0 a) as [Ha|Ha].
  - destruct H1 as [H1 _], H2 as [H2 _]. nia.
  - destruct H1 as [_ H1], H2 as [_ H2]. nia.
Qed.

(** The C conversion keeps the low 32 bits. *)
Lemma wrap32_congruent n :
  (- 2 ^ 31 <= Np.wrap32 n < 2 ^ 31)%Z
  /\ exists k, Np.wrap32 n = (n + k * 2 ^ 32)%Z.
Proof.
  unfold Np.wrap32.
  pose proof (Z.mod_pos_bound (n + 2 ^ 31) (2 ^ 32) ltac:(lia)) as B.
  pose proof (Z.div_mod (n + 2 ^ 31) (2 ^ 32) ltac:(lia)) as D.
  split; [lia|]. exists (- ((n + 2 ^ 31) / 2 ^ 32))%Z. lia.
Qed.

(** C10, as stated, fails.  The line "a b 3e9" is accepted, its weight
    is the number 3000000000, the graph is built and keeps the edge, and
    [weight("a", "b")] returns -1294967296, which is not 3000000000
    truncated to an integer. *)
Lemma C10_large_weight_not_truncated :
  exists w q,
    accepted file_three_billion = [("a", "b", w)]
    /\ float_value w = Some q
    /\ (q == inject_Z 3000000000)%Q
    /\ In (Edge.mk "a" "b" w) (edge_list file_three_billion)
    /\ (exists g, build file_three_billion = Ok g
                  /\ fst (weight "a" "b" g) = Ok (-1294967296)%Z)
    /\ ~ weight_is_truncated file_three_billion (Edge.mk "a" "b" w).
Proof.
  eexists. eexists.
  split; [vm_compute; reflexivity|].
  split; [vm_compute; reflexivity|].
  split; [vm_compute; reflexivity|].
  assert (He : In (Edge.mk "a" "b" (S754_finite false 6291456000000000 (-21)))
                 (edge_list file_three_billion))
    by (vm_compute; left; reflexivity).
  split; [exact He|].
  split; [eexists; split; [vm_compute; reflexivity|reflexivity]|].
  intros H. specialize (H He).
  destruct (build file_three_billion) as [g|x] eqn:E;
    [|vm_compute in E; discriminate].
  specialize (H g eq_refl). vm_compute in E. apply Ok_inj in E. subst g.
  destruct H as (q & v & Hq & Hv & [Hpos _]).
  vm_compute in Hq. injection Hq as <-.
  vm_compute in Hv. apply Ok_inj in Hv. subst v.
  destruct Hpos as [_ Hlt]; [vm_compute; discriminate|].
  vm_compute in Hlt. discriminate.
Qed.

(** C10, amended: for every record kept, with weight [w],
    [weight(source, dest)] returns a 32-bit integer, not [w]: the number
    [w] truncated to an integer (rounded toward zero) whenever that
    integer lies in the [int32] range, and otherwise that integer reduced
    modulo 2^32 into the range.  The graph is left as it was. *)
Theorem C10_weight_is_integer_part f g e :
  build f = Ok g ->
  In e (edge_list f) ->
  exists q n v,
    float_value (Edge.weight e) = Some q
    /\ truncated q n
    /\ weight (Edge.nodeA e) (Edge.nodeB e) g = (Ok v, g)
    /\ (- 2 ^ 31 <= v < 2 ^ 31)%Z
    /\ (exists k, v = (n + k * 2 ^ 32)%Z)
    /\ ((- 2 ^ 31 <= n < 2 ^ 31)%Z -> v = n).
Proof.
  intros Hb He. pose proof (build_layout f g Hb) as Hg.
  pose proof (build_storable f g Hb) as Hst. rewrite Forall_forall in Hst.
  destruct (edge_list_nodes f e He) as [HA HB].
  pose proof (stored_weight_ok e (Hst e He)) as Hw.
  destruct (int32_of_float_inv _ _ Hw) as (n & Hn & Hv).
  destruct (int_of_float_truncated _ _ Hn) as (q & Hq & Ht).
  assert (Hrec : stored_record f (Edge.nodeA e) (Edge.nodeB e) = Some e).
  { apply find_unique_key; [|assumption|now apply same_key_iff].
    apply increasing_unique_edges, edge_list_increasing. }
  destruct (wrap32_congruent n) as [Hr Hk].
  exists q, n, (Np.wrap32 n).
  split; [assumption|]. split; [assumption|].
  split; [now rewrite (weight_known f g Hg _ _ HA HB), Hrec, Hv|].
  split; [assumption|]. split; [assumption|].
  intros Hin. apply wrap32_small, in_int32_iff.
  unfold Np.int32_min, Np.int32_max. lia.
Qed.

Lemma C10_weight_is_integer_part_witness :
  exists g w,
    build ["a b -2.75"%string] = Ok g
    /\ float_of_str "-2.75" = Ok w
    /\ In (Edge.mk "a" "b" w) (edge_list ["a b -2.75"%string])
    /\ exists q n v,
         float_value w = Some q
         /\ truncated q n
         /\ weight "a" "b" g = (Ok v, g)
         /\ (- 2 ^ 31 <= v < 2 ^ 31)%Z
         /\ (exists k, v = (n + k * 2 ^ 32)%Z)
         /\ ((- 2 ^ 31 <= n < 2 ^ 31)%Z -> v = n).
Proof.
  eexists. eexists.
  assert (Hb : build ["a b -2.75"%string] = Ok _) by (vm_compute; reflexivity).
  assert (Hw : float_of_str "-2.75" = Ok _) by (vm_compute; reflexivity).
  assert (He : In (Edge.mk "a" "b" _) (edge_list ["a b -2.75"%string]))
    by (vm_compute; left; reflexivity).
  split; [exact Hb|]. split; [exact Hw|]. split; [exact He|].
  exact (C10_weight_is_integer_part _ _ _ Hb He).
Defined.

(** The weights 2.75 and -2.75 are the numbers 11/4 and -11/4, and are
    read back as 2 and -2. *)
Example weights_truncate_toward_zero :
  exists g w w',
    build file_fractions = Ok g
    /\ accepted file_fractions = [("a", "b", w); ("c", "d", w')]
    /\ (exists q, float_value w = Some q /\ (q == 11 # 4)%Q)
    /\ (exists q, float_value w' = Some q /\ (q == - 11 # 4)%Q)
    /\ fst (weight "a" "b" g) = Ok 2%Z
    /\ fst (weight "c" "d" g) = Ok (-2)%Z.
Proof.
  do 3 eexists. split; [vm_compute; reflexivity|].
  split; [vm_compute; reflexivity|].
  split; [eexists; split; [vm_compute; reflexivity|vm_compute; reflexivity]|].
  split; [eexists; split; [vm_compute; reflexivity|vm_compute; reflexivity]|].
  split; reflexivity.
Qed.

(** The weight 1.5 is read back as 1. *)
Example weight_one_and_a_half :
  exists g,
    build ["a b 1.5"%string] = Ok g /\ fst (weight "a" "b" g) = Ok 1.
Proof. eexists. split; [vm_compute; reflexivity|reflexivity]. Qed.

(** * Further properties of the graph *)

Lemma keys_combine_l {K V} (ks : list K) (vs : list V) :
  length ks = length vs -> keys (combine ks vs) = ks.
Proof.
  revert vs. induction ks as [|k ks IH]; intros [|v vs] H; simpl in *;
    try discriminate; [reflexivity|]. f_equal. apply IH. lia.
Qed.

Lemma keys_index_map nl : keys (index_map nl) = nl.
Proof.
  unfold index_map. apply keys_combine_l. rewrite range_length. lia.
Qed.

Lemma keys_reverse_map nl :
  keys (reverse_map nl) = range 0 (Z.of_nat (length nl)).
Proof.
  unfold reverse_map. apply keys_combine_l. rewrite range_length. lia.
Qed.

Lemma known_layout f g a : layout f g -> (known g a <-> In a (node_list f)).
Proof.
  intros (Hn & _). unfold known. now rewrite Hn, keys_index_map.
Qed.

Lemma find_existsb {A} (p : A -> bool) l :
  existsb p l = match find p l with Some _ => true | None => false end.
Proof.
  induction l as [|x r IH]; simpl; [reflexivity|]. now destruct (p x).
Qed.

Lemma stored_record_joined f a b :
  match stored_record f a b with Some _ => true | None => false end
  = joined f a b.
Proof.
  rewrite stored_record_first. unfold joined, first_line.
  rewrite find_existsb. now destruct (find (joins a b) (accepted f)).
Qed.

Lemma joined_sym f a b : joined f a b = joined f b a.
Proof.
  unfold joined. rewrite !find_existsb.
  fold (first_line (accepted f) a b). fold (first_line (accepted f) b a).
  now rewrite first_line_sym.
Qed.

Lemma joined_iff f a b :
  joined f a b = true
  <-> exists w, In (a, b, w) (accepted f) \/ In (b, a, w) (accepted f).
Proof.
  unfold joined. rewrite existsb_exists. split.
  - intros ([[x y] w] & Hin & Hj). exists w. unfold joins in Hj.
    apply orb_true_iff in Hj as [Hj|Hj]; apply andb_true_iff in Hj as [H1 H2];
      apply String.eqb_eq in H1, H2; subst; auto.
  - intros (w & [H|H]).
    + exists (a, b, w). split; [assumption|apply joins_self].
    + exists (b, a, w). split; [assumption|].
      rewrite joins_sym. apply joins_self.
Qed.

(** ** The index maps *)

(** X1: in a freshly built graph the two index maps are inverse to each
    other: a label maps to an index that maps back to the label, and an
    index maps to a label that maps back to the index. *)
Theorem X1_index_maps_inverse f g :
  build f = Ok g ->
  (forall a i,
     dict_get String.eqb a (node_to_index_map g) = Some i ->
     dict_get Z.eqb i (index_to_node_map g) = Some a)
  /\ (forall i a,
        dict_get Z.eqb i (index_to_node_map g) = Some a ->
        dict_get String.eqb a (node_to_index_map g) = Some i).
Proof.
  intros Hb. destruct (build_layout f g Hb) as (-> & -> & _).
  pose proof (node_list_NoDup f) as Hnd. split.
  - intros a i H.
    assert (Ha : In a (node_list f)).
    { apply (dict_get_In _ _ String.eqb string_eqb_spec) in H.
      now apply in_combine_l in H. }
    rewrite (index_map_get _ _ Hnd Ha) in H. injection H as <-.
    now apply reverse_map_idx.
  - intros i a H.
    assert (Hi : 0 <= i < Z.of_nat (length (node_list f))).
    { apply (dict_get_In _ _ Z.eqb Z_eqb_spec) in H.
      apply in_combine_l in H. apply range_In in H. lia. }
    pose proof (reverse_map_get (node_list f) 0 i) as E.
    rewrite Z.add_0_l, Z.sub_0_r in E. unfold reverse_map in H.
    rewrite E in H by lia.
    rewrite (index_map_nth _ _ _ Hnd H). f_equal. lia.
Qed.

Lemma X1_index_maps_inverse_witness :
  exists g,
    build file_scenario = Ok g
    /\ (forall a i,
          dict_get String.eqb a (node_to_index_map g) = Some i ->
          dict_get Z.eqb i (index_to_node_map g) = Some a)
    /\ (forall i a,
          dict_get Z.eqb i (index_to_node_map g) = Some a ->
          dict_get String.eqb a (node_to_index_map g) = Some i).
Proof.
  eexists.
  assert (Hb : build file_scenario = Ok _) by (vm_compute; reflexivity).
  split; [exact Hb|]. exact (X1_index_maps_inverse _ _ Hb).
Defined.

(** X2: [nodes()] of a freshly built graph lists the labels that occur on
    the accepted lines, each once, in increasing order; [node_count()] is
    their number, and the index of a label is its rank in that order. *)
Theorem X2_nodes_sorted f g :
  build f = Ok g ->
  exists l,
    nodes g = (Ok l, g)
    /\ increasing str_lt l
    /\ (forall a, In a l <->
          exists x y w, In (x, y, w) (accepted f) /\ (a = x \/ a = y))
    /\ node_count g = (Ok (Z.of_nat (length l)), g)
    /\ (forall k a, nth_error l k = Some a ->
          dict_get String.eqb a (node_to_index_map g) = Some (Z.of_nat k)).
Proof.
  intros Hb. pose proof (build_layout f g Hb) as Hg.
  exists (node_list f). destruct Hg as (Hn & Hrest).
  assert (Hg : layout f g) by (split; assumption).
  split; [unfold nodes, lift; now rewrite Hn, keys_index_map|].
  split; [apply node_list_increasing|].
  split; [intros a; now rewrite node_list_In, endpoints_In|].
  split; [now apply node_count_layout|].
  intros k a Hk. rewrite Hn. apply index_map_nth; [|assumption].
  apply node_list_NoDup.
Qed.

Lemma X2_nodes_sorted_witness :
  exists g,
    build file_scenario = Ok g
    /\ exists l,
         nodes g = (Ok l, g)
         /\ increasing str_lt l
         /\ (forall a, In a l <->
               exists x y w,
                 In (x, y, w) (accepted file_scenario) /\ (a = x \/ a = y))
         /\ node_count g = (Ok (Z.of_nat (length l)), g)
         /\ (forall k a, nth_error l k = Some a ->
               dict_get String.eqb a (node_to_index_map g)
               = Some (Z.of_nat k)).
Proof.
  eexists.
  assert (Hb : build file_scenario = Ok _) by (vm_compute; reflexivity).
  split; [exact Hb|]. exact (X2_nodes_sorted _ _ Hb).
Defined.

(** X3: [nodes_as_integers()] of a freshly built graph is the list
    [0, 1, ..., node_count() - 1]. *)
Theorem X3_nodes_as_integers f g :
  build f = Ok g ->
  exists n,
    node_count g = (Ok n, g)
    /\ nodes_as_integers g = (Ok (range 0 n), g).
Proof.
  intros Hb. pose proof (build_layout f g Hb) as Hg.
  exists (Z.of_nat (length (node_list f))).
  split; [now apply node_count_layout|].
  destruct Hg as (_ & Hi & _). unfold nodes_as_integers, lift.
  now rewrite Hi, keys_reverse_map.
Qed.

Lemma X3_nodes_as_integers_witness :
  exists g,
    build file_scenario = Ok g
    /\ exists n,
         node_count g = (Ok n, g)
         /\ nodes_as_integers g = (Ok (range 0 n), g).
Proof.
  eexists.
  assert (Hb : build file_scenario = Ok _) by (vm_compute; reflexivity).
  split; [exact Hb|]. exact (X3_nodes_as_integers _ _ Hb).
Defined.

(** ** The queries, in terms of the file *)

Lemma wrap32_in_int32 n : Np.in_int32 (Np.wrap32 n) = true.
Proof.
  apply in_int32_iff. unfold Np.wrap32, Np.int32_min, Np.int32_max.
  pose proof (Z.mod_pos_bound (n + 2 ^ 31) (2 ^ 32) ltac:(lia)). lia.
Qed.

Lemma stored_weight_in_int32 e :
  storable e = true -> Np.in_int32 (stored_weight e) = true.
Proof.
  intros H. apply stored_weight_ok in H.
  apply int32_of_float_inv in H as (n & _ & ->). apply wrap32_in_int32.
Qed.

(** X4: for two labels of a freshly built graph, [has_edge(a, b)] is true
    exactly when some accepted line of the file joins [a] and [b], in
    either direction; [has_edge(b, a)] gives the same answer, and the graph
    is left as it was. *)
Theorem X4_has_edge_joined f g a b :
  build f = Ok g -> known g a -> known g b ->
  has_edge a b g = (Ok (joined f a b), g)
  /\ has_edge b a g = (Ok (joined f a b), g).
Proof.
  intros Hb Ha Hbn. pose proof (build_layout f g Hb) as Hg.
  apply (known_layout f g a Hg) in Ha. apply (known_layout f g b Hg) in Hbn.
  rewrite (has_edge_known f g Hg a b Ha Hbn).
  rewrite (has_edge_known f g Hg b a Hbn Ha).
  now rewrite !stored_record_joined, (joined_sym f b a).
Qed.

Lemma X4_has_edge_joined_witness :
  exists g,
    build file_scenario = Ok g
    /\ known g "g2" /\ known g "p1"
    /\ has_edge "g2" "p1" g = (Ok (joined file_scenario "g2" "p1"), g)
    /\ has_edge "p1" "g2" g = (Ok (joined file_scenario "g2" "p1"), g).
Proof.
  eexists.
  assert (Hb : build file_scenario = Ok _) by (vm_compute; reflexivity).
  split; [exact Hb|].
  match goal with
  | |- known ?g ?a /\ known ?g ?b /\ _ =>
      assert (Ha : known g a) by (vm_compute; auto);
      assert (Hp : known g b) by (vm_compute; auto)
  end.
  split; [exact Ha|]. split; [exact Hp|].
  exact (X4_has_edge_joined _ _ _ _ Hb Ha Hp).
Defined.

(** X5: for two labels of a freshly built graph, [weight(a, b)] returns a
    value exactly when [has_edge(a, b)] is true: when a line joins [a] and
    [b] it returns a 32-bit integer, the same for [(a, b)] and [(b, a)];
    when no line joins them it raises the [TypeError] "Could not identify
    edge between a and b".  The graph is left as it was. *)
Theorem X5_weight_or_type_error f g a b :
  build f = Ok g -> known g a -> known g b ->
  (joined f a b = true ->
   exists v, weight a b g = (Ok v, g) /\ weight b a g = (Ok v, g)
             /\ Np.in_int32 v = true)
  /\ (joined f a b = false ->
      weight a b g
      = (Raise (TypeError ("Could not identify edge between " ++ a
                             ++ " and " ++ b)), g)).
Proof.
  intros Hb Ha Hbn. pose proof (build_layout f g Hb) as Hg.
  pose proof (build_storable f g Hb) as Hst. rewrite Forall_forall in Hst.
  apply (known_layout f g a Hg) in Ha. apply (known_layout f g b Hg) in Hbn.
  rewrite (weight_known f g Hg a b Ha Hbn).
  rewrite (weight_known f g Hg b a Hbn Ha).
  pose proof (stored_record_joined f a b) as J.
  pose proof (stored_record_first f a b) as F1.
  pose proof (stored_record_first f b a) as F2.
  rewrite <- first_line_sym in F2.
  split; intros Hj; rewrite Hj in J.
  - destruct (first_line (accepted f) a b) as [t|]; simpl in F1, F2;
      [|rewrite F1 in J; discriminate].
    rewrite F1, F2.
    exists (stored_weight (Edge.mk a b (triple_weight t))).
    repeat split. apply stored_weight_in_int32. apply Hst.
    now apply (stored_record_In f a b _ F1).
  - destruct (stored_record f a b); [discriminate|reflexivity].
Qed.

Lemma X5_weight_or_type_error_witness :
  exists g,
    build file_scenario = Ok g
    /\ known g "g2" /\ known g "p1"
    /\ (joined file_scenario "g2" "p1" = true ->
        exists v, weight "g2" "p1" g = (Ok v, g)
                  /\ weight "p1" "g2" g = (Ok v, g)
                  /\ Np.in_int32 v = true)
    /\ (joined file_scenario "g2" "p1" = false ->
        weight "g2" "p1" g
        = (Raise (TypeError ("Could not identify edge between " ++ "g2"
                               ++ " and " ++ "p1")), g)).
Proof.
  eexists.
  assert (Hb : build file_scenario = Ok _) by (vm_compute; reflexivity).
  split; [exact Hb|].
  match goal with
  | |- known ?g ?a /\ known ?g ?b /\ _ =>
      assert (Ha : known g a) by (vm_compute; auto);
      assert (Hp : known g b) by (vm_compute; auto)
  end.
  split; [exact Ha|]. split; [exact Hp|].
  exact (X5_weight_or_type_error _ _ _ _ Hb Ha Hp).
Defined.

Lemma block_labels_increasing a l :
  increasing Edge.__lt__ l ->
  increasing str_lt
    (map Edge.nodeB (filter (fun e => String.eqb (Edge.nodeA e) a) l)).
Proof.
  induction 1 as [|x r Hr IH Hx]; [constructor|].
  cbn [filter].
  destruct (String.eqb_spec (Edge.nodeA x) a) as [Ea|Ea]; [|exact IH].
  cbn [map]. constructor; [exact IH|].
  apply Forall_forall. intros b Hb.
  apply in_map_iff in Hb as (y & <- & Hy).
  apply filter_In in Hy as [Hy Hya]. apply String.eqb_eq in Hya.
  rewrite Forall_forall in Hx. specialize (Hx y Hy).
  unfold Edge.__lt__ in Hx. rewrite Ea, Hya, String.eqb_refl in Hx.
  exact Hx.
Qed.

Lemma edge_list_key f a b :
  (exists e, In e (edge_list f) /\ Edge.nodeA e = a /\ Edge.nodeB e = b)
  <-> joined f a b = true.
Proof.
  rewrite <- stored_record_joined. split.
  - intros (e & He & HA & HB). unfold stored_record.
    rewrite (find_unique_key (edge_list f) a b e); [reflexivity| |assumption|].
    + apply increasing_unique_edges, edge_list_increasing.
    + now apply same_key_iff.
  - destruct (stored_record f a b) as [e|] eqn:E; [|discriminate].
    intros _. exists e. now apply stored_record_In.
Qed.

(** X6: for a label [a] of a freshly built graph, [neighbors(a)] returns,
    in increasing order and each once, exactly the labels that some
    accepted line joins with [a]; all of them are labels of the graph, and
    the graph is left as it was. *)
Theorem X6_neighbors_sorted f g a :
  build f = Ok g -> known g a ->
  exists l,
    neighbors a g = (Ok l, g)
    /\ increasing str_lt l
    /\ (forall b, In b l <-> joined f a b = true)
    /\ (forall b, In b l -> known g b).
Proof.
  intros Hb Ha. pose proof (build_layout f g Hb) as Hg.
  apply (known_layout f g a Hg) in Ha.
  exists (map Edge.nodeB
            (filter (fun e => String.eqb (Edge.nodeA e) a) (edge_list f))).
  split; [now apply neighbors_known|].
  split; [apply block_labels_increasing, edge_list_increasing|].
  assert (Hin : forall b,
    In b (map Edge.nodeB
            (filter (fun e => String.eqb (Edge.nodeA e) a) (edge_list f)))
    <-> exists e, In e (edge_list f) /\ Edge.nodeA e = a /\ Edge.nodeB e = b).
  { intros b. rewrite in_map_iff. split.
    - intros (e & <- & He). apply filter_In in He as [He HA].
      apply String.eqb_eq in HA. eauto.
    - intros (e & He & HA & HB). exists e. split; [assumption|].
      apply filter_In. split; [assumption|]. now apply String.eqb_eq. }
  split.
  - intros b. now rewrite Hin, edge_list_key.
  - intros b Hbl. apply Hin in Hbl as (e & He & _ & <-).
    apply (known_layout f g _ Hg). now apply edge_list_nodes.
Qed.

Lemma X6_neighbors_sorted_witness :
  exists g,
    build file_scenario = Ok g
    /\ known g "g1"
    /\ exists l,
         neighbors "g1" g = (Ok l, g)
         /\ increasing str_lt l
         /\ (forall b, In b l <-> joined file_scenario "g1" b = true)
         /\ (forall b, In b l -> known g b).
Proof.
  eexists.
  assert (Hb : build file_scenario = Ok _) by (vm_compute; reflexivity).
  split; [exact Hb|].
  match goal with
  | |- known ?g ?a /\ _ => assert (Ha : known g a) by (vm_compute; auto)
  end.
  split; [exact Ha|]. exact (X6_neighbors_sorted _ _ _ Hb Ha).
Defined.

Lemma pairs_increasing l :
  increasing Edge.__lt__ l -> increasing pair_lt (map pair_of l).
Proof.
  induction 1 as [|x r Hr IH Hx]; [constructor|].
  cbn [map]. constructor; [exact IH|].
  apply Forall_forall. intros p Hp. apply in_map_iff in Hp as (y & <- & Hy).
  rewrite Forall_forall in Hx. exact (Hx y Hy).
Qed.

(** X7: [edges()] of a freshly built graph lists, sorted on the source
    and then on the destination and each once, exactly the directed pairs
    [(a, b)] such that some accepted line joins [a] and [b]; with [(a, b)]
    it lists [(b, a)]; its length is [edge_count()]; the graph is left as
    it was. *)
Theorem X7_edges_listed f g :
  build f = Ok g ->
  exists l,
    edges g = (Ok l, g)
    /\ increasing pair_lt l
    /\ (forall a b, In (a, b) l <-> joined f a b = true)
    /\ (forall a b, In (a, b) l -> In (b, a) l)
    /\ edge_count g = (Ok (Z.of_nat (length l)), g).
Proof.
  intros Hb. pose proof (build_layout f g Hb) as Hg.
  exists (map pair_of (edge_list f)).
  assert (Hin : forall a b,
    In (a, b) (map pair_of (edge_list f)) <-> joined f a b = true).
  { intros a b. rewrite <- edge_list_key, in_map_iff. split.
    - intros (e & He & Hin). unfold pair_of in He. injection He as HA HB.
      exists e. auto.
    - intros (e & Hin & HA & HB). exists e. split; [|assumption].
      unfold pair_of. now rewrite HA, HB. }
  split; [now apply edges_known|].
  split; [apply pairs_increasing, edge_list_increasing|].
  split; [exact Hin|]. split.
  - intros a b. rewrite !Hin, (joined_sym f b a). auto.
  - rewrite (edge_count_layout f g Hg), length_map.
    unfold edge_list. now rewrite sorted_length.
Qed.

Lemma X7_edges_listed_witness :
  exists g,
    build file_scenario = Ok g
    /\ exists l,
         edges g = (Ok l, g)
         /\ increasing pair_lt l
         /\ (forall a b, In (a, b) l <-> joined file_scenario a b = true)
         /\ (forall a b, In (a, b) l -> In (b, a) l)
         /\ edge_count g = (Ok (Z.of_nat (length l)), g).
Proof.
  eexists.
  assert (Hb : build file_scenario = Ok _) by (vm_compute; reflexivity).
  split; [exact Hb|]. exact (X7_edges_listed _ _ Hb).
Defined.

(** ** The arrays *)

(** X8: in a freshly built graph with [n] nodes, [edge_to] and
    [edge_weight] have the same length, the last offset is that length,
    every entry of [edge_to] is a node index below [n], every entry of
    [edge_weight] is a 32-bit integer, and every offset lies between 0 and
    the number of entries. *)
Theorem X8_array_bounds f g :
  build f = Ok g ->
  length (edge_weight g) = length (edge_to g)
  /\ Np.getitem (offset_to_edge_ g)
       (Z.of_nat (length (node_to_index_map g)))
     = Ok (Z.of_nat (length (edge_to g)))
  /\ Forall (fun d => 0 <= d < Z.of_nat (length (node_to_index_map g)))
       (edge_to g)
  /\ Forall (fun w => Np.in_int32 w = true) (edge_weight g)
  /\ Forall (fun o => 0 <= o <= Z.of_nat (length (edge_to g)))
       (offset_to_edge_ g).
Proof.
  intros Hb. pose proof (build_layout f g Hb) as Hg.
  pose proof (build_storable f g Hb) as Hst.
  pose proof (node_list_NoDup f) as Hnd.
  destruct Hg as (Hn & _ & Hto & Hw & Hoff).
  assert (Hlen : length (node_to_index_map g) = length (node_list f)).
  { rewrite Hn. unfold index_map. rewrite length_combine, range_length. lia. }
  rewrite Hlen, Hto, Hw, Hoff, !length_map.
  split; [reflexivity|]. split.
  - rewrite offsets_get by lia. f_equal. apply below_all; [assumption|].
    apply Forall_forall. intros e He. now apply edge_list_nodes.
  - split; [|split].
    + apply Forall_forall. intros d Hd. apply in_map_iff in Hd as (e & <- & He).
      apply idx_bounds; [assumption|]. now apply edge_list_nodes.
    + apply Forall_forall. intros w Hin.
      apply in_map_iff in Hin as (e & <- & He).
      apply stored_weight_in_int32. rewrite Forall_forall in Hst. auto.
    + apply Forall_forall. intros o Ho. unfold offsets in Ho.
      apply in_map_iff in Ho as (k & <- & _). apply below_le_length.
Qed.

Lemma X8_array_bounds_witness :
  exists g,
    build file_scenario = Ok g
    /\ length (edge_weight g) = length (edge_to g)
    /\ Np.getitem (offset_to_edge_ g)
         (Z.of_nat (length (node_to_index_map g)))
       = Ok (Z.of_nat (length (edge_to g)))
    /\ Forall (fun d => 0 <= d < Z.of_nat (length (node_to_index_map g)))
         (edge_to g)
    /\ Forall (fun w => Np.in_int32 w = true) (edge_weight g)
    /\ Forall (fun o => 0 <= o <= Z.of_nat (length (edge_to g)))
         (offset_to_edge_ g).
Proof.
  eexists.
  assert (Hb : build file_scenario = Ok _) by (vm_compute; reflexivity).
  split; [exact Hb|]. exact (X8_array_bounds _ _ Hb).
Defined.

(** ** Sequences of calls *)

Lemma after_known f g q :
  layout f g ->
  (forall a, In a (looked_up q) -> known g a) ->
  after q g = g.
Proof.
  intros Hg Hk.
  assert (Hn : forall a, In a (looked_up q) -> In a (node_list f))
    by (intros a Ha; apply (known_layout f g a Hg); auto).
  destruct q; simpl in *; try reflexivity.
  - rewrite (weight_known f g Hg source dest); auto.
  - rewrite (neighbors_known f g Hg source); auto.
  - rewrite (has_edge_known f g Hg src dest); auto.
  - now rewrite (edges_known f g Hg).
Qed.

(** X9: any sequence of query calls whose label arguments are labels of
    the freshly built graph leaves the graph exactly as the constructor
    returned it, whatever the calls return or raise. *)
Theorem X9_queries_on_known_labels_read_only f g qs :
  build f = Ok g ->
  (forall q a, In q qs -> In a (looked_up q) -> known g a) ->
  after_all qs g = g.
Proof.
  intros Hb. pose proof (build_layout f g Hb) as Hg. unfold after_all.
  induction qs as [|q qs IH]; intros Hk; [reflexivity|].
  cbn [fold_left]. rewrite (after_known f g q Hg).
  - apply IH. intros q' a Hq. apply Hk. now right.
  - intros a. apply Hk. now left.
Qed.

Lemma X9_queries_on_known_labels_read_only_witness :
  exists g,
    build file_scenario = Ok g
    /\ (forall q a,
          In q [QHasEdge "g2" "p1"; QWeight "g2" "p1"; QNeighbors "g1";
                QEdges; QNodeCount] ->
          In a (looked_up q) -> known g a)
    /\ after_all [QHasEdge "g2" "p1"; QWeight "g2" "p1"; QNeighbors "g1";
                  QEdges; QNodeCount] g = g.
Proof.
  eexists.
  assert (Hb : build file_scenario = Ok _) by (vm_compute; reflexivity).
  split; [exact Hb|].
  match goal with
  | |- (forall q a, In q ?qs -> _ -> known ?g a) /\ _ =>
      assert (Hk : forall q a, In q qs -> In a (looked_up q) -> known g a)
  end.
  { intros q a Hq Ha. unfold known. simpl in Hq |- *.
    repeat (destruct Hq as [<-|Hq]; [simpl in Ha; intuition|]).
    destruct Hq. }
  split; [exact Hk|].
  exact (X9_queries_on_known_labels_read_only _ _ _ Hb Hk).
Defined.

(** ** Malformed lines and empty files *)

Lemma read_line_malformed st line :
  well_formed line = false -> read_line st line = Ok st.
Proof.
  unfold well_formed, parse_line, read_line. destruct st as [[ns es] et].
  destruct (split (rstrip_newline line)) as [|a [|b [|c [|? ?]]]];
    try reflexivity.
  destruct (float_of_str c); [discriminate|reflexivity].
Qed.

Lemma read_lines_filter f : forall st,
  read_lines f st = read_lines (filter well_formed f) st.
Proof.
  induction f as [|line f IH]; intros st; [reflexivity|].
  cbn [read_lines filter]. destruct (well_formed line) eqn:W.
  - cbn [read_lines]. destruct (read_line st line); simpl; auto.
  - rewrite (read_line_malformed st line W). simpl. apply IH.
Qed.

(** X12: the malformed lines of a file have no effect at all: the
    constructor gives the same graph, or raises the same exception, as on
    the file without them. *)
Theorem X12_malformed_lines_ignored f :
  build f = build (filter well_formed f).
Proof. unfold build. now rewrite (read_lines_filter f). Qed.

Lemma accepted_nil_filter f : accepted f = [] -> filter well_formed f = [].
Proof.
  induction f as [|line f IH]; [reflexivity|].
  rewrite accepted_cons. unfold well_formed at 1. cbn [filter].
  unfold well_formed. destruct (parse_line line); [discriminate|].
  simpl. exact IH.
Qed.

Lemma build_no_accepted f : accepted f = [] -> build f = Ok empty_graph.
Proof.
  intros H. unfold build.
  rewrite (read_lines_filter f), (accepted_nil_filter f H). reflexivity.
Qed.

Lemma first_index_empty a g :
  node_to_index_map g = [] ->
  node_to_index a g = (Ok 0, add_label a g).
Proof. intros H. unfold node_to_index, add_label. now rewrite H. Qed.

Lemma second_index_zero a b g :
  node_to_index_map g = [] ->
  exists g', node_to_index b (add_label a g) = (Ok 0, g')
             /\ offset_to_edge_ g' = offset_to_edge_ g.
Proof.
  intros H. unfold node_to_index, add_label. simpl. rewrite H. simpl.
  unfold defaultdict_getitem. simpl.
  destruct (String.eqb a b); simpl; eauto.
Qed.

(** X11: a file without any accepted line (empty, or malformed lines
    only) gives a graph with no node and no edge, whose offset array is
    [[0]]; on that graph [has_edge], [weight] and [neighbors] raise an
    [IndexError] for every argument. *)
Theorem X11_empty_file f :
  accepted f = [] ->
  build f = Ok empty_graph
  /\ nodes empty_graph = (Ok [], empty_graph)
  /\ node_count empty_graph = (Ok 0, empty_graph)
  /\ edge_count empty_graph = (Ok 0, empty_graph)
  /\ edges empty_graph = (Ok [], empty_graph)
  /\ forall a b,
       (exists m, fst (has_edge a b empty_graph) = Raise (IndexError m))
       /\ (exists m, fst (weight a b empty_graph) = Raise (IndexError m))
       /\ (exists m, fst (neighbors a empty_graph) = Raise (IndexError m)).
Proof.
  intros H. rewrite (build_no_accepted f H).
  repeat split.
  - destruct (second_index_zero a b empty_graph eq_refl) as (g' & E & Ho).
    unfold has_edge, bind. rewrite (first_index_empty a) by reflexivity.
    rewrite E. unfold offset_at, lift. rewrite Ho. simpl. eauto.
  - destruct (second_index_zero a b empty_graph eq_refl) as (g' & E & Ho).
    unfold weight, bind. rewrite (first_index_empty a) by reflexivity.
    rewrite E. unfold offset_at, lift. rewrite Ho. simpl. eauto.
  - unfold neighbors, bind. rewrite (first_index_empty a) by reflexivity.
    simpl. eauto.
Qed.

Lemma X11_empty_file_witness :
  accepted file_of_malformed_lines = []
  /\ build file_of_malformed_lines = Ok empty_graph
  /\ nodes empty_graph = (Ok [], empty_graph)
  /\ node_count empty_graph = (Ok 0, empty_graph)
  /\ edge_count empty_graph = (Ok 0, empty_graph)
  /\ edges empty_graph = (Ok [], empty_graph)
  /\ forall a b,
       (exists m, fst (has_edge a b empty_graph) = Raise (IndexError m))
       /\ (exists m, fst (weight a b empty_graph) = Raise (IndexError m))
       /\ (exists m, fst (neighbors a empty_graph) = Raise (IndexError m)).
Proof.
  assert (H : accepted file_of_malformed_lines = [])
    by (vm_compute; reflexivity).
  split; [exact H|]. exact (X11_empty_file _ H).
Defined.

(** ** Labels that are not in the graph *)

Local Open Scope Z_scope.

Lemma ignores_ret {A} (a : A) : ignores_labels (ret a).
Proof. intros z g. reflexivity. Qed.

Lemma ignores_raise {A} e : ignores_labels (@raise A e).
Proof. intros z g. reflexivity. Qed.

Lemma ignores_bind {A B} (m : M A) (k : A -> M B) :
  ignores_labels m -> (forall a, ignores_labels (k a)) ->
  ignores_labels (bind m k).
Proof.
  intros Hm Hk z g. unfold bind. rewrite Hm.
  destruct (m g) as [[a|e] g1]; simpl; [apply Hk|reflexivity].
Qed.

Lemma ignores_offset_at i : ignores_labels (offset_at i).
Proof. intros z g. reflexivity. Qed.

Lemma ignores_edge_to_at i : ignores_labels (edge_to_at i).
Proof. intros z g. reflexivity. Qed.

Lemma ignores_edge_weight_at i : ignores_labels (edge_weight_at i).
Proof. intros z g. reflexivity. Qed.

Lemma ignores_index_to_node i : ignores_labels (index_to_node i).
Proof.
  intros z g. unfold index_to_node, add_label. simpl.
  now destruct (defaultdict_getitem Z.eqb EmptyString i (index_to_node_map g)).
Qed.

Lemma ignores_has_edge_loop d r : ignores_labels (has_edge_loop d r).
Proof.
  induction r as [|i r IH]; cbn [has_edge_loop]; [apply ignores_ret|].
  apply ignores_bind; [apply ignores_edge_to_at|]. intros t.
  destruct (t =? d); [apply ignores_ret|exact IH].
Qed.

Lemma ignores_weight_loop s d j r : ignores_labels (weight_loop s d j r).
Proof.
  induction r as [|i r IH]; cbn [weight_loop]; [apply ignores_raise|].
  apply ignores_bind; [apply ignores_edge_to_at|]. intros t.
  destruct (j =? t); [apply ignores_edge_weight_at|exact IH].
Qed.

Lemma ignores_neighbors_loop r : forall nbrs,
  ignores_labels (neighbors_loop r nbrs).
Proof.
  induction r as [|i r IH]; intros nbrs; cbn [neighbors_loop];
    [apply ignores_ret|].
  apply ignores_bind; [apply ignores_edge_to_at|]. intros t.
  apply ignores_bind; [apply ignores_index_to_node|]. intros nbr. apply IH.
Qed.

Lemma ignores_has_edge_from i j : ignores_labels (has_edge_from i j).
Proof.
  unfold has_edge_from.
  apply ignores_bind; [apply ignores_offset_at|]. intros lo.
  apply ignores_bind; [apply ignores_offset_at|]. intros hi.
  apply ignores_has_edge_loop.
Qed.

Lemma ignores_weight_from s d i j : ignores_labels (weight_from s d i j).
Proof.
  unfold weight_from.
  apply ignores_bind; [apply ignores_offset_at|]. intros lo.
  apply ignores_bind; [apply ignores_offset_at|]. intros hi.
  apply ignores_weight_loop.
Qed.

Lemma ignores_neighbors_from i : ignores_labels (neighbors_from i).
Proof.
  unfold neighbors_from.
  apply ignores_bind; [apply ignores_offset_at|]. intros lo.
  apply ignores_bind; [apply ignores_offset_at|]. intros hi.
  apply ignores_neighbors_loop.
Qed.

Lemma node_to_index_unknown z g :
  ~ known g z -> node_to_index z g = (Ok 0, add_label z g).
Proof.
  intros H. apply (dict_get_None _ _ String.eqb string_eqb_spec) in H.
  unfold node_to_index, add_label.
  now rewrite (defaultdict_getitem_absent _ _ _ _ _ _ H).
Qed.

Lemma node_to_index_after_add z b j g :
  dict_get String.eqb b (node_to_index_map g) = Some j ->
  node_to_index b (add_label z g) = (Ok j, add_label z g).
Proof.
  intros H. apply node_to_index_present. simpl.
  now rewrite dict_get_app, H.
Qed.

Lemma weight_loop_value s d s' d' j r g v :
  fst (weight_loop s d j r g) = Ok v ->
  weight_loop s' d' j r g = weight_loop s d j r g.
Proof.
  induction r as [|i r IH]; cbn [weight_loop]; [discriminate|].
  unfold bind. destruct (edge_to_at i g) as [[t|e] g1] eqn:E; [|reflexivity].
  unfold edge_to_at, lift in E. injection E as _ <-.
  destruct (j =? t); [reflexivity|exact IH].
Qed.

Lemma weight_from_value s d s' d' i j g v :
  fst (weight_from s d i j g) = Ok v ->
  weight_from s' d' i j g = weight_from s d i j g.
Proof.
  unfold weight_from, bind, offset_at, lift.
  destruct (Np.getitem (offset_to_edge_ g) i); [|reflexivity].
  destruct (Np.getitem (offset_to_edge_ g) (i + 1)); [|reflexivity].
  apply weight_loop_value.
Qed.

(** X10: a label [z] that is not in the graph is read as the index 0 and
    is inserted in [node_to_index_map]: on a freshly built graph, with [b]
    a label of the graph and [a0] the smallest label, [has_edge(z, b)]
    and [neighbors(z)] return what [has_edge(a0, b)] and [neighbors(a0)]
    return, [weight(z, b)] returns the weight [weight(a0, b)] returns, and
    afterwards [z] is a key of [node_to_index_map], so that [node_count()]
    has grown by one. *)
Theorem X10_unknown_label_is_node_zero f g z b :
  build f = Ok g -> ~ known g z -> known g b ->
  exists a0,
    nth_error (keys (node_to_index_map g)) 0 = Some a0
    /\ has_edge z b g = (fst (has_edge a0 b g), add_label z g)
    /\ neighbors z g = (fst (neighbors a0 g), add_label z g)
    /\ (forall v, fst (weight a0 b g) = Ok v ->
          weight z b g = (Ok v, add_label z g))
    /\ known (add_label z g) z
    /\ fst (node_count (add_label z g))
       = Ok (Z.of_nat (length (node_to_index_map g)) + 1).
Proof.
  intros Hb Hz Hk. pose proof (build_layout f g Hb) as Hg.
  pose proof (node_list_NoDup f) as Hnd.
  pose proof (proj1 (known_layout f g b Hg) Hk) as Hbn.
  destruct (node_list f) as [|a0 rest] eqn:Enl; [destruct Hbn|].
  assert (Ha0 : In a0 (node_list f)) by (rewrite Enl; now left).
  assert (Hk0 : nth_error (node_list f) 0 = Some a0) by now rewrite Enl.
  rewrite <- Enl in Hnd, Hbn. clear Enl rest.
  pose proof (index_map_nth _ _ _ Hnd Hk0) as H0. change (Z.of_nat 0) with 0 in H0.
  pose proof (index_map_get _ _ Hnd Hbn) as Hj.
  destruct Hg as (Hn & Hrest). rewrite <- Hn in H0, Hj.
  assert (Hg : layout f g) by (split; assumption).
  exists a0. split; [now rewrite Hn, keys_index_map|].
  pose proof (node_to_index_present a0 0 g H0) as Ea0.
  pose proof (node_to_index_present b _ g Hj) as Eb.
  pose proof (node_to_index_unknown z g Hz) as Ez.
  pose proof (node_to_index_after_add z b _ g Hj) as Ezb.
  assert (Hhe : has_edge a0 b g = has_edge_from 0 (idx (node_list f) b) g).
  { unfold has_edge. unfold bind at 1. rewrite Ea0.
    unfold bind at 1. now rewrite Eb. }
  assert (Hnb : neighbors a0 g = neighbors_from 0 g).
  { unfold neighbors. unfold bind at 1. now rewrite Ea0. }
  assert (Hw : weight a0 b g
               = weight_from a0 b 0 (idx (node_list f) b) g).
  { unfold weight. unfold bind at 1. rewrite Ea0.
    unfold bind at 1. now rewrite Eb. }
  split; [|split; [|split; [|split]]].
  - unfold has_edge. unfold bind at 1. rewrite Ez.
    unfold bind at 1. rewrite Ezb.
    change (has_edge_from 0 (idx (node_list f) b) (add_label z g)
            = (fst (has_edge a0 b g), add_label z g)).
    rewrite ignores_has_edge_from, <- Hhe.
    now rewrite (has_edge_known f g Hg a0 b Ha0 Hbn).
  - unfold neighbors. unfold bind at 1. rewrite Ez.
    change (neighbors_from 0 (add_label z g)
            = (fst (neighbors a0 g), add_label z g)).
    rewrite ignores_neighbors_from, <- Hnb.
    now rewrite (neighbors_known f g Hg a0 Ha0).
  - intros v Hv. unfold weight. unfold bind at 1. rewrite Ez.
    unfold bind at 1. rewrite Ezb.
    change (weight_from z b 0 (idx (node_list f) b) (add_label z g)
            = (Ok v, add_label z g)).
    rewrite ignores_weight_from.
    assert (Hv' : fst (weight_from a0 b 0 (idx (node_list f) b) g) = Ok v)
      by (rewrite <- Hw; exact Hv).
    rewrite (weight_from_value a0 b z b _ _ g v Hv'), <- Hw.
    rewrite (weight_known f g Hg a0 b Ha0 Hbn) in Hv |- *.
    simpl in Hv |- *. now rewrite Hv.
  - unfold known, add_label. simpl. rewrite keys_app. apply in_or_app.
    right. now left.
  - unfold node_count, lift, add_label. simpl. rewrite length_app. simpl.
    f_equal. lia.
Qed.

Lemma X10_unknown_label_is_node_zero_witness :
  exists g,
    build file_scenario = Ok g
    /\ ~ known g "zz" /\ known g "g2"
    /\ exists a0,
         nth_error (keys (node_to_index_map g)) 0 = Some a0
         /\ has_edge "zz" "g2" g = (fst (has_edge a0 "g2" g), add_label "zz" g)
         /\ neighbors "zz" g = (fst (neighbors a0 g), add_label "zz" g)
         /\ (forall v, fst (weight a0 "g2" g) = Ok v ->
               weight "zz" "g2" g = (Ok v, add_label "zz" g))
         /\ known (add_label "zz" g) "zz"
         /\ fst (node_count (add_label "zz" g))
            = Ok (Z.of_nat (length (node_to_index_map g)) + 1).
Proof.
  eexists.
  assert (Hb : build file_scenario = Ok _) by (vm_compute; reflexivity).
  split; [exact Hb|].
  match goal with
  | |- ~ known ?g ?z /\ known ?g ?b /\ _ =>
      assert (Hz : ~ known g z)
        by (vm_compute; intros [H|[H|[H|[]]]]; discriminate H);
      assert (Hk : known g b) by (vm_compute; auto)
  end.
  split; [exact Hz|]. split; [exact Hk|].
  exact (X10_unknown_label_is_node_zero _ _ _ _ Hb Hz Hk).
Defined.

(** ** When the constructor raises *)

Lemma edge_list_first_lines f e :
  In e (edge_list f) <->
  exists t, first_line (accepted f) (Edge.nodeA e) (Edge.nodeB e) = Some t
            /\ Edge.weight e = triple_weight t.
Proof.
  pose proof (stored_record_first f (Edge.nodeA e) (Edge.nodeB e)) as F.
  split.
  - intros He.
    assert (Hrec : stored_record f (Edge.nodeA e) (Edge.nodeB e) = Some e).
    { apply find_unique_key; [|assumption|now apply same_key_iff].
      apply increasing_unique_edges, edge_list_increasing. }
    rewrite Hrec in F.
    destruct (first_line (accepted f) (Edge.nodeA e) (Edge.nodeB e)) as [t|];
      [|discriminate].
    exists t. split; [reflexivity|]. simpl in F. now injection F as ->.
  - intros (t & Ht & Hw). rewrite Ht in F. simpl in F.
    apply stored_record_In in F as (Hin & _).
    replace e with (Edge.mk (Edge.nodeA e) (Edge.nodeB e) (triple_weight t));
      [assumption|].
    destruct e. simpl in *. now rewrite Hw.
Qed.

(** X13: the constructor (on a file of fewer than 2^30 accepted lines)
    returns a graph exactly when, for every pair of labels, the weight of
    the first accepted line that joins them can be stored in the [int32]
    array; the weights of later lines for the same pair are never stored.
    When it raises, the exception is the [ValueError] or [OverflowError]
    of the store. *)
Theorem X13_constructor_raises_on_first_weights f :
  2 * Z.of_nat (length (accepted f)) <= Np.int32_max ->
  ((exists g, build f = Ok g) <->
   (forall a b t, first_line (accepted f) a b = Some t ->
      is_ok (Np.int32_of_float (triple_weight t)) = true))
  /\ (forall x, build f = Raise x -> store_error x).
Proof.
  intros Hlen. split; [split|].
  - intros (g & Hb) a b t Ht.
    pose proof (build_storable f g Hb) as Hst. rewrite Forall_forall in Hst.
    apply (Hst (Edge.mk a b (triple_weight t))).
    apply edge_list_first_lines. exists t. auto.
  - intros H. destruct (build_succeeds f) as (g & Hb & _); [|assumption|eauto].
    apply Forall_forall. intros e He.
    apply edge_list_first_lines in He as (t & Ht & Hw).
    unfold storable. rewrite Hw. eapply H. eassumption.
  - intros x Hx. pose proof (build_spec f) as S. rewrite Hx in S. tauto.
Qed.

Lemma X13_constructor_raises_on_first_weights_witness :
  2 * Z.of_nat (length (accepted file_late_nan)) <= Np.int32_max
  /\ ((exists g, build file_late_nan = Ok g) <->
      (forall a b t, first_line (accepted file_late_nan) a b = Some t ->
         is_ok (Np.int32_of_float (triple_weight t)) = true))
  /\ (forall x, build file_late_nan = Raise x -> store_error x).
Proof.
  assert (H : 2 * Z.of_nat (length (accepted file_late_nan)) <= Np.int32_max)
    by (vm_compute; discriminate).
  split; [exact H|]. exact (X13_constructor_raises_on_first_weights _ H).
Defined.

(** A later line with a weight that cannot be stored does no harm. *)
Example late_nan_is_harmless :
  exists g, build file_late_nan = Ok g /\ fst (weight "b" "a" g) = Ok 1.
Proof. eexists. split; [vm_compute; reflexivity|reflexivity]. Qed.

(** X14: the constructor raises a [TypeError] exactly in the three cases
    of its guards: the argument is [None], is not a [str], or is a [str]
    that names no existing file. *)
Theorem X14_type_error_iff_bad_argument fs x :
  (exists m, __init__ fs x = Raise (TypeError m))
  <-> (x = PyNone \/ (forall p, x <> PyStr p)
       \/ exists p, x = PyStr p /\ fs p = None).
Proof.
  split; [|apply init_argument_errors].
  intros (m & H). destruct x as [|p|b|p|n]; simpl in H.
  - now left.
  - destruct (fs p) as [f|] eqn:E; [|right; right; eauto].
    pose proof (build_spec f) as S. rewrite H in S.
    destruct S as [[(m' & Hm)|(m' & Hm)] _]; discriminate.
  - right; left. discriminate.
  - right; left. discriminate.
  - right; left. discriminate.
Qed.

(** ** Types of nodes and of edges *)

(** X15: the type string of an edge does not depend on its direction or
    on its weight: for two non-empty labels, the edge from [a] to [b] and
    the edge from [b] to [a] have the same two-character type string. *)
Theorem X15_edge_type_undirected a b w w' :
  a <> EmptyString -> b <> EmptyString ->
  exists ty,
    Edge.get_edge_type_string (Edge.mk a b w) = Ok ty
    /\ Edge.get_edge_type_string (Edge.mk b a w') = Ok ty
    /\ String.length ty = 2%nat.
Proof.
  intros Ha Hb. destruct a as [|ca ra]; [congruence|].
  destruct b as [|cb rb]; [congruence|].
  unfold Edge.get_edge_type_string.
  cbn [Edge.nodeA Edge.nodeB first_char rbind sorted insert].
  generalize (String ca EmptyString) (String cb EmptyString)
             (eq_refl : String.length (String ca EmptyString) = 1%nat)
             (eq_refl : String.length (String cb EmptyString) = 1%nat).
  intros sa sb La Lb.
  assert (L : forall x y, String.length x = 1%nat -> String.length y = 1%nat ->
                String.length (Edge.join [x; y]) = 2%nat).
  { intros [|x [|? ?]] [|y [|? ?]]; simpl; try discriminate; reflexivity. }
  destruct (str_lt sb sa) eqn:Hba.
  - rewrite (str_lt_asym _ _ Hba). eauto.
  - destruct (str_lt sa sb) eqn:Hab; [eauto|].
    rewrite (str_lt_connex _ _ Hab Hba). eauto.
Qed.

Lemma X15_edge_type_undirected_witness :
  "g1" <> EmptyString /\ "p45" <> EmptyString
  /\ exists ty,
       Edge.get_edge_type_string (Edge.mk "g1" "p45" S754_nan) = Ok ty
       /\ Edge.get_edge_type_string (Edge.mk "p45" "g1" (S754_zero false))
          = Ok ty
       /\ String.length ty = 2%nat.
Proof.
  assert (Ha : "g1" <> EmptyString) by discriminate.
  assert (Hb : "p45" <> EmptyString) by discriminate.
  split; [exact Ha|]. split; [exact Hb|].
  exact (X15_edge_type_undirected _ _ _ _ Ha Hb).
Defined.

Lemma read_line_accepted nodes edges et line a b w :
  parse_line line = Some (a, b, w) ->
  read_line (nodes, edges, et) line
  = Ok (set_add String.eqb b (set_add String.eqb a nodes),
        set_add Edge.__eq__ (Edge.mk b a w)
          (set_add Edge.__eq__ (Edge.mk a b w) edges),
        defaultdict_incr String.eqb (edge_type_of (a, b, w)) et).
Proof.
  intros P. destruct (parse_line_nonempty _ _ _ _ P) as [Ha Hb].
  apply parse_line_fields in P as (c & Hs & Hf).
  unfold read_line, edge_type_of. rewrite Hs, Hf.
  destruct (get_edge_type_string_ok a b w Ha Hb) as (ty & ->). reflexivity.
Qed.

Lemma read_lines_types f : forall st st',
  read_lines f st = Ok st' ->
  forall ty,
    lookup0 String.eqb ty (snd st')
    = lookup0 String.eqb ty (snd st)
      + Z.of_nat (length (filter (fun t => String.eqb (edge_type_of t) ty)
                            (accepted f))).
Proof.
  induction f as [|line f IH]; intros st st' H ty.
  - simpl in H. injection H as <-. simpl. lia.
  - cbn [read_lines] in H. rewrite accepted_cons.
    destruct st as [[ns es] et].
    destruct (parse_line line) as [[[a b] w]|] eqn:P.
    + rewrite (read_line_accepted _ _ _ _ _ _ _ P) in H. cbn [rbind] in H.
      rewrite (IH _ _ H ty). cbn [snd app filter].
      rewrite (lookup0_incr _ String.eqb string_eqb_spec).
      destruct (String.eqb (edge_type_of (a, b, w)) ty); simpl length; lia.
    + assert (W : well_formed line = false)
        by (unfold well_formed; now rewrite P).
      rewrite (read_line_malformed _ _ W) in H. cbn [rbind] in H.
      rewrite (IH _ _ H ty). reflexivity.
Qed.

Lemma build_statistics f g :
  build f = Ok g ->
  (exists ns es,
     read_lines f ([], [], []) = Ok (ns, es, edgetype2count_dictionary g))
  /\ (exists st os,
        set_offsets (node_list f) st = Ok os
        /\ os_nodetype2count st = []
        /\ nodetype2count_dictionary g = os_nodetype2count os).
Proof.
  intros H. unfold build in H.
  destruct (read_lines_spec f [] [] []) as (et & E).
  match type of H with
  | context [read_lines f ?s] =>
      replace (read_lines f s) with (Ok (node_set f, edge_set f, et)) in H
        by (symmetry; exact E)
  end.
  cbn [rbind] in H.
  change (sorted str_lt (node_set f)) with (node_list f) in H.
  destruct (index_nodes _ _ _) as [n2i i2n].
  destruct (count_edges _ _) as [n2i' cnt].
  apply rbind_ok in H as (z & _ & H).
  apply rbind_ok in H as (off0 & _ & H).
  apply rbind_ok in H as (os & Hos & H).
  apply rbind_ok in H as (fl & _ & H).
  injection H as <-. simpl. split.
  - exists (node_set f), (edge_set f). exact E.
  - eexists. exists os. split; [exact Hos|]. split; reflexivity.
Qed.

(** X16: [edgetype2count_dictionary] counts lines, not edges: for every
    type string, its counter (0 for a missing key) is the number of
    accepted lines whose edge has that type, a pair that occurs on several
    lines being counted once per line. *)
Theorem X16_edge_type_counts f g ty :
  build f = Ok g ->
  lookup0 String.eqb ty (edgetype2count_dictionary g)
  = Z.of_nat (length (filter (fun t => String.eqb (edge_type_of t) ty)
                        (accepted f))).
Proof.
  intros Hb. destruct (build_statistics f g Hb) as ((ns & es & E) & _).
  exact (read_lines_types f _ _ E ty).
Qed.

Lemma X16_edge_type_counts_witness :
  exists g,
    build file_repeated_pair = Ok g
    /\ lookup0 String.eqb "gp" (edgetype2count_dictionary g)
       = Z.of_nat (length (filter (fun t => String.eqb (edge_type_of t) "gp")
                             (accepted file_repeated_pair))).
Proof.
  eexists.
  assert (Hb : build file_repeated_pair = Ok _) by (vm_compute; reflexivity).
  split; [exact Hb|]. exact (X16_edge_type_counts _ _ _ Hb).
Defined.

(** The pair g1, p1 is on two lines: one edge, counted twice. *)
Example repeated_pair_counted_twice :
  exists g,
    build file_repeated_pair = Ok g
    /\ lookup0 String.eqb "gp" (edgetype2count_dictionary g) = 2
    /\ fst (edge_count g) = Ok 4.
Proof. eexists. split; [vm_compute; reflexivity|split; reflexivity]. Qed.

Lemma set_offsets_types rest : forall st os,
  set_offsets rest st = Ok os ->
  forall c,
    lookup0 String.eqb c (os_nodetype2count os)
    = lookup0 String.eqb c (os_nodetype2count st)
      + Z.of_nat (length (filter (fun n => String.eqb (node_type n) c) rest)).
Proof.
  induction rest as [|n rest IH]; intros st os H c.
  - simpl in H. injection H as <-. simpl. lia.
  - cbn [set_offsets] in H.
    apply rbind_ok in H as (ty & Hty & H).
    destruct (defaultdict_getitem String.eqb 0 n (os_n2i st)) as [si n2i].
    destruct (defaultdict_getitem Z.eqb 0 si (os_index2edge_count st))
      as [ne i2ec].
    apply rbind_ok in H as (v & _ & H).
    apply rbind_ok in H as (offs & _ & H).
    rewrite (IH _ _ H c). cbn [os_nodetype2count filter].
    rewrite (lookup0_incr _ String.eqb string_eqb_spec).
    unfold node_type. rewrite Hty.
    destruct (String.eqb ty c); simpl length; lia.
Qed.

(** X17: for every character, the counter of [nodetype2count_dictionary]
    (0 for a missing key) is the number of labels of the graph that start
    with that character. *)
Theorem X17_node_type_counts f g c :
  build f = Ok g ->
  exists l,
    nodes g = (Ok l, g)
    /\ lookup0 String.eqb c (nodetype2count_dictionary g)
       = Z.of_nat (length (filter (fun n => String.eqb (node_type n) c) l)).
Proof.
  intros Hb. exists (node_list f). split.
  - destruct (build_layout f g Hb) as (Hn & _).
    unfold nodes, lift. now rewrite Hn, keys_index_map.
  - destruct (build_statistics f g Hb) as (_ & st & os & Hos & Hst & ->).
    rewrite (set_offsets_types _ _ _ Hos c), Hst. reflexivity.
Qed.

Lemma X17_node_type_counts_witness :
  exists g,
    build file_scenario = Ok g
    /\ exists l,
         nodes g = (Ok l, g)
         /\ lookup0 String.eqb "g" (nodetype2count_dictionary g)
            = Z.of_nat (length (filter
                                  (fun n => String.eqb (node_type n) "g") l)).
Proof.
  eexists.
  assert (Hb : build file_scenario = Ok _) by (vm_compute; reflexivity).
  split; [exact Hb|]. exact (X17_node_type_counts _ _ _ Hb).
Defined.

(** X20: for two labels of a freshly built graph [same_nodetype] never
    raises: it returns whether the two labels start with the same
    character, the same answer in both orders, and leaves the graph as it
    was. *)
Theorem X20_same_nodetype_on_labels f g a b :
  build f = Ok g -> known g a -> known g b ->
  exists r,
    same_nodetype a b g = (Ok r, g)
    /\ same_nodetype b a g = (Ok r, g)
    /\ (r = true <-> node_type a = node_type b).
Proof.
  intros Hb Ha Hk. pose proof (build_layout f g Hb) as Hg.
  apply (known_layout f g a Hg), node_list_nonempty in Ha.
  apply (known_layout f g b Hg), node_list_nonempty in Hk.
  destruct a as [|ca ra]; [congruence|]. destruct b as [|cb rb]; [congruence|].
  exists (String.eqb (String ca EmptyString) (String cb EmptyString)).
  unfold same_nodetype, lift, node_type. simpl.
  rewrite (Ascii.eqb_sym cb ca). repeat split.
  - destruct (Ascii.eqb_spec ca cb) as [->|]; [reflexivity|discriminate].
  - intros [= ->]. now rewrite Ascii.eqb_refl.
Qed.

Lemma X20_same_nodetype_on_labels_witness :
  exists g,
    build file_scenario = Ok g
    /\ known g "g2" /\ known g "p1"
    /\ exists r,
         same_nodetype "g2" "p1" g = (Ok r, g)
         /\ same_nodetype "p1" "g2" g = (Ok r, g)
         /\ (r = true <-> node_type "g2" = node_type "p1").
Proof.
  eexists.
  assert (Hb : build file_scenario = Ok _) by (vm_compute; reflexivity).
  split; [exact Hb|].
  match goal with
  | |- known ?g ?a /\ known ?g ?b /\ _ =>
      assert (Ha : known g a) by (vm_compute; auto);
      assert (Hp : known g b) by (vm_compute; auto)
  end.
  split; [exact Ha|]. split; [exact Hp|].
  exact (X20_same_nodetype_on_labels _ _ _ _ Hb Ha Hp).
Defined.

(** ** What the graph depends on *)

Lemma node_list_joined f a :
  In a (node_list f) <-> exists b, joined f a b = true.
Proof.
  rewrite node_list_In, endpoints_In. split.
  - intros (x & y & w & Hin & [->| ->]).
    + exists y. apply joined_iff. exists w. now left.
    + exists x. apply joined_iff. exists w. now right.
  - intros (b & H). apply joined_iff in H as (w & [H|H]).
    + exists a, b, w. split; auto.
    + exists b, a, w. auto.
Qed.

Lemma pair_lt_edge p q w :
  pair_lt p q = Edge.__lt__ (Edge.mk (fst p) (snd p) w)
                            (Edge.mk (fst q) (snd q) w).
Proof. reflexivity. Qed.

Lemma pair_lt_irrefl p : pair_lt p p = false.
Proof. rewrite (pair_lt_edge p p S754_nan). apply edge_lt_irrefl. Qed.

Lemma pair_lt_trans p q r :
  pair_lt p q = true -> pair_lt q r = true -> pair_lt p r = true.
Proof.
  rewrite (pair_lt_edge p q S754_nan), (pair_lt_edge q r S754_nan),
          (pair_lt_edge p r S754_nan).
  apply edge_lt_trans.
Qed.

Lemma edge_keys_joined f f' :
  (forall a b, joined f a b = joined f' a b) ->
  map pair_of (edge_list f) = map pair_of (edge_list f').
Proof.
  intros H.
  apply (increasing_unique _ pair_lt pair_lt_irrefl pair_lt_trans).
  - apply pairs_increasing, edge_list_increasing.
  - apply pairs_increasing, edge_list_increasing.
  - intros [a b].
    assert (K : forall h, In (a, b) (map pair_of (edge_list h))
                          <-> joined h a b = true).
    { intros h. rewrite <- edge_list_key, in_map_iff.
      split; intros (e & H1 & H2).
      - exists e. unfold pair_of in H1. injection H1 as ? ?. auto.
      - exists e. destruct H2 as [<- <-]. auto. }
    now rewrite !K, H.
Qed.

Lemma node_list_of_joined f f' :
  (forall a b, joined f a b = joined f' a b) -> node_list f = node_list f'.
Proof.
  intros H.
  apply (increasing_unique _ str_lt str_lt_irrefl str_lt_trans);
    try apply node_list_increasing.
  intros a. rewrite !node_list_joined.
  split; intros (b & Hb); exists b; [rewrite <- H|rewrite H]; exact Hb.
Qed.

Lemma filter_map_length {A B} (h : A -> B) (p : B -> bool) l :
  length (filter (fun x => p (h x)) l) = length (filter p (map h l)).
Proof.
  induction l as [|x r IH]; [reflexivity|]. cbn [map filter].
  destruct (p (h x)); simpl; now rewrite IH.
Qed.

Lemma below_pairs nl el k :
  below nl el k
  = Z.of_nat (length (filter (fun p => idx nl (fst p) <? k)
                        (map pair_of el))).
Proof.
  unfold below.
  now rewrite <- (filter_map_length pair_of (fun p => idx nl (fst p) <? k)).
Qed.

Lemma edge_list_of_first_lines f f' :
  (forall a b, option_map triple_weight (first_line (accepted f) a b)
               = option_map triple_weight (first_line (accepted f') a b)) ->
  edge_list f = edge_list f'.
Proof.
  intros H.
  apply (increasing_unique _ Edge.__lt__ edge_lt_irrefl edge_lt_trans);
    try apply edge_list_increasing.
  assert (K : forall h e,
             In e (edge_list h)
             <-> option_map triple_weight
                   (first_line (accepted h) (Edge.nodeA e) (Edge.nodeB e))
                 = Some (Edge.weight e)).
  { intros h e. rewrite edge_list_first_lines. split.
    - intros (t & -> & ->). reflexivity.
    - destruct (first_line _ _ _) as [t|]; [|discriminate].
      intros [= E]. eauto. }
  intros e. now rewrite !K, H.
Qed.

(** X18: the layout of the graph depends on the file only through the
    set of unordered pairs its accepted lines join: two files whose
    accepted lines join the same pairs (in any order, in any direction,
    any number of times, with any weights) give the same two index maps,
    the same [edge_to] array and the same offset array.  When moreover
    the first line of every pair carries the same weight in both files,
    the weight arrays are the same as well. *)
Theorem X18_layout_of_joined_pairs f f' g g' :
  build f = Ok g -> build f' = Ok g' ->
  (forall a b, joined f a b = joined f' a b) ->
  (node_to_index_map g = node_to_index_map g'
   /\ index_to_node_map g = index_to_node_map g'
   /\ edge_to g = edge_to g'
   /\ offset_to_edge_ g = offset_to_edge_ g')
  /\ ((forall a b,
         option_map triple_weight (first_line (accepted f) a b)
         = option_map triple_weight (first_line (accepted f') a b)) ->
      edge_weight g = edge_weight g').
Proof.
  intros Hb Hb' H.
  destruct (build_layout f g Hb) as (Hn & Hi & Ht & Hw & Ho).
  destruct (build_layout f' g' Hb') as (Hn' & Hi' & Ht' & Hw' & Ho').
  pose proof (node_list_of_joined f f' H) as En.
  pose proof (edge_keys_joined f f' H) as Ek.
  split; [repeat split|].
  - now rewrite Hn, Hn', En.
  - now rewrite Hi, Hi', En.
  - assert (E : forall nl el,
               map (fun e => idx nl (Edge.nodeB e)) el
               = map (fun p => idx nl (snd p)) (map pair_of el))
      by (intros; now rewrite map_map).
    now rewrite Ht, Ht', En, !E, Ek.
  - rewrite Ho, Ho', En. unfold offsets.
    apply map_ext. intros k. now rewrite !below_pairs, Ek.
  - intros Hfirst. rewrite Hw, Hw'.
    now rewrite (edge_list_of_first_lines f f' Hfirst).
Qed.

Lemma X18_layout_of_joined_pairs_witness :
  exists g g',
    build file_repeated_pair = Ok g /\ build file_reordered = Ok g'
    /\ (forall a b, joined file_repeated_pair a b = joined file_reordered a b)
    /\ (node_to_index_map g = node_to_index_map g'
        /\ index_to_node_map g = index_to_node_map g'
        /\ edge_to g = edge_to g'
        /\ offset_to_edge_ g = offset_to_edge_ g')
    /\ ((forall a b,
           option_map triple_weight
             (first_line (accepted file_repeated_pair) a b)
           = option_map triple_weight
               (first_line (accepted file_reordered) a b)) ->
        edge_weight g = edge_weight g').
Proof.
  do 2 eexists.
  assert (Hb : build file_repeated_pair = Ok _) by (vm_compute; reflexivity).
  assert (Hb' : build file_reordered = Ok _) by (vm_compute; reflexivity).
  assert (H : forall a b,
             joined file_repeated_pair a b = joined file_reordered a b).
  { intros a b. unfold joined.
    match goal with
    | |- existsb _ ?l = existsb _ ?r =>
        let lv := eval vm_compute in l in
        let rv := eval vm_compute in r in
        change l with lv; change r with rv
    end.
    cbn [existsb joins].
    repeat match goal with
           | |- context [String.eqb ?s ?x] => destruct (String.eqb s x)
           end; reflexivity. }
  split; [exact Hb|]. split; [exact Hb'|]. split; [exact H|].
  exact (X18_layout_of_joined_pairs _ _ _ _ Hb Hb' H).
Defined.

(** ** The order on edges *)

(** X19: the comparisons of [Edge] look at the two labels only, and order
    the edges totally on them: of [e < e'], [e == e'] and [e' < e] exactly
    one holds, [e == e'] holds exactly when the two edges have the same
    source and the same destination, whatever their weights, and [<] is
    transitive. *)
Theorem X19_edge_order e e' e'' :
  (Edge.__eq__ e e' = true <-> pair_of e = pair_of e')
  /\ ((Edge.__lt__ e e' = true /\ Edge.__eq__ e e' = false
       /\ Edge.__lt__ e' e = false)
      \/ (Edge.__lt__ e e' = false /\ Edge.__eq__ e e' = true
          /\ Edge.__lt__ e' e = false)
      \/ (Edge.__lt__ e e' = false /\ Edge.__eq__ e e' = false
          /\ Edge.__lt__ e' e = true))
  /\ (Edge.__lt__ e e' = true -> Edge.__lt__ e' e'' = true ->
      Edge.__lt__ e e'' = true).
Proof.
  split; [|split; [|apply edge_lt_trans]].
  - rewrite edge_eq_iff. unfold pair_of. split; [intros [-> ->]|intros [= -> ->]];
      auto.
  - assert (Asym : forall x y, Edge.__lt__ x y = true ->
                               Edge.__lt__ y x = false).
    { intros x y Hxy. destruct (Edge.__lt__ y x) eqn:Hyx; [|reflexivity].
      pose proof (edge_lt_trans _ _ _ Hxy Hyx) as Hxx.
      now rewrite edge_lt_irrefl in Hxx. }
    assert (Neq : forall x y, Edge.__lt__ x y = true ->
                              Edge.__eq__ x y = false).
    { intros x y Hxy. destruct (Edge.__eq__ x y) eqn:E; [|reflexivity].
      apply edge_eq_iff in E as [EA EB]. unfold Edge.__lt__ in Hxy.
      rewrite EA, EB, String.eqb_refl, str_lt_irrefl in Hxy. discriminate. }
    destruct (Edge.__eq__ e e') eqn:E.
    + right; left.
      destruct (Edge.__lt__ e e') eqn:L1;
        [apply Neq in L1; congruence|].
      destruct (Edge.__lt__ e' e) eqn:L2;
        [apply Neq in L2; rewrite edge_eq_sym in L2; congruence|].
      auto.
    + destruct (edge_lt_connex _ _ E) as [L|L].
      * left. rewrite L, (Asym _ _ L). auto.
      * right; right. rewrite L, (Asym _ _ L). auto.
Qed.

(** ** The sorted lists *)

(** X21: the sorted lists of the constructor do not depend on the order
    in which the two sets are iterated, nor on the sorting algorithm: in
    whatever order [ns] and [es] list the elements of the node set and of
    the edge set, sorting them gives the same two lists, and these are the
    only increasing lists with these elements. *)
Theorem X21_sorted_lists_determined f ns es :
  Permutation (node_set f) ns -> Permutation (edge_set f) es ->
  sorted str_lt ns = node_list f
  /\ sorted Edge.__lt__ es = edge_list f
  /\ (forall l, increasing str_lt l -> (forall x, In x l <-> In x ns) ->
        l = node_list f)
  /\ (forall l, increasing Edge.__lt__ l -> (forall e, In e l <-> In e es) ->
        l = edge_list f).
Proof.
  intros Pn Pe.
  assert (Dn : distinct str_lt (node_set f))
    by (apply unique_distinct_strings, node_set_NoDup).
  assert (De : distinct Edge.__lt__ (edge_set f))
    by (apply unique_distinct_edges, edge_set_unique).
  repeat split.
  - symmetry.
    exact (sorted_order_independent _ str_lt str_lt_irrefl str_lt_trans
             _ _ Dn Pn).
  - symmetry.
    exact (sorted_order_independent _ Edge.__lt__ edge_lt_irrefl edge_lt_trans
             _ _ De Pe).
  - intros l Hl Hin.
    apply (increasing_unique _ str_lt str_lt_irrefl str_lt_trans);
      [exact Hl|apply node_list_increasing|].
    intros x. rewrite Hin. unfold node_list. rewrite sorted_In.
    split; apply Permutation_in; [now symmetry|assumption].
  - intros l Hl Hin.
    apply (increasing_unique _ Edge.__lt__ edge_lt_irrefl edge_lt_trans);
      [exact Hl|apply edge_list_increasing|].
    intros x. rewrite Hin, edge_list_In.
    split; apply Permutation_in; [now symmetry|assumption].
Qed.

Lemma X21_sorted_lists_determined_witness :
  Permutation (node_set file_scenario) (rev (node_set file_scenario))
  /\ Permutation (edge_set file_scenario) (rev (edge_set file_scenario))
  /\ sorted str_lt (rev (node_set file_scenario)) = node_list file_scenario
  /\ sorted Edge.__lt__ (rev (edge_set file_scenario))
     = edge_list file_scenario
  /\ (forall l, increasing str_lt l ->
        (forall x, In x l <-> In x (rev (node_set file_scenario))) ->
        l = node_list file_scenario)
  /\ (forall l, increasing Edge.__lt__ l ->
        (forall e, In e l <-> In e (rev (edge_set file_scenario))) ->
        l = edge_list file_scenario).
Proof.
  assert (Pn : Permutation (node_set file_scenario)
                 (rev (node_set file_scenario))) by apply Permutation_rev.
  assert (Pe : Permutation (edge_set file_scenario)
                 (rev (edge_set file_scenario))) by apply Permutation_rev.
  split; [exact Pn|]. split; [exact Pe|].
  exact (X21_sorted_lists_determined _ _ _ Pn Pe).
Defined.

(** ** Nodes without edges *)

Lemma filter_source_nonempty f a :
  In a (node_list f) ->
  (0 < length (filter (fun e => String.eqb (Edge.nodeA e) a)
                 (edge_list f)))%nat.
Proof.
  intros Ha. apply node_list_joined in Ha as (b & Hj).
  apply edge_list_key in Hj as (e & He & HA & _).
  assert (Hin : In e (filter (fun e => String.eqb (Edge.nodeA e) a)
                        (edge_list f)))
    by (apply filter_In; split; [assumption|now apply String.eqb_eq]).
  destruct (filter _ _); [destruct Hin|simpl; lia].
Qed.

Lemma degree_positive f i :
  0 <= i < Z.of_nat (length (node_list f)) ->
  0 < degree (node_list f) (edge_list f) i.
Proof.
  intros Hi. pose proof (node_list_NoDup f) as Hnd.
  destruct (nth_error (node_list f) (Z.to_nat i)) as [a|] eqn:Ha;
    [|apply nth_error_None in Ha; lia].
  assert (Hin : In a (node_list f)) by (eapply nth_error_In; eassumption).
  assert (Hidx : idx (node_list f) a = i)
    by (rewrite (idx_nth _ _ _ Hnd Ha); lia).
  unfold degree. rewrite <- Hidx, (filter_source_label f a Hin).
  pose proof (filter_source_nonempty f a Hin). lia.
Qed.

Lemma below_at_least f k :
  (k <= length (node_list f))%nat ->
  Z.of_nat k <= below (node_list f) (edge_list f) (Z.of_nat k).
Proof.
  induction k as [|k IH]; intros Hk.
  - now rewrite below_0.
  - rewrite Nat2Z.inj_succ, <- Z.add_1_r, below_step.
    pose proof (degree_positive f (Z.of_nat k)). lia.
Qed.

(** X22: a freshly built graph has no node without an edge: every label
    has at least one neighbour, the offset array is strictly increasing
    (no adjacency block is empty), and [node_count()] is at most
    [edge_count()]. *)
Theorem X22_no_isolated_node f g :
  build f = Ok g ->
  (forall a, known g a ->
     exists b l, neighbors a g = (Ok (b :: l), g))
  /\ (exists n m,
        node_count g = (Ok n, g) /\ edge_count g = (Ok m, g) /\ n <= m
        /\ forall i, 0 <= i < n ->
             exists x y,
               Np.getitem (offset_to_edge_ g) i = Ok x
               /\ Np.getitem (offset_to_edge_ g) (i + 1) = Ok y
               /\ x < y).
Proof.
  intros Hb. pose proof (build_layout f g Hb) as Hg.
  pose proof (node_list_NoDup f) as Hnd. split.
  - intros a Ha. apply (known_layout f g a Hg) in Ha.
    rewrite (neighbors_known f g Hg a Ha).
    pose proof (filter_source_nonempty f a Ha) as Hpos.
    destruct (filter _ _) as [|e r]; [simpl in Hpos; lia|].
    exists (Edge.nodeB e), (map Edge.nodeB r). reflexivity.
  - exists (Z.of_nat (length (node_list f))),
           (Z.of_nat (length (edge_set f))).
    split; [now apply node_count_layout|].
    split; [now apply edge_count_layout|]. split.
    + pose proof (below_at_least f (length (node_list f)) (le_n _)) as H.
      rewrite below_all in H; [|assumption|].
      * unfold edge_list in H. now rewrite sorted_length in H.
      * apply Forall_forall. intros e He. now apply edge_list_nodes.
    + intros i Hi. destruct Hg as (_ & _ & _ & _ & Ho). rewrite Ho.
      exists (below (node_list f) (edge_list f) i),
             (below (node_list f) (edge_list f) (i + 1)).
      rewrite !offsets_get by lia. repeat split.
      rewrite below_step. pose proof (degree_positive f i Hi). lia.
Qed.

Lemma X22_no_isolated_node_witness :
  exists g,
    build file_scenario = Ok g
    /\ (forall a, known g a ->
          exists b l, neighbors a g = (Ok (b :: l), g))
    /\ (exists n m,
          node_count g = (Ok n, g) /\ edge_count g = (Ok m, g) /\ n <= m
          /\ forall i, 0 <= i < n ->
               exists x y,
                 Np.getitem (offset_to_edge_ g) i = Ok x
                 /\ Np.getitem (offset_to_edge_ g) (i + 1) = Ok y
                 /\ x < y).
Proof.
  eexists.
  assert (Hb : build file_scenario = Ok _) by (vm_compute; reflexivity).
  split; [exact Hb|]. exact (X22_no_isolated_node _ _ Hb).
Defined.

(** ** The dictionaries of types and what is printed from them *)

Local Open Scope list_scope.

Lemma existsb_keys (k : string) (d : dict string Z) :
  existsb (fun y => String.eqb y k) (keys d)
  = match dict_get String.eqb k d with Some _ => true | None => false end.
Proof.
  induction d as [|[k' v'] r IH]; [reflexivity|]. cbn [keys map fst existsb dict_get].
  destruct (String.eqb k' k); [reflexivity|]. exact IH.
Qed.

Lemma keys_setitem (k : string) (v : Z) (d : dict string Z) :
  keys (dict_setitem String.eqb k v d) = set_add String.eqb k (keys d).
Proof.
  unfold set_add. induction d as [|[k' v'] r IH]; [reflexivity|].
  cbn [keys map fst existsb dict_setitem].
  destruct (String.eqb k' k) eqn:E; [reflexivity|].
  cbn [orb map fst]. unfold keys in IH. rewrite IH.
  now destruct (existsb _ (map fst r)).
Qed.

Lemma set_add_twice (k : string) s :
  set_add String.eqb k (set_add String.eqb k s) = set_add String.eqb k s.
Proof.
  unfold set_add at 2. destruct (existsb _ s) eqn:E.
  - unfold set_add. now rewrite E.
  - unfold set_add. rewrite existsb_app, E. cbn [existsb orb].
    now rewrite String.eqb_refl.
Qed.

Lemma keys_incr (k : string) (d : dict string Z) :
  keys (defaultdict_incr String.eqb k d) = set_add String.eqb k (keys d).
Proof.
  unfold defaultdict_incr, defaultdict_getitem.
  destruct (dict_get String.eqb k d) as [v|] eqn:E.
  - apply keys_setitem.
  - rewrite keys_setitem, keys_app. cbn [keys map fst].
    fold (keys d).
    replace (keys d ++ [k]) with (set_add String.eqb k (keys d)).
    + apply set_add_twice.
    + unfold set_add. now rewrite existsb_keys, E.
Qed.

Lemma keys_count_all ks : forall d,
  keys (count_all ks d) = add_all String.eqb ks (keys d).
Proof.
  induction ks as [|k ks IH]; intros d; [reflexivity|].
  cbn [count_all add_all fold_left]. fold (count_all ks).
  fold (add_all String.eqb ks). now rewrite IH, keys_incr.
Qed.

Lemma total_app d1 d2 : total (d1 ++ d2) = total d1 + total d2.
Proof.
  unfold total. induction d1 as [|[k v] r IH]; [reflexivity|].
  cbn [app map snd fold_right] in *. rewrite IH. lia.
Qed.

Lemma total_setitem (k : string) v (d : dict string Z) :
  total (dict_setitem String.eqb k v d)
  = total d + v - lookup0 String.eqb k d.
Proof.
  unfold total, lookup0. induction d as [|[k' v'] r IH].
  - cbn. lia.
  - cbn [dict_setitem dict_get]. destruct (String.eqb k' k).
    + cbn [map snd fold_right]. lia.
    + cbn [map snd fold_right]. rewrite IH. lia.
Qed.

Lemma total_incr (k : string) (d : dict string Z) :
  total (defaultdict_incr String.eqb k d) = total d + 1.
Proof.
  unfold defaultdict_incr.
  pose proof (lookup0_getitem _ String.eqb k d) as H1.
  pose proof (lookup0_after_getitem _ String.eqb k d k) as H2.
  assert (H3 : total (snd (defaultdict_getitem String.eqb 0 k d)) = total d).
  { unfold defaultdict_getitem. destruct (dict_get String.eqb k d);
      [reflexivity|]. cbn [snd]. rewrite total_app. unfold total. cbn. lia. }
  destruct (defaultdict_getitem String.eqb 0 k d) as [v d1].
  cbn [fst snd] in *. rewrite total_setitem. lia.
Qed.

Lemma total_count_all ks : forall d,
  total (count_all ks d) = total d + Z.of_nat (length ks).
Proof.
  induction ks as [|k ks IH]; intros d;
    [cbn [count_all fold_left length]; lia|].
  cbn [count_all fold_left]. fold (count_all ks).
  rewrite IH, total_incr. cbn [length]. lia.
Qed.

Lemma lookup0_count_all ks : forall d c,
  lookup0 String.eqb c (count_all ks d)
  = lookup0 String.eqb c d
    + Z.of_nat (length (filter (fun k => String.eqb k c) ks)).
Proof.
  induction ks as [|k ks IH]; intros d c;
    [cbn [count_all fold_left filter length]; lia|].
  cbn [count_all fold_left]. fold (count_all ks).
  rewrite IH, (lookup0_incr _ String.eqb string_eqb_spec). cbn [filter].
  destruct (String.eqb k c); cbn [length]; lia.
Qed.

(** A dictionary is the list of its keys, each with its value. *)
Lemma dict_items (d : dict string Z) :
  NoDup (keys d) ->
  d = map (fun k => (k, lookup0 String.eqb k d)) (keys d).
Proof.
  induction d as [|[k v] r IH]; intros Hnd; [reflexivity|].
  cbn [keys map fst] in *. inversion Hnd as [|? ? Hk Hr]; subst.
  unfold lookup0 at 1. cbn [dict_get]. rewrite String.eqb_refl. f_equal.
  rewrite (IH Hr) at 1. apply map_ext_in. intros k' Hk'.
  unfold lookup0. cbn [dict_get].
  destruct (String.eqb_spec k k') as [->|_]; [contradiction|reflexivity].
Qed.

Lemma add_all_In ks c : In c (add_all String.eqb ks []) <-> In c ks.
Proof.
  split.
  - intros H. apply add_all_inv in H as [[]|H]. assumption.
  - intros H.
    destruct (add_all_has _ String.eqb String.eqb_refl _ [] _ H)
      as (y & Hy & Hyx).
    apply String.eqb_eq in Hyx. now subst.
Qed.

Lemma add_all_NoDup ks : NoDup (add_all String.eqb ks []).
Proof. apply unique_string_NoDup, add_all_unique. constructor. Qed.

Lemma filter_map_eq {A} (h : A -> string) c (l : list A) :
  length (filter (fun k => String.eqb k c) (map h l))
  = length (filter (fun x => String.eqb (h x) c) l).
Proof.
  induction l as [|x r IH]; [reflexivity|]. cbn [map filter].
  destruct (String.eqb (h x) c); cbn [length]; now rewrite IH.
Qed.

(** *** The order of the node types *)

Lemma increasing_snoc {A} (lt : A -> A -> bool) s k :
  increasing lt s -> (forall x, In x s -> lt x k = true) ->
  increasing lt (s ++ [k]).
Proof.
  induction 1 as [|x r Hr IH Hx]; intros Hk; cbn [app].
  - repeat constructor.
  - constructor.
    + apply IH. intros y Hy. apply Hk. now right.
    + apply Forall_app. split; [assumption|].
      constructor; [|constructor]. apply Hk. now left.
Qed.

Lemma add_all_ascending ks : forall s,
  increasing str_lt s -> ascending str_lt ks ->
  (forall x k, In x s -> In k ks -> str_lt k x = false) ->
  increasing str_lt (add_all String.eqb ks s).
Proof.
  induction ks as [|k ks IH]; intros s Hs Hks Hle; [exact Hs|].
  cbn [add_all fold_left]. fold (add_all String.eqb ks).
  inversion Hks as [|? ? Hks' Hk]; subst. rewrite Forall_forall in Hk.
  unfold set_add. destruct (existsb _ s) eqn:E.
  - apply IH; [assumption|assumption|].
    intros x k' Hx Hk'. apply Hle; [assumption|now right].
  - apply IH; [|assumption|].
    + apply increasing_snoc; [assumption|]. intros x Hx.
      destruct (str_lt x k) eqn:L; [reflexivity|].
      assert (Hkx : str_lt k x = false) by (apply Hle; [assumption|now left]).
      pose proof (str_lt_connex _ _ L Hkx) as ->.
      assert (existsb (fun y => String.eqb y k) s = true); [|congruence].
      apply existsb_exists. exists k. split; [assumption|apply String.eqb_refl].
    + intros x k' Hx Hk'. apply in_app_or in Hx as [Hx|[<-|[]]].
      * apply Hle; [assumption|now right].
      * now apply Hk.
Qed.

Lemma node_type_monotone a b :
  str_lt a b = true -> str_lt (node_type b) (node_type a) = false.
Proof.
  unfold str_lt, String.ltb, node_type.
  destruct a as [|ca ra], b as [|cb rb]; cbn [first_char String.compare];
    try reflexivity; try discriminate.
  rewrite (Ascii.compare_antisym cb ca).
  destruct (Ascii.compare ca cb); cbn [CompOpp]; try reflexivity.
  discriminate.
Qed.

Lemma node_types_ascending l :
  increasing str_lt l -> ascending str_lt (map node_type l).
Proof.
  induction 1 as [|x r Hr IH Hx]; [constructor|].
  cbn [map]. constructor; [exact IH|].
  apply Forall_forall. intros c Hc. apply in_map_iff in Hc as (y & <- & Hy).
  rewrite Forall_forall in Hx. apply node_type_monotone. now apply Hx.
Qed.

Lemma node_types_increasing f : increasing str_lt (node_types f).
Proof.
  unfold node_types. apply add_all_ascending.
  - constructor.
  - apply node_types_ascending, node_list_increasing.
  - intros x k [].
Qed.

(** *** The dictionaries the constructor fills *)

Lemma read_lines_counts f : forall st st',
  read_lines f st = Ok st' ->
  snd st' = count_all (map edge_type_of (accepted f)) (snd st).
Proof.
  induction f as [|line f IH]; intros st st' H.
  - simpl in H. injection H as <-. reflexivity.
  - cbn [read_lines] in H. rewrite accepted_cons.
    destruct st as [[ns es] et].
    destruct (parse_line line) as [[[a b] w]|] eqn:P.
    + rewrite (read_line_accepted _ _ _ _ _ _ _ P) in H. cbn [rbind] in H.
      rewrite (IH _ _ H). reflexivity.
    + assert (W : well_formed line = false)
        by (unfold well_formed; now rewrite P).
      rewrite (read_line_malformed _ _ W) in H. cbn [rbind] in H.
      rewrite (IH _ _ H). reflexivity.
Qed.

Lemma set_offsets_counts rest : forall st os,
  set_offsets rest st = Ok os ->
  os_nodetype2count os
  = count_all (map node_type rest) (os_nodetype2count st).
Proof.
  induction rest as [|n rest IH]; intros st os H.
  - simpl in H. injection H as <-. reflexivity.
  - cbn [set_offsets] in H.
    apply rbind_ok in H as (ty & Hty & H).
    destruct (defaultdict_getitem String.eqb 0 n (os_n2i st)) as [si n2i].
    destruct (defaultdict_getitem Z.eqb 0 si (os_index2edge_count st))
      as [ne i2ec].
    apply rbind_ok in H as (v & _ & H).
    apply rbind_ok in H as (offs & _ & H).
    rewrite (IH _ _ H). cbn [os_nodetype2count map count_all fold_left].
    unfold node_type. now rewrite Hty.
Qed.

Lemma build_type_dictionaries f g :
  build f = Ok g ->
  nodetype2count_dictionary g = count_all (map node_type (node_list f)) []
  /\ edgetype2count_dictionary g
     = count_all (map edge_type_of (accepted f)) [].
Proof.
  intros Hb.
  destruct (build_statistics f g Hb)
    as ((ns & es & E) & st & os & Hos & Hst & Hn).
  split.
  - rewrite Hn, (set_offsets_counts _ _ _ Hos), Hst. reflexivity.
  - exact (read_lines_counts f _ _ E).
Qed.

Lemma build_type_items f g :
  build f = Ok g ->
  nodetype2count_dictionary g
  = map (fun c => (c, nodes_of_type f c)) (node_types f)
  /\ edgetype2count_dictionary g
     = map (fun ty => (ty, lines_of_type f ty)) (edge_types f).
Proof.
  intros Hb. destruct (build_type_dictionaries f g Hb) as [Hn He].
  split.
  - rewrite Hn at 1.
    rewrite (dict_items (count_all (map node_type (node_list f)) []))
      by (rewrite keys_count_all; apply add_all_NoDup).
    rewrite keys_count_all. apply map_ext. intros c.
    rewrite lookup0_count_all, filter_map_eq. reflexivity.
  - rewrite He at 1.
    rewrite (dict_items (count_all (map edge_type_of (accepted f)) []))
      by (rewrite keys_count_all; apply add_all_NoDup).
    rewrite keys_count_all. apply map_ext. intros c.
    rewrite lookup0_count_all, filter_map_eq. reflexivity.
Qed.

(** X23: the keys of [nodetype2count_dictionary] are the first characters
    of the labels of the graph, each once and in increasing order; the
    keys of [edgetype2count_dictionary] are the type strings of the
    accepted lines, each once; the node counters add up to
    [node_count()], the edge counters to the number of accepted lines. *)
Theorem X23_type_dictionaries f g :
  build f = Ok g ->
  increasing str_lt (keys (nodetype2count_dictionary g))
  /\ (forall c, In c (keys (nodetype2count_dictionary g))
                <-> exists a, known g a /\ node_type a = c)
  /\ NoDup (keys (edgetype2count_dictionary g))
  /\ (forall ty, In ty (keys (edgetype2count_dictionary g))
                 <-> exists t, In t (accepted f) /\ edge_type_of t = ty)
  /\ node_count g = (Ok (total (nodetype2count_dictionary g)), g)
  /\ total (edgetype2count_dictionary g) = Z.of_nat (length (accepted f)).
Proof.
  intros Hb. pose proof (build_layout f g Hb) as Hg.
  destruct (build_type_dictionaries f g Hb) as [-> ->].
  rewrite !keys_count_all, !total_count_all.
  split; [apply node_types_increasing|].
  split.
  { intros c. rewrite add_all_In, in_map_iff.
    split; intros (a & H1 & H2).
    - exists a. split; [now apply (known_layout f g a Hg)|assumption].
    - exists a. split; [assumption|now apply (known_layout f g a Hg)]. }
  split; [apply add_all_NoDup|].
  split.
  { intros ty. rewrite add_all_In, in_map_iff.
    split; intros (t & H1 & H2); exists t; auto. }
  split.
  - rewrite (node_count_layout f g Hg), length_map. reflexivity.
  - rewrite length_map. reflexivity.
Qed.

Lemma X23_type_dictionaries_witness :
  exists g,
    build file_scenario = Ok g
    /\ increasing str_lt (keys (nodetype2count_dictionary g))
    /\ (forall c, In c (keys (nodetype2count_dictionary g))
                  <-> exists a, known g a /\ node_type a = c)
    /\ NoDup (keys (edgetype2count_dictionary g))
    /\ (forall ty, In ty (keys (edgetype2count_dictionary g))
                   <-> exists t, In t (accepted file_scenario)
                                 /\ edge_type_of t = ty)
    /\ node_count g = (Ok (total (nodetype2count_dictionary g)), g)
    /\ total (edgetype2count_dictionary g)
       = Z.of_nat (length (accepted file_scenario)).
Proof.
  eexists.
  assert (Hb : build file_scenario = Ok _) by (vm_compute; reflexivity).
  split; [exact Hb|]. exact (X23_type_dictionaries _ _ Hb).
Defined.

(** X24: on a freshly built graph [print_edge_type_distribution] prints
    one line per node type, in increasing order of the type, with the
    number of labels of that type; then, when the accepted lines have
    fewer than two edge types, the single line "edge count: n" with [n]
    the number of directed entries, and otherwise one line per edge type,
    in the order in which the types first occur in the file, with the
    number of accepted lines of that type.  The graph is left as it
    was. *)
Theorem X24_printed_distribution f g :
  build f = Ok g ->
  print_edge_type_distribution g = (Ok (distribution_lines f), g).
Proof.
  intros Hb. pose proof (build_layout f g Hb) as Hg.
  destruct (build_type_items f g Hb) as [Hn He].
  pose proof (edge_count_layout f g Hg) as Hc.
  unfold print_edge_type_distribution, distribution_lines, bind, lift, ret.
  rewrite Hn, He, !length_map, !map_map.
  destruct (Z.of_nat (length (edge_types f)) <? 2).
  - now rewrite Hc.
  - now rewrite He, map_map.
Qed.

Lemma X24_printed_distribution_witness :
  exists g,
    build file_scenario = Ok g
    /\ print_edge_type_distribution g
       = (Ok (distribution_lines file_scenario), g).
Proof.
  eexists.
  assert (Hb : build file_scenario = Ok _) by (vm_compute; reflexivity).
  split; [exact Hb|]. exact (X24_printed_distribution _ _ Hb).
Defined.

(** With one edge type the number printed counts directed entries (two
    per undirected edge); with two types the numbers count lines. *)
Example printed_for_one_type :
  exists g,
    build file_one_type = Ok g
    /\ fst (print_edge_type_distribution g)
       = Ok ["node type g - count: 3"; "edge count: 4"].
Proof. eexists. split; [vm_compute; reflexivity|reflexivity]. Qed.

Example printed_for_two_types :
  exists g,
    build file_scenario = Ok g
    /\ fst (print_edge_type_distribution g)
       = Ok ["node type g - count: 2"; "node type p - count: 1";
             "gp - count: 1"; "gg - count: 1"].
Proof. eexists. split; [vm_compute; reflexivity|reflexivity]. Qed.

(** X25: on a freshly built graph [str(graph)] shows the number of
    distinct labels of the accepted lines and the number of directed
    entries: two for every unordered pair of different labels, one for
    every self-loop; the graph is left as it was. *)
Theorem X25_str_of_graph f g :
  build f = Ok g ->
  __str__ g
  = (Ok ("CSFGraph(nodes: "
         ++ format_d (Z.of_nat (length (node_set f)))
         ++ "; edges: "
         ++ format_d
              (2 * Z.of_nat (length (filter (fun p => negb (is_loop p))
                                       (unordered_pairs (accepted f))))
               + Z.of_nat (length (filter is_loop
                                     (unordered_pairs (accepted f)))))
         ++ ")")%string, g).
Proof.
  intros Hb. pose proof (build_layout f g Hb) as Hg.
  unfold __str__, bind, ret.
  rewrite (node_count_layout f g Hg), (edge_count_layout f g Hg).
  rewrite edge_set_count. unfold node_list. now rewrite sorted_length.
Qed.

Lemma X25_str_of_graph_witness :
  exists g,
    build file_self_loop = Ok g
    /\ __str__ g
       = (Ok ("CSFGraph(nodes: "
              ++ format_d (Z.of_nat (length (node_set file_self_loop)))
              ++ "; edges: "
              ++ format_d
                   (2 * Z.of_nat
                          (length (filter (fun p => negb (is_loop p))
                                     (unordered_pairs
                                        (accepted file_self_loop))))
                    + Z.of_nat
                        (length (filter is_loop
                                   (unordered_pairs
                                      (accepted file_self_loop)))))
              ++ ")")%string, g).
Proof.
  eexists.
  assert (Hb : build file_self_loop = Ok _) by (vm_compute; reflexivity).
  split; [exact Hb|]. exact (X25_str_of_graph _ _ Hb).
Defined.

Example str_of_self_loop :
  exists g,
    build file_self_loop = Ok g
    /\ fst (__str__ g) = Ok "CSFGraph(nodes: 1; edges: 1)".
Proof. eexists. split; [vm_compute; reflexivity|reflexivity]. Qed.
